(** * LabDAMD / Roteiro3: resilience layer and chat broadcaster

    A shallow embedding of three JavaScript modules of the repository,

    - [shared/middleware/error-handling.js]: [withRetry], [CircuitBreaker];
    - [shared/utils/load-balancer]: [LoadBalancer];
    - the chat service: [ChatService];

    followed by the properties that the design document states about them.

    Conventions.  JavaScript numbers that hold integers (timestamps,
    limits, gRPC codes, failure counts) are [Z]; array indices and lengths
    are [nat]; a JS [Map] that is never iterated is a [gmap]; a JS [Set],
    whose iteration order is its insertion order, is a duplicate-free
    [list]; an optional property of a request object ([undefined] when
    absent) is an [option].  The environment ([Date.now()], [uuidv4()],
    [Math.random()], the settling of an awaited operation, the behaviour of
    a stream's [write]) is passed explicitly. *)

From Stdlib Require Import ZArith Lia.
From stdpp Require Import base option strings list gmap sorting.

Open Scope Z_scope.

(* ===================================================================== *)
(** * Part I.  The code                                                   *)
(* ===================================================================== *)

(** ** error-handling.js *)

Module ErrorCodes.
Definition OK : Z := 0.
Definition CANCELLED : Z := 1.
Definition UNKNOWN : Z := 2.
Definition INVALID_ARGUMENT : Z := 3.
Definition DEADLINE_EXCEEDED : Z := 4.
Definition NOT_FOUND : Z := 5.
Definition ALREADY_EXISTS : Z := 6.
Definition PERMISSION_DENIED : Z := 7.
Definition RESOURCE_EXHAUSTED : Z := 8.
Definition FAILED_PRECONDITION : Z := 9.
Definition ABORTED : Z := 10.
Definition OUT_OF_RANGE : Z := 11.
Definition UNIMPLEMENTED : Z := 12.
Definition INTERNAL : Z := 13.
Definition UNAVAILABLE : Z := 14.
Definition DATA_LOSS : Z := 15.
Definition UNAUTHENTICATED : Z := 16.
End ErrorCodes.

Module ErrorHandling.

(** A thrown JavaScript value.  A plain [Error] has no [code]
    ([undefined], here [None]); a [GrpcError] has one. *)
Record JsError := mkJsError {
  name : string;
  code : option Z;
  message : string;
  details : option string
}.

(** [new GrpcError(code, message)], [details] defaulting to [null]. *)
Definition GrpcError (c : Z) (msg : string) : JsError :=
  {| name := "GrpcError"; code := Some c; message := msg; details := None |}.

(** [new Error(message)]. *)
Definition Error (msg : string) : JsError :=
  {| name := "Error"; code := None; message := msg; details := None |}.

(** How an [async] function call completes. *)
Inductive Completion (V : Type) :=
| Returned (v : V)
| ReturnedUndefined
| Thrown (e : JsError).
Global Arguments Returned {V} v.
Global Arguments ReturnedUndefined {V}.
Global Arguments Thrown {V} e.

(** [a || b] on numbers: [undefined] and [0] are falsy. *)
Definition num_or (a : option Z) (b : Z) : Z :=
  match a with
  | Some v => if v =? 0 then b else v
  | None => b
  end.

Section Operations.
(** [W] is whatever the awaited operation can read and change (the
    network, the clock, a call counter); [V] is what it resolves to.  One
    [await operation()] takes the world before the call to the settled
    promise, [inl] a rejection and [inr] a value, and the world after. *)
Context {W V : Type}.

Definition Operation : Type := W → (JsError + V) * W.

(** *** withRetry *)

(** What [withRetry] can be observed doing, in order. *)
Inductive RetryEvent :=
| Attempt (n : Z)      (* operation() invoked, n-th time *)
| Sleep (ms : Z).      (* setTimeout(resolve, ms) awaited *)

(** The test guarding the retry branch. *)
Definition transient (error : JsError) : bool :=
  bool_decide (code error = Some ErrorCodes.UNAVAILABLE)
  || bool_decide (code error = Some ErrorCodes.DEADLINE_EXCEEDED)
  || bool_decide (code error = Some ErrorCodes.RESOURCE_EXHAUSTED).

(** The [for] loop from [attempt] on; [left] is the number of
    iterations the loop condition [attempt <= maxRetries] still allows.
    Falling out of the loop returns [undefined]. *)
Fixpoint withRetry_from (operation : Operation) (maxRetries baseDelay : Z)
    (left : nat) (attempt : Z) (w : W)
    : Completion V * W * list RetryEvent :=
  match left with
  | O => (ReturnedUndefined, w, [])
  | S left' =>
    match operation w with
    | (inr v, w') => (Returned v, w', [Attempt attempt])
    | (inl error, w') =>
      if attempt =? maxRetries then (Thrown error, w', [Attempt attempt])
      else if transient error then
        let delay := baseDelay * 2 ^ (attempt - 1) in
        let '(c, w'', evs) :=
          withRetry_from operation maxRetries baseDelay left' (attempt + 1) w' in
        (c, w'', Attempt attempt :: Sleep delay :: evs)
      else (Thrown error, w', [Attempt attempt])
    end
  end.

(** [async function withRetry(operation, maxRetries = 3, baseDelay = 1000)];
    an argument left out is [None]. *)
Definition withRetry (operation : Operation)
    (maxRetries baseDelay : option Z) (w : W)
    : Completion V * W * list RetryEvent :=
  let maxRetries := default 3 maxRetries in
  let baseDelay := default 1000 baseDelay in
  withRetry_from operation maxRetries baseDelay (Z.to_nat maxRetries) 1 w.

(** *** CircuitBreaker *)

Inductive State := CLOSED | OPEN | HALF_OPEN.

Record CircuitBreaker := mkCircuitBreaker {
  failureThreshold : Z;
  resetTimeout : Z;
  state : State;
  failures : Z;
  nextAttempt : Z
}.

Record Options := mkOptions {
  opt_failureThreshold : option Z;
  opt_resetTimeout : option Z
}.

(** [constructor(options = {})], run when [Date.now()] reads [now]. *)
Definition new_CircuitBreaker (options : Options) (now : Z) : CircuitBreaker :=
  {| failureThreshold := num_or (opt_failureThreshold options) 5;
     resetTimeout := num_or (opt_resetTimeout options) 60000;
     state := CLOSED;
     failures := 0;
     nextAttempt := now |}.

Definition set_state (s : State) (cb : CircuitBreaker) : CircuitBreaker :=
  {| failureThreshold := failureThreshold cb; resetTimeout := resetTimeout cb;
     state := s; failures := failures cb; nextAttempt := nextAttempt cb |}.

Definition set_failures (n : Z) (cb : CircuitBreaker) : CircuitBreaker :=
  {| failureThreshold := failureThreshold cb; resetTimeout := resetTimeout cb;
     state := state cb; failures := n; nextAttempt := nextAttempt cb |}.

Definition set_nextAttempt (t : Z) (cb : CircuitBreaker) : CircuitBreaker :=
  {| failureThreshold := failureThreshold cb; resetTimeout := resetTimeout cb;
     state := state cb; failures := failures cb; nextAttempt := t |}.

Definition onSuccess (cb : CircuitBreaker) : CircuitBreaker :=
  set_state CLOSED (set_failures 0 cb).

(** [now] is the reading of [Date.now()] inside [onFailure]. *)
Definition onFailure (now : Z) (cb : CircuitBreaker) : CircuitBreaker :=
  let cb := set_failures (failures cb + 1) cb in
  if failureThreshold cb <=? failures cb
  then set_nextAttempt (now + resetTimeout cb) (set_state OPEN cb)
  else cb.

Definition circuit_open : JsError :=
  GrpcError ErrorCodes.UNAVAILABLE "Circuit breaker is OPEN".

(** [execute] runs in two synchronous pieces separated by the [await].
    The first piece, up to and including the call [operation()], either
    throws before calling the operation or lets the call through. *)
Inductive Admission :=
| Rejected (e : JsError)
| Invoked (cb : CircuitBreaker).

Definition execute_enter (now : Z) (cb : CircuitBreaker) : Admission :=
  match state cb with
  | OPEN =>
    if now <? nextAttempt cb then Rejected circuit_open
    else Invoked (set_state HALF_OPEN cb)
  | _ => Invoked cb
  end.

(** The second piece runs when the operation's promise settles. *)
Definition execute_settle (r : JsError + V) (now : Z) (cb : CircuitBreaker)
    : CircuitBreaker * Completion V :=
  match r with
  | inr result => (onSuccess cb, Returned result)
  | inl error => (onFailure now cb, Thrown error)
  end.

(** Calls of [execute] on one breaker as the event loop runs them.  A call
    runs its first piece at once; at the [await] it gives way, and the
    second piece runs as an event of its own when the operation's promise
    settles.  In between, other calls can enter and other operations can
    settle, each reading and writing the same breaker.  [Call now] is the
    first piece of a call made when the clock reads [now]; [Settle r now]
    is the settlement, with outcome [r], of an operation invoked earlier. *)
Inductive Event :=
| Call (now : Z)
| Settle (r : JsError + V) (now : Z).

Record Run := mkRun {
  breaker : CircuitBreaker;
  in_flight : nat;        (* operations invoked and not yet settled *)
  invocations : nat;      (* operations invoked so far *)
  rejections : nat;       (* calls thrown out with [circuit_open] *)
  half_opens : nat        (* OPEN -> HALF_OPEN transitions so far *)
}.

Definition start (cb : CircuitBreaker) : Run :=
  {| breaker := cb; in_flight := 0; invocations := 0;
     rejections := 0; half_opens := 0 |}.

Definition step (r : Run) (ev : Event) : Run :=
  match ev with
  | Call now =>
    match execute_enter now (breaker r) with
    | Rejected _ =>
      {| breaker := breaker r; in_flight := in_flight r;
         invocations := invocations r; rejections := S (rejections r);
         half_opens := half_opens r |}
    | Invoked cb' =>
      {| breaker := cb'; in_flight := S (in_flight r);
         invocations := S (invocations r); rejections := rejections r;
         half_opens := match state (breaker r) with
                       | OPEN => S (half_opens r)
                       | _ => half_opens r
                       end |}
    end
  | Settle res now =>
    match in_flight r with
    | O => r
    | S n =>
      {| breaker := fst (execute_settle res now (breaker r)); in_flight := n;
         invocations := invocations r; rejections := rejections r;
         half_opens := half_opens r |}
    end
  end.

Definition run (r : Run) (evs : list Event) : Run := foldl step r evs.

End Operations.

Global Arguments Operation : clear implicits.
Global Arguments Event : clear implicits.

End ErrorHandling.


(** ** JavaScript [Set]

    A [Set] keeps its elements in insertion order and iterates in that
    order; adding an element that is present changes nothing, not even the
    order.  It is modelled as the list of its elements in iteration order. *)

Module JsSet.
Section JsSet.
Context {A : Type} `{EqDecision A}.

Definition has (x : A) (s : list A) : bool := bool_decide (x ∈ s).

Definition add (x : A) (s : list A) : list A :=
  if has x s then s else s ++ [x].

Definition delete (x : A) (s : list A) : list A := filter (λ y, y ≠ x) s.

(** [new Set(iterable)]. *)
Definition of_list (l : list A) : list A := foldl (λ s x, add x s) [] l.

End JsSet.
End JsSet.

(** ** load-balancer.js *)

Module LoadBalancing.
Import ErrorHandling.

Record HealthCheck := mkHealthCheck {
  status : string;
  timestamp : Z;
  error : option string
}.

Record LoadBalancer := mkLoadBalancer {
  endpoints : list string;
  strategy : string;
  currentIndex : nat;
  healthyEndpoints : list string;            (* a Set *)
  lastHealthCheck : gmap string HealthCheck
}.

(** [constructor(endpoints, strategy = 'round-robin')].  The health-check
    timer it starts is an event source of its own, see [checkHealth]. *)
Definition new_LoadBalancer (endpoints : list string) (strategy : option string)
    : LoadBalancer :=
  {| endpoints := endpoints;
     strategy := default "round-robin"%string strategy;
     currentIndex := 0;
     healthyEndpoints := JsSet.of_list endpoints;
     lastHealthCheck := ∅ |}.

Definition set_currentIndex (i : nat) (lb : LoadBalancer) : LoadBalancer :=
  {| endpoints := endpoints lb; strategy := strategy lb; currentIndex := i;
     healthyEndpoints := healthyEndpoints lb;
     lastHealthCheck := lastHealthCheck lb |}.

Definition set_healthyEndpoints (h : list string) (lb : LoadBalancer) : LoadBalancer :=
  {| endpoints := endpoints lb; strategy := strategy lb;
     currentIndex := currentIndex lb; healthyEndpoints := h;
     lastHealthCheck := lastHealthCheck lb |}.

Definition set_lastHealthCheck (m : gmap string HealthCheck) (lb : LoadBalancer)
    : LoadBalancer :=
  {| endpoints := endpoints lb; strategy := strategy lb;
     currentIndex := currentIndex lb; healthyEndpoints := healthyEndpoints lb;
     lastHealthCheck := m |}.

(** The strategies take the array [Array.from(this.healthyEndpoints)].  An
    index outside the array reads [undefined], here [None]. *)
Definition roundRobin (endpoints : list string) (lb : LoadBalancer)
    : option string * LoadBalancer :=
  let endpoint := endpoints !! (currentIndex lb mod length endpoints)%nat in
  (endpoint, set_currentIndex (S (currentIndex lb)) lb).

(** [rand k n] stands for [Math.floor(Math.random() * n)] at the [k]-th
    call of [Math.random] made while one [getEndpoint] runs. *)
Definition random (rand : nat → nat → nat) (endpoints : list string)
    : option string :=
  endpoints !! rand O (length endpoints).

Definition getConnectionCount (rand : nat → nat → nat) (k : nat) : nat :=
  rand k 10%nat.

(** [endpoints.reduce((min, current) => ...)] with no initial value: the
    first element starts as [min]; each later element costs two calls of
    [getConnectionCount].  On an empty array [reduce] throws a TypeError. *)
Definition leastConnections (rand : nat → nat → nat) (endpoints : list string)
    : JsError + string :=
  match endpoints with
  | [] => inl {| name := "TypeError"; code := None;
                 message := "Reduce of empty array with no initial value";
                 details := None |}
  | first :: rest =>
    inr (foldl (λ '(min, k) current,
                  let minConnections := getConnectionCount rand k in
                  let currentConnections := getConnectionCount rand (S k) in
                  (if (currentConnections <? minConnections)%nat
                   then current else min, S (S k)))
               (first, O) rest).1
  end.

Definition no_healthy_endpoints : JsError := Error "No healthy endpoints available".

(** [getEndpoint()]: what it throws or returns, and the balancer after. *)
Definition getEndpoint (rand : nat → nat → nat) (lb : LoadBalancer)
    : (JsError + option string) * LoadBalancer :=
  let healthy := healthyEndpoints lb in
  if bool_decide (length healthy = O) then (inl no_healthy_endpoints, lb)
  else if String.eqb (strategy lb) "round-robin" then
    let '(e, lb') := roundRobin healthy lb in (inr e, lb')
  else if String.eqb (strategy lb) "random" then
    (inr (random rand healthy), lb)
  else if String.eqb (strategy lb) "least-connections" then
    (match leastConnections rand healthy with
     | inl e => inl e
     | inr e => inr (Some e)
     end, lb)
  else
    let '(e, lb') := roundRobin healthy lb in (inr e, lb').

(** [checkHealth(endpoint)] once the readiness probe has settled at time
    [now]: [probe] is [None] when the client became ready and the message of
    the error otherwise. *)
Definition checkHealth (endpoint : string) (probe : option string) (now : Z)
    (lb : LoadBalancer) : LoadBalancer :=
  match probe with
  | None =>
    set_lastHealthCheck
      (<[endpoint := {| status := "healthy"; timestamp := now; error := None |}]>
         (lastHealthCheck lb))
      (set_healthyEndpoints (JsSet.add endpoint (healthyEndpoints lb)) lb)
  | Some msg =>
    set_lastHealthCheck
      (<[endpoint := {| status := "unhealthy"; timestamp := now;
                        error := Some msg |}]> (lastHealthCheck lb))
      (set_healthyEndpoints (JsSet.delete endpoint (healthyEndpoints lb)) lb)
  end.

Definition markUnhealthy (endpoint : string) (lb : LoadBalancer) : LoadBalancer :=
  set_healthyEndpoints (JsSet.delete endpoint (healthyEndpoints lb)) lb.

(** [n] calls of [getEndpoint] one after the other, with nothing else
    touching the balancer in between: the results in call order. *)
Fixpoint getEndpoint_times (rand : nat → nat → nat) (n : nat) (lb : LoadBalancer)
    : list (JsError + option string) * LoadBalancer :=
  match n with
  | O => ([], lb)
  | S n' =>
    let '(r, lb') := getEndpoint rand lb in
    let '(rs, lb'') := getEndpoint_times rand n' lb' in
    (r :: rs, lb'')
  end.

End LoadBalancing.

(** ** Arrays *)

Module JsArray.
Section JsArray.
Context {A : Type}.

(** [Array.prototype.sort(compare)]: stable; [compare x y > 0] puts [x]
    after [y].  Insertion from the right keeps equal elements in their
    input order. *)
Fixpoint sort_insert (compare : A → A → Z) (x : A) (l : list A) : list A :=
  match l with
  | [] => [x]
  | y :: l' =>
    if 0 <? compare x y then y :: sort_insert compare x l' else x :: y :: l'
  end.

Definition sort (compare : A → A → Z) (l : list A) : list A :=
  foldr (sort_insert compare) [] l.

(** [arr.slice(0, end)]: a negative [end] counts from the end of the
    array. *)
Definition slice0 (stop : Z) (l : list A) : list A :=
  if stop <? 0
  then take (Z.to_nat (Z.max (Z.of_nat (length l) + stop) 0)) l
  else take (Z.to_nat stop) l.

End JsArray.
End JsArray.

(** [String.prototype.toLowerCase] on the ASCII letters [A] to [Z]; every
    other character is left as it is, which for letters outside ASCII is
    not what JavaScript does. *)
Definition lower_ascii (c : Ascii.ascii) : Ascii.ascii :=
  let n := Ascii.nat_of_ascii c in
  if ((65 <=? n) && (n <=? 90))%nat then Ascii.ascii_of_nat (n + 32) else c.

Fixpoint toLowerCase (s : string) : string :=
  match s with
  | EmptyString => EmptyString
  | String c s' => String (lower_ascii c) (toLowerCase s')
  end.

(** ** chat-service/server.js *)

Module Chat.
Import ErrorHandling.

Inductive MessageType := TEXT | IMAGE | FILE | TYPING | SYSTEM.

Global Instance MessageType_eq_dec : EqDecision MessageType.
Proof. solve_decision. Defined.

(** A message object.  [username] and [metadata] are missing from some of
    the notifications the service builds itself; of [metadata] only the
    [presence] it may carry is kept. *)
Record Message := mkMessage {
  id : string;
  room_id : string;
  user_id : string;
  username : option string;
  content : string;
  type : MessageType;
  timestamp : Z;
  metadata : option string
}.

(** [message.id = ...; message.timestamp = ...]. *)
Definition stamp (uuid : string) (now : Z) (m : Message) : Message :=
  {| id := uuid; room_id := room_id m; user_id := user_id m;
     username := username m; content := content m; type := type m;
     timestamp := now; metadata := metadata m |}.

(** A server-side stream object [call], named by a handle, together with
    the two variables that [chatStream(call)] closes over.  Whether a
    [write] on it throws is up to the transport. *)
Record Call := mkCall {
  metadata_user_id : option string;   (* call.metadata.get('user-id')[0] *)
  destroyed : bool;
  write_throws : bool;
  userId : option string;             (* let userId = null *)
  currentRooms : list string          (* let currentRooms = new Set() *)
}.

(** The fields of [ChatService], the stream objects they refer to, and the
    log of every [userStream.write(message)] that returned, oldest first. *)
Record ChatService := mkChatService {
  rooms : gmap string (list string);          (* roomId -> Set of userIds *)
  userStreams : gmap string nat;              (* userId -> stream *)
  userRooms : gmap string (list string);      (* userId -> Set of roomIds *)
  messageHistory : gmap string (list Message);(* roomId -> Array of messages *)
  userPresence : gmap string string;          (* userId -> status *)
  calls : gmap nat Call;
  sent : list (nat * Message)
}.

Definition new_ChatService : ChatService :=
  {| rooms := ∅; userStreams := ∅; userRooms := ∅; messageHistory := ∅;
     userPresence := ∅; calls := ∅; sent := [] |}.

Definition set_rooms (v : gmap string (list string)) (s : ChatService) :=
  {| rooms := v; userStreams := userStreams s; userRooms := userRooms s;
     messageHistory := messageHistory s; userPresence := userPresence s;
     calls := calls s; sent := sent s |}.

Definition set_userStreams (v : gmap string nat) (s : ChatService) :=
  {| rooms := rooms s; userStreams := v; userRooms := userRooms s;
     messageHistory := messageHistory s; userPresence := userPresence s;
     calls := calls s; sent := sent s |}.

Definition set_userRooms (v : gmap string (list string)) (s : ChatService) :=
  {| rooms := rooms s; userStreams := userStreams s; userRooms := v;
     messageHistory := messageHistory s; userPresence := userPresence s;
     calls := calls s; sent := sent s |}.

Definition set_messageHistory (v : gmap string (list Message)) (s : ChatService) :=
  {| rooms := rooms s; userStreams := userStreams s; userRooms := userRooms s;
     messageHistory := v; userPresence := userPresence s;
     calls := calls s; sent := sent s |}.

Definition set_userPresence (v : gmap string string) (s : ChatService) :=
  {| rooms := rooms s; userStreams := userStreams s; userRooms := userRooms s;
     messageHistory := messageHistory s; userPresence := v;
     calls := calls s; sent := sent s |}.

Definition set_calls (v : gmap nat Call) (s : ChatService) :=
  {| rooms := rooms s; userStreams := userStreams s; userRooms := userRooms s;
     messageHistory := messageHistory s; userPresence := userPresence s;
     calls := v; sent := sent s |}.

Definition set_sent (v : list (nat * Message)) (s : ChatService) :=
  {| rooms := rooms s; userStreams := userStreams s; userRooms := userRooms s;
     messageHistory := messageHistory s; userPresence := userPresence s;
     calls := calls s; sent := v |}.

(** The members of a room: [this.rooms.get(roomId) || new Set()]. *)
Definition members (roomId : string) (s : ChatService) : list string :=
  default [] (rooms s !! roomId).

(** *** broadcastToRoom *)

(** The stream a broadcast would write to for [userId]: registered and not
    destroyed. *)
Definition live_stream (s : ChatService) (userId : string) : option (nat * Call) :=
  match userStreams s !! userId with
  | None => None
  | Some h =>
    match calls s !! h with
    | None => None
    | Some c => if destroyed c then None else Some (h, c)
    end
  end.

(** The body of the [forEach] callback. *)
Definition broadcast_one (message : Message) (excludeUserId : option string)
    (s : ChatService) (userId : string) : ChatService :=
  if bool_decide (Some userId ≠ excludeUserId) then
    match live_stream s userId with
    | None => s
    | Some (h, c) =>
      if write_throws c
      then set_userStreams (delete userId (userStreams s)) s
      else set_sent (sent s ++ [(h, message)]) s
    end
  else s.

(** [broadcastToRoom(roomId, message, excludeUserId = null)]. *)
Definition broadcastToRoom (roomId : string) (message : Message)
    (excludeUserId : option string) (s : ChatService) : ChatService :=
  let roomUsers := members roomId s in
  foldl (broadcast_one message excludeUserId) s roomUsers.

(** What one broadcast adds to [sent], read off the service before the
    broadcast: for each user in iteration order, other than the excluded
    one, whose stream is live and whose [write] does not throw, one write of
    the message. *)
Definition recipients (message : Message) (excludeUserId : option string)
    (users : list string) (s : ChatService) : list (nat * Message) :=
  omap (λ userId,
          if bool_decide (Some userId ≠ excludeUserId) then
            match live_stream s userId with
            | Some (h, c) => if write_throws c then None else Some (h, message)
            | None => None
            end
          else None) users.

(** Two services that differ at most in [userStreams] and [sent], the two
    fields a broadcast can change. *)
Definition same_store (s s' : ChatService) : Prop :=
  rooms s' = rooms s ∧ userRooms s' = userRooms s ∧
  messageHistory s' = messageHistory s ∧ userPresence s' = userPresence s ∧
  calls s' = calls s.

(** *** The stream handlers *)

(** [if (!has) set(roomId, []); get(roomId).push(message)]. *)
Definition push_history (roomId : string) (message : Message) (s : ChatService)
    : ChatService :=
  set_messageHistory
    (<[roomId := default [] (messageHistory s !! roomId) ++ [message]]>
       (messageHistory s)) s.

Definition handleChatMessage (uuid : string) (now : Z) (message : Message)
    (userRooms : list string) (s : ChatService) : JsError + ChatService :=
  let roomId := room_id message in
  if negb (JsSet.has roomId userRooms) then inl (Error "User not in room")
  else
    let message := stamp uuid now message in
    let s := push_history roomId message s in
    inr (broadcastToRoom roomId message None s).

Definition handleTypingIndicator (message : Message) (userRooms : list string)
    (s : ChatService) : ChatService :=
  let roomId := room_id message in
  if negb (JsSet.has roomId userRooms) then s
  else broadcastToRoom roomId message (Some (user_id message)) s.

Definition handleSystemMessage (uuid : string) (now : Z) (message : Message)
    (userRooms : list string) (s : ChatService) : ChatService :=
  let roomId := room_id message in
  let message := stamp uuid now message in
  let s := push_history roomId message s in
  broadcastToRoom roomId message None s.

(** The notification built by [handleUserDisconnect] and [leaveRoom]. *)
Definition leaveMessage (uuid : string) (now : Z) (roomId userId : string)
    : Message :=
  {| id := uuid; room_id := roomId; user_id := userId; username := None;
     content := "User left the room"; type := SYSTEM; timestamp := now;
     metadata := None |}.

(** A [forEach] whose callback draws the [i]-th identifier and clock
    reading of the enclosing call at its [i]-th round. *)
Definition forEach_indexed {A St : Type} (f : St → nat → A → St) (s : St)
    (l : list A) : St :=
  (foldl (λ '(s, i) x, (f s i x, S i)) (s, O) l).1.

Definition handleUserDisconnect (uuid : nat → string) (now : nat → Z)
    (userId : option string) (userRooms : list string) (s : ChatService)
    : ChatService :=
  match userId with
  | None => s
  | Some userId =>
    let s := set_userStreams (delete userId (userStreams s)) s in
    let s := set_userPresence (<[userId := "OFFLINE"%string]> (userPresence s)) s in
    forEach_indexed
      (λ s i roomId,
         broadcastToRoom roomId (leaveMessage (uuid i) (now i) roomId userId) None s)
      s userRooms
  end.

(** [call.destroy(error)] as far as the listener that calls it goes: the
    [destroyed] flag of the stream is raised at once.  The stream then emits
    'error'; that event reaches the service like every other one, as
    [on_close] below. *)
Definition set_destroyed (h : nat) (s : ChatService) : ChatService :=
  match calls s !! h with
  | None => s
  | Some c =>
    set_calls (<[h := {| metadata_user_id := metadata_user_id c; destroyed := true;
                         write_throws := write_throws c; userId := userId c;
                         currentRooms := currentRooms c |}]> (calls s)) s
  end.

(** The first part of the ['data'] callback: settle who the stream belongs
    to.  [message.user_id || call.metadata.get('user-id')[0]] takes the
    metadata when the message's user id is the empty string.  [None] when no
    user id was found and the callback returns after destroying the call. *)
Definition bind_user (h : nat) (c : Call) (message : Message) (s : ChatService)
    : option (Call * ChatService) :=
  match userId c with
  | Some _ => Some (c, s)
  | None =>
    let candidate :=
      if bool_decide (user_id message ≠ ""%string) then Some (user_id message)
      else metadata_user_id c in
    match candidate with
    | None => None
    | Some u =>
      if bool_decide (u = ""%string) then None
      else
        let userRoomsSet := default [] (userRooms s !! u) in
        let c' := {| metadata_user_id := metadata_user_id c;
                     destroyed := destroyed c; write_throws := write_throws c;
                     userId := Some u;
                     currentRooms :=
                       foldl (λ cur roomId, JsSet.add roomId cur)
                             (currentRooms c) userRoomsSet |} in
        Some (c', set_calls (<[h := c']> (calls s))
                    (set_userStreams (<[u := h]> (userStreams s)) s))
    end
  end.

(** [call.on('data', message => ...)] on the stream with handle [h]. *)
Definition on_data (h : nat) (uuid : string) (now : Z) (message : Message)
    (s : ChatService) : ChatService :=
  match calls s !! h with
  | None => s
  | Some c =>
    match bind_user h c message s with
    | None => set_destroyed h s
    | Some (c, s) =>
      match type message with
      | TEXT | IMAGE | FILE =>
        match handleChatMessage uuid now message (currentRooms c) s with
        | inl error => set_destroyed h s
        | inr s' => s'
        end
      | TYPING => handleTypingIndicator message (currentRooms c) s
      | SYSTEM => handleSystemMessage uuid now message (currentRooms c) s
      end
    end
  end.

(** [call.on('end' | 'error' | 'cancelled', ...)]: what the three
    listeners do, also for the 'error' that a [call.destroy(error)] of the
    ['data'] listener sets off. *)
Definition on_close (h : nat) (uuid : nat → string) (now : nat → Z)
    (s : ChatService) : ChatService :=
  match calls s !! h with
  | None => s
  | Some c => handleUserDisconnect uuid now (userId c) (currentRooms c) s
  end.

(** *** The unary calls

    Each takes the fields of [call.request] and returns what it passes to
    [callback(null, ...)] with the service after the call. *)

Record JoinRoomResponse := mkJoinRoomResponse {
  join_success : bool;
  join_message : string;
  participants : list string
}.

Record LeaveRoomResponse := mkLeaveRoomResponse {
  leave_success : bool;
  leave_message : string
}.

Record HistoryResponse := mkHistoryResponse {
  messages : list Message;
  has_more : bool
}.

Definition joinMessage (uuid : string) (now : Z) (room_id user_id username : string)
    : Message :=
  {| id := uuid; room_id := room_id; user_id := user_id;
     username := Some username;
     content := username +:+ " joined the room"; type := SYSTEM;
     timestamp := now; metadata := None |}.

Definition joinRoom (uuid : string) (now : Z) (room_id user_id username : string)
    (s : ChatService) : JoinRoomResponse * ChatService :=
  (* Add user to room *)
  let s := set_rooms (<[room_id := JsSet.add user_id (members room_id s)]> (rooms s)) s in
  (* Track user's rooms *)
  let s := set_userRooms
             (<[user_id := JsSet.add room_id (default [] (userRooms s !! user_id))]>
                (userRooms s)) s in
  (* Update presence *)
  let s := set_userPresence (<[user_id := "ONLINE"%string]> (userPresence s)) s in
  (* Get current participants *)
  let participants := members room_id s in
  (* Send join notification *)
  let s := broadcastToRoom room_id (joinMessage uuid now room_id user_id username)
             None s in
  ({| join_success := true; join_message := "Successfully joined room";
      participants := participants |}, s).

Definition leaveRoom (uuid : string) (now : Z) (room_id user_id : string)
    (s : ChatService) : LeaveRoomResponse * ChatService :=
  (* Remove user from room; clean up empty rooms *)
  let s :=
    match rooms s !! room_id with
    | None => s
    | Some users =>
      let users := JsSet.delete user_id users in
      if bool_decide (length users = O)
      then set_rooms (delete room_id (rooms s)) s
      else set_rooms (<[room_id := users]> (rooms s)) s
    end in
  (* Remove room from user's rooms *)
  let s :=
    match userRooms s !! user_id with
    | None => s
    | Some rs => set_userRooms (<[user_id := JsSet.delete room_id rs]> (userRooms s)) s
    end in
  (* Send leave notification *)
  let s := broadcastToRoom room_id (leaveMessage uuid now room_id user_id) None s in
  ({| leave_success := true; leave_message := "Successfully left room" |}, s).

(** [(a, b) => b.timestamp - a.timestamp]. *)
Definition newest_first (a b : Message) : Z := timestamp b - timestamp a.

(** The order that comparison sorts into: no message is followed by a
    newer one. *)
Definition not_older (a b : Message) : Prop := timestamp b ≤ timestamp a.

(** [if (before_timestamp)]: [undefined], [null] and [0] are falsy. *)
Definition truthy (n : option Z) : bool :=
  match n with
  | Some v => negb (v =? 0)
  | None => false
  end.

(** [getHistory]: [limit] is [None] when the request has no such property,
    and only then does the default 50 apply.  [sort] works in place: when no
    filter made a fresh array, it is the stored history that gets
    reordered. *)
Definition getHistory (room_id : string) (limit before_timestamp : option Z)
    (s : ChatService) : HistoryResponse * ChatService :=
  let limit := default 50 limit in
  let stored := messageHistory s !! room_id in
  let all := default [] stored in
  (* Filter by timestamp if provided *)
  let considered :=
    if truthy before_timestamp
    then filter (λ msg, timestamp msg < default 0 before_timestamp) all
    else all in
  (* Sort by timestamp (newest first) and limit *)
  let sorted := JsArray.sort newest_first considered in
  let s' :=
    if truthy before_timestamp then s
    else match stored with
         | None => s
         | Some _ => set_messageHistory (<[room_id := sorted]> (messageHistory s)) s
         end in
  let page := JsArray.slice0 limit sorted in
  let hasMore := bool_decide (Z.of_nat (length page) = limit) in
  ({| messages := reverse page; has_more := hasMore |}, s').

Definition presenceMessage (uuid : string) (now : Z) (roomId user_id status : string)
    : Message :=
  {| id := uuid; room_id := roomId; user_id := user_id; username := None;
     content := "User is now " +:+ toLowerCase status; type := SYSTEM;
     timestamp := now; metadata := Some status |}.

Definition updatePresence (uuid : nat → string) (now : nat → Z)
    (user_id status : string) (s : ChatService) : bool * ChatService :=
  let s := set_userPresence (<[user_id := status]> (userPresence s)) s in
  let userRooms := default [] (userRooms s !! user_id) in
  let s :=
    forEach_indexed
      (λ s i roomId,
         broadcastToRoom roomId
           (presenceMessage (uuid i) (now i) roomId user_id status)
           (Some user_id) s)
      s userRooms in
  (true, s).

(** *** The service as a whole

    What reaches the service, one event at a time: a client opening a
    stream, the events of an open stream, and the unary calls.  Each carries
    the identifiers and clock readings that its handler draws. *)
Inductive Request :=
| Connect (h : nat) (metadata_user_id : option string) (write_throws : bool)
| Data (h : nat) (uuid : string) (now : Z) (message : Message)
| Close (h : nat) (uuid : nat → string) (now : nat → Z)
| JoinRoom (uuid : string) (now : Z) (room_id user_id username : string)
| LeaveRoom (uuid : string) (now : Z) (room_id user_id : string)
| GetHistory (room_id : string) (limit before_timestamp : option Z)
| UpdatePresence (uuid : nat → string) (now : nat → Z) (user_id status : string).

(** [chatStream(call)] itself only registers the callbacks. *)
Definition chatStream (h : nat) (metadata_user_id : option string)
    (write_throws : bool) (s : ChatService) : ChatService :=
  match calls s !! h with
  | Some _ => s
  | None =>
    set_calls (<[h := {| metadata_user_id := metadata_user_id; destroyed := false;
                         write_throws := write_throws; userId := None;
                         currentRooms := [] |}]> (calls s)) s
  end.

Definition handle (s : ChatService) (r : Request) : ChatService :=
  match r with
  | Connect h md wt => chatStream h md wt s
  | Data h uuid now message => on_data h uuid now message s
  | Close h uuid now => on_close h uuid now s
  | JoinRoom uuid now room_id user_id username =>
    (joinRoom uuid now room_id user_id username s).2
  | LeaveRoom uuid now room_id user_id => (leaveRoom uuid now room_id user_id s).2
  | GetHistory room_id limit before_timestamp =>
    (getHistory room_id limit before_timestamp s).2
  | UpdatePresence uuid now user_id status =>
    (updatePresence uuid now user_id status s).2
  end.

Definition serve (s : ChatService) (rs : list Request) : ChatService :=
  foldl handle s rs.

(** *** Properties of a service state *)

(** No stored history holds a TYPING message. *)
Definition typing_free (s : ChatService) : Prop :=
  ∀ roomId msgs, messageHistory s !! roomId = Some msgs →
    Forall (λ m, type m ≠ TYPING) msgs.

(** Every member list is a set: no user twice. *)
Definition rooms_are_sets (s : ChatService) : Prop :=
  ∀ roomId users, rooms s !! roomId = Some users → NoDup users.

(** A request that is a [joinRoom] or a [leaveRoom] of one user and room. *)
Definition join_or_leave_of (room user : string) (r : Request) : Prop :=
  match r with
  | JoinRoom _ _ room' user' _ => room' = room ∧ user' = user
  | LeaveRoom _ _ room' user' => room' = room ∧ user' = user
  | _ => False
  end.

Definition is_join (r : Request) : bool :=
  match r with JoinRoom _ _ _ _ _ => true | _ => false end.

End Chat.

(** ** error-handling.js, the rest: measures for [withRetry] and
    [CircuitBreaker], and the error transforms *)

Module Resilience.
Import ErrorHandling.

Section Measures.
Context {W V : Type}.

(** The world after [n] calls of the operation in a row. *)
Fixpoint world_after (operation : Operation W V) (n : nat) (w : W) : W :=
  match n with
  | O => w
  | S n' => (operation (world_after operation n' w)).2
  end.

(** How the call number [i], counted from 0, settles. *)
Definition outcome (operation : Operation W V) (i : nat) (w : W) : JsError + V :=
  (operation (world_after operation i w)).1.

(** [k] attempts numbered from [first], with the pauses between them. *)
Fixpoint backoff (baseDelay first : Z) (k : nat) : list RetryEvent :=
  match k with
  | O => []
  | S k' =>
    match k' with
    | O => [Attempt first]
    | S _ =>
      Attempt first :: Sleep (baseDelay * 2 ^ (first - 1))
        :: backoff baseDelay (first + 1) k'
    end
  end.

Definition pause (ev : RetryEvent) : Z :=
  match ev with
  | Sleep ms => ms
  | Attempt _ => 0
  end.

(** The time a trace spends in [setTimeout]. *)
Definition total_pause (evs : list RetryEvent) : Z := foldr (λ ev t, pause ev + t) 0 evs.

Definition is_attempt (ev : RetryEvent) : bool :=
  match ev with
  | Attempt _ => true
  | Sleep _ => false
  end.

Definition attempts (evs : list RetryEvent) : nat := length (filter is_attempt evs).

(** The counter agrees with the state: fewer failures than the threshold
    exactly while CLOSED. *)
Definition consistent (cb : CircuitBreaker) : Prop :=
  match state cb with
  | CLOSED => failures cb < failureThreshold cb
  | OPEN | HALF_OPEN => failureThreshold cb ≤ failures cb
  end.

(** One call that starts at [t] and fails with [e] at [t'], nothing in
    between. *)
Definition failed_call (c : Z * JsError * Z) : list (Event V) :=
  let '(t, e, t') := c in [Call t; Settle (inl e) t'].

Definition is_call_before (deadline : Z) (ev : Event V) : Prop :=
  match ev with
  | Call now => now < deadline
  | Settle _ _ => False
  end.

End Measures.

(** *** The error transforms *)

(** A caught value: its fields, and whether it is an instance of
    [GrpcError], which is a matter of how it was made and not of its
    fields. *)
Record Exception := mkException {
  instanceof_GrpcError : bool;
  fields : JsError
}.

(** [new GrpcError(code, message)] as a caught value. *)
Definition new_GrpcError (c : Z) (msg : string) : Exception :=
  {| instanceof_GrpcError := true; fields := GrpcError c msg |}.

(** [s.includes(sub)]. *)
Fixpoint includes (sub s : string) : bool :=
  String.prefix sub s ||
  match s with
  | EmptyString => false
  | String _ s' => includes sub s'
  end.

Definition transformToGrpcError (error : Exception) : Exception :=
  let e := fields error in
  if instanceof_GrpcError error then error
  else if String.eqb (name e) "ValidationError" then
    new_GrpcError ErrorCodes.INVALID_ARGUMENT (message e)
  else if String.eqb (name e) "NotFoundError" || includes "not found" (message e) then
    new_GrpcError ErrorCodes.NOT_FOUND (message e)
  else if String.eqb (name e) "UnauthorizedError" then
    new_GrpcError ErrorCodes.UNAUTHENTICATED (message e)
  else if String.eqb (name e) "ForbiddenError" then
    new_GrpcError ErrorCodes.PERMISSION_DENIED (message e)
  else if String.eqb (name e) "ConflictError" then
    new_GrpcError ErrorCodes.ALREADY_EXISTS (message e)
  else new_GrpcError ErrorCodes.INTERNAL "Internal server error".

(** [serverErrorInterceptor(call, callback, next)]: [next] is how the call
    [next()] ends, thrown value or normal return; the result is what
    [callback] is called with, if it is called. *)
Definition serverErrorInterceptor (next : Exception + unit) : option Exception :=
  match next with
  | inr _ => None
  | inl error => Some (transformToGrpcError error)
  end.

(** A gRPC status as the client interceptor sees it, and what
    [transformGrpcError] makes of it: the status with a [message]. *)
Record Status := mkStatus {
  status_code : Z;
  status_details : option string
}.

Record TransformedStatus := mkTransformedStatus {
  transformed_code : Z;
  transformed_details : option string;
  transformed_message : string
}.

(** [errorMap[status.code]]. *)
Definition errorMap (c : Z) : option string :=
  if c =? ErrorCodes.INVALID_ARGUMENT then Some "Bad Request"%string
  else if c =? ErrorCodes.NOT_FOUND then Some "Resource Not Found"%string
  else if c =? ErrorCodes.UNAUTHENTICATED then Some "Authentication Required"%string
  else if c =? ErrorCodes.PERMISSION_DENIED then Some "Access Denied"%string
  else if c =? ErrorCodes.ALREADY_EXISTS then Some "Resource Already Exists"%string
  else if c =? ErrorCodes.UNAVAILABLE then Some "Service Unavailable"%string
  else if c =? ErrorCodes.INTERNAL then Some "Internal Server Error"%string
  else None.

(** [a || b] on strings: [undefined] and the empty string are falsy. *)
Definition str_or (a : option string) (b : string) : string :=
  match a with
  | Some v => if String.eqb v "" then b else v
  | None => b
  end.

Definition transformGrpcError (status : Status) : TransformedStatus :=
  {| transformed_code := status_code status;
     transformed_details := status_details status;
     transformed_message :=
       str_or (errorMap (status_code status))
         (str_or (status_details status) "Unknown Error") |}.

(** The error that reaches the Express handler: [code] when it is a
    number, [message], [status], [statusCode]. *)
Record ExpressError := mkExpressError {
  err_code : option Z;
  err_message : option string;
  err_status : option Z;
  err_statusCode : option Z
}.

(** What the handler answers: [res.status(...)] and the JSON body. *)
Record ExpressResponse := mkExpressResponse {
  res_status : Z;
  res_error : string;
  res_code : option Z
}.

(** [httpStatusMap[err.code]]. *)
Definition httpStatusMap (c : Z) : option Z :=
  if c =? ErrorCodes.INVALID_ARGUMENT then Some 400
  else if c =? ErrorCodes.UNAUTHENTICATED then Some 401
  else if c =? ErrorCodes.PERMISSION_DENIED then Some 403
  else if c =? ErrorCodes.NOT_FOUND then Some 404
  else if c =? ErrorCodes.ALREADY_EXISTS then Some 409
  else if c =? ErrorCodes.UNAVAILABLE then Some 503
  else if c =? ErrorCodes.INTERNAL then Some 500
  else None.

(** [expressErrorHandler(err, req, res, next)].  The test
    [err.code && typeof err.code === 'number'] fails for the code 0. *)
Definition expressErrorHandler (err : ExpressError) : ExpressResponse :=
  match err_code err with
  | Some c =>
    if c =? 0 then
      {| res_status := num_or (err_status err) (num_or (err_statusCode err) 500);
         res_error := str_or (err_message err) "Internal Server Error";
         res_code := None |}
    else
      {| res_status := num_or (httpStatusMap c) 500;
         res_error := str_or (err_message err) "An error occurred";
         res_code := Some c |}
  | None =>
    {| res_status := num_or (err_status err) (num_or (err_statusCode err) 500);
       res_error := str_or (err_message err) "Internal Server Error";
       res_code := None |}
  end.

End Resilience.

(** ** load-balancer.js, the rest: health status, the balanced client, the
    service registry *)

Module Balancing.
Import ErrorHandling LoadBalancing.

(** *** LoadBalancer.getHealthStatus *)

Record EndpointStatus := mkEndpointStatus {
  status_endpoint : string;
  status_healthy : bool;
  status_lastCheck : option HealthCheck
}.

Record HealthStatus := mkHealthStatus {
  total : nat;
  healthy : nat;
  statuses : list EndpointStatus
}.

Definition getHealthStatus (lb : LoadBalancer) : HealthStatus :=
  {| total := length (endpoints lb);
     healthy := length (healthyEndpoints lb);
     statuses :=
       (λ endpoint,
          {| status_endpoint := endpoint;
             status_healthy := JsSet.has endpoint (healthyEndpoints lb);
             status_lastCheck := lastHealthCheck lb !! endpoint |})
         <$> endpoints lb |}.

(** What happens to a balancer over its life: calls of [getEndpoint], the
    probes of the health-check timer settling, which are probes of its own
    endpoints, and calls of [markUnhealthy], with any argument. *)
Inductive Use :=
| GetEndpoint
| CheckHealth (endpoint : string) (probe : option string) (now : Z)
| MarkUnhealthy (endpoint : string).

Definition use (rand : nat → nat → nat) (lb : LoadBalancer) (u : Use)
    : LoadBalancer :=
  match u with
  | GetEndpoint => (getEndpoint rand lb).2
  | CheckHealth endpoint probe now => checkHealth endpoint probe now lb
  | MarkUnhealthy endpoint => markUnhealthy endpoint lb
  end.

(** A probe is of one of the balancer's own endpoints. *)
Definition own_probe (lb : LoadBalancer) (u : Use) : Prop :=
  match u with
  | CheckHealth endpoint _ _ => endpoint ∈ endpoints lb
  | _ => True
  end.

(** *** LoadBalancedGrpcClient *)

Record ClientOptions := mkClientOptions {
  opt_strategy : option string;
  opt_maxRetries : option Z
}.

Record LoadBalancedGrpcClient := mkLoadBalancedGrpcClient {
  loadBalancer : LoadBalancer;
  clients : list string;        (* the endpoints that have a client object *)
  maxRetries : Z
}.

(** [constructor(serviceDefinition, endpoints, options = {})]. *)
Definition new_LoadBalancedGrpcClient (endpoints : list string)
    (options : ClientOptions) : LoadBalancedGrpcClient :=
  {| loadBalancer := new_LoadBalancer endpoints (opt_strategy options);
     clients := [];
     maxRetries := num_or (opt_maxRetries options) 3 |}.

(** How a [call] ends: its promise resolves, or rejects with a thrown
    value, which is [undefined] when the loop never ran. *)
Inductive CallResult (V : Type) :=
| Resolved (v : V)
| RejectedWith (e : JsError)
| RejectedUndefined.
Global Arguments Resolved {V} v.
Global Arguments RejectedWith {V} e.
Global Arguments RejectedUndefined {V}.

(** In [call], [endpoint] is declared inside the [try] block.  The [catch]
    block that names it, in [markUnhealthy(endpoint)], is outside its scope,
    and no other [endpoint] is declared: reaching that statement throws this
    ReferenceError out of the [catch] block and so out of [call]. *)
Definition endpoint_is_not_defined : JsError :=
  {| name := "ReferenceError"; code := None;
     message := "endpoint is not defined"; details := None |}.

Definition client_error (error : JsError) : bool :=
  bool_decide (code error = Some ErrorCodes.INVALID_ARGUMENT)
  || bool_decide (code error = Some ErrorCodes.UNAUTHENTICATED)
  || bool_decide (code error = Some ErrorCodes.PERMISSION_DENIED).

Section Call.
Context {W V : Type}.

(** [rpc endpoint] stands for the request made on the client of that
    endpoint and the settling of its promise. *)
Context (rpc : option string → Operation W V).

(** [getClient(endpoint)]. *)
Definition getClient (endpoint : option string) (c : LoadBalancedGrpcClient)
    : LoadBalancedGrpcClient :=
  match endpoint with
  | None => c
  | Some e =>
    {| loadBalancer := loadBalancer c; clients := JsSet.add e (clients c);
       maxRetries := maxRetries c |}
  end.

Definition set_loadBalancer (lb : LoadBalancer) (c : LoadBalancedGrpcClient)
    : LoadBalancedGrpcClient :=
  {| loadBalancer := lb; clients := clients c; maxRetries := maxRetries c |}.

(** The [for] loop of [call] with [left] rounds to go; [lastError] is
    [None] while it is [undefined].  The result comes with the endpoints the
    request was made on, in order. *)
Fixpoint call_from (rand : nat → nat → nat) (left : nat)
    (lastError : option JsError) (c : LoadBalancedGrpcClient) (w : W)
    : CallResult V * LoadBalancedGrpcClient * W * list (option string) :=
  match left with
  | O =>
    (match lastError with
     | Some e => RejectedWith e
     | None => RejectedUndefined
     end, c, w, [])
  | S left' =>
    let '(picked, lb) := getEndpoint rand (loadBalancer c) in
    let c := set_loadBalancer lb c in
    match picked with
    | inl error =>
      (* getEndpoint threw: caught like any failure of the request *)
      if bool_decide (code error = Some ErrorCodes.UNAVAILABLE)
      then (RejectedWith endpoint_is_not_defined, c, w, [])
      else if client_error error then (RejectedWith error, c, w, [])
      else call_from rand left' (Some error) c w
    | inr endpoint =>
      let c := getClient endpoint c in
      match rpc endpoint w with
      | (inr response, w') => (Resolved response, c, w', [endpoint])
      | (inl error, w') =>
        if bool_decide (code error = Some ErrorCodes.UNAVAILABLE)
        then (RejectedWith endpoint_is_not_defined, c, w', [endpoint])
        else if client_error error then (RejectedWith error, c, w', [endpoint])
        else
          let '(r, c', w'', tried) := call_from rand left' (Some error) c w' in
          (r, c', w'', endpoint :: tried)
      end
    end
  end.

(** [async call(method, request, metadata = {})]. *)
Definition call (rand : nat → nat → nat) (c : LoadBalancedGrpcClient) (w : W)
    : CallResult V * LoadBalancedGrpcClient * W * list (option string) :=
  call_from rand (Z.to_nat (maxRetries c)) None c w.

End Call.

(** *** ServiceRegistry *)

Record ServiceEntry := mkServiceEntry {
  endpoint : string;
  metadata : list (string * string);
  lastSeen : Z
}.

(** [this.services], a Map from service name to an array of entries. *)
Record ServiceRegistry := mkServiceRegistry {
  services : gmap string (list ServiceEntry)
}.

Definition new_ServiceRegistry : ServiceRegistry := {| services := ∅ |}.

(** [register(serviceName, endpoint, metadata = {})] at time [now]: an
    entry for the endpoint is overwritten where it stands, else the new
    entry goes to the end. *)
Definition register (serviceName endpoint : string)
    (metadata : option (list (string * string))) (now : Z)
    (reg : ServiceRegistry) : ServiceRegistry :=
  let serviceEndpoints := default [] (services reg !! serviceName) in
  let entry := {| endpoint := endpoint; metadata := default [] metadata;
                  lastSeen := now |} in
  let updated :=
    match list_find (λ s, Balancing.endpoint s = endpoint) serviceEndpoints with
    | Some (existingIndex, _) => <[existingIndex := entry]> serviceEndpoints
    | None => serviceEndpoints ++ [entry]
    end in
  {| services := <[serviceName := updated]> (services reg) |}.

Definition unregister (serviceName endpoint : string) (reg : ServiceRegistry)
    : ServiceRegistry :=
  match services reg !! serviceName with
  | None => reg
  | Some serviceEndpoints =>
    {| services :=
         <[serviceName := filter (λ s, Balancing.endpoint s ≠ endpoint)
                            serviceEndpoints]> (services reg) |}
  end.

Definition getService (serviceName : string) (reg : ServiceRegistry)
    : list ServiceEntry :=
  default [] (services reg !! serviceName).

Definition getEndpoints (serviceName : string) (reg : ServiceRegistry)
    : list string :=
  Balancing.endpoint <$> getService serviceName reg.

(** [cleanup(maxAge = 300000)] at time [now]. *)
Definition cleanup (maxAge : option Z) (now : Z) (reg : ServiceRegistry)
    : ServiceRegistry :=
  let maxAge := default 300000 maxAge in
  {| services := filter (λ s, now - lastSeen s < maxAge) <$> services reg |}.

Inductive RegistryCall :=
| Register (serviceName endpoint : string)
    (metadata : option (list (string * string))) (now : Z)
| Unregister (serviceName endpoint : string)
| Cleanup (maxAge : option Z) (now : Z).

Definition registry_call (reg : ServiceRegistry) (c : RegistryCall)
    : ServiceRegistry :=
  match c with
  | Register serviceName endpoint metadata now =>
    register serviceName endpoint metadata now reg
  | Unregister serviceName endpoint => unregister serviceName endpoint reg
  | Cleanup maxAge now => cleanup maxAge now reg
  end.

(** No service lists an endpoint twice. *)
Definition endpoints_unique (reg : ServiceRegistry) : Prop :=
  ∀ serviceName, NoDup (getEndpoints serviceName reg).

End Balancing.

(** ** The chat service, the rest: what holds of its state *)

Module ChatState.
Import Chat.

(** The two indexes of membership say the same: a user is among a room's
    members exactly if the room is among the user's rooms. *)
Definition indexes_agree (s : ChatService) : Prop :=
  ∀ roomId userId,
    userId ∈ members roomId s ↔ roomId ∈ default [] (userRooms s !! userId).

(** A write to this user's stream would be tried and would throw. *)
Definition write_fails (s : ChatService) (userId : string) : bool :=
  match live_stream s userId with
  | Some (_, c) => write_throws c
  | None => false
  end.

(** A message of one of the three content types. *)
Definition is_content (t : MessageType) : bool :=
  match t with
  | TEXT | IMAGE | FILE => true
  | TYPING | SYSTEM => false
  end.

(** What stays of a stream object once it is bound: everything but the
    [destroyed] flag, which can only be raised. *)
Definition same_binding (c c' : Call) : Prop :=
  userId c' = userId c ∧ currentRooms c' = currentRooms c ∧
  metadata_user_id c' = metadata_user_id c ∧
  write_throws c' = write_throws c ∧
  (destroyed c = true → destroyed c' = true).

End ChatState.
(** ** Sample inputs: error-handling.js *)

(** An operation that always fails as unavailable and counts its calls. *)
Definition always_unavailable : ErrorHandling.Operation nat unit :=
  λ calls, (inl (ErrorHandling.GrpcError ErrorCodes.UNAVAILABLE
                   "Service temporarily unavailable"), S calls).

(** An operation that always fails with INVALID_ARGUMENT, and one that is
    out of resources, then times out, then fails with NOT_FOUND. *)
Definition always_invalid : ErrorHandling.Operation nat unit :=
  λ calls, (inl (ErrorHandling.GrpcError ErrorCodes.INVALID_ARGUMENT
                   "Invalid email format"), S calls).

Definition busy_then_late : ErrorHandling.Operation nat unit :=
  λ calls,
    (inl (match calls with
          | O => ErrorHandling.GrpcError ErrorCodes.RESOURCE_EXHAUSTED "Too many requests"
          | S O => ErrorHandling.GrpcError ErrorCodes.DEADLINE_EXCEEDED "Deadline exceeded"
          | _ => ErrorHandling.GrpcError ErrorCodes.NOT_FOUND "User not found"
          end), S calls).

(** A breaker as [new CircuitBreaker({failureThreshold: 2, resetTimeout: 5000})]
    makes it at time 0. *)
Definition breaker_2_5000 : ErrorHandling.CircuitBreaker :=
  ErrorHandling.new_CircuitBreaker
    {| ErrorHandling.opt_failureThreshold := Some 2;
       ErrorHandling.opt_resetTimeout := Some 5000 |} 0.

Definition service_error : ErrorHandling.JsError := ErrorHandling.Error "Service error".

(** Two calls, at 10 and at 11, each failing a millisecond later, before
    anything else happens; and the breaker they leave behind. *)
Definition two_failures : list (ErrorHandling.Event string) :=
  [ErrorHandling.Call 10; ErrorHandling.Settle (inl service_error) 11;
   ErrorHandling.Call 11; ErrorHandling.Settle (inl service_error) 12].

Definition tripped_at_12 : ErrorHandling.CircuitBreaker :=
  ErrorHandling.breaker
    (ErrorHandling.run (ErrorHandling.start breaker_2_5000) two_failures).

(** The same two failures while a slow operation, invoked at 5, is still
    awaited. *)
Definition two_failures_during_a_slow_call : list (ErrorHandling.Event string) :=
  ErrorHandling.Call 5 :: two_failures.

(** A breaker tripped at time 0 whose [nextAttempt] has passed at time 10, and
    two calls arriving at 10 and 11 before either operation has settled. *)
Definition overdue_breaker : ErrorHandling.CircuitBreaker :=
  {| ErrorHandling.failureThreshold := 2; ErrorHandling.resetTimeout := 5;
     ErrorHandling.state := ErrorHandling.OPEN; ErrorHandling.failures := 2;
     ErrorHandling.nextAttempt := 5 |}.


(** ** Sample inputs: chat-service *)

Definition from_client (user room text : string) (type : Chat.MessageType)
    : Chat.Message :=
  {| Chat.id := ""; Chat.room_id := room; Chat.user_id := user;
     Chat.username := Some user; Chat.content := text; Chat.type := type;
     Chat.timestamp := 0; Chat.metadata := None |}.

(** The walk of the sample client: open a stream, join a room, send two
    messages. *)
Definition alice_session : list Chat.Request :=
  [Chat.Connect 1 (Some "alice"%string) false;
   Chat.JoinRoom "id-1" 1700000000000 "general" "alice" "Alice";
   Chat.Data 1 "id-2" 1700000000100
     (from_client "alice" "general" "Hello, everyone!" Chat.TEXT);
   Chat.Data 1 "id-3" 1700000000200
     (from_client "alice" "general" "How is everyone doing?" Chat.TEXT)].

Definition hello : Chat.Message :=
  Chat.stamp "id-2" 1700000000100
    (from_client "alice" "general" "Hello, everyone!" Chat.TEXT).

Definition how_are_you : Chat.Message :=
  Chat.stamp "id-3" 1700000000200
    (from_client "alice" "general" "How is everyone doing?" Chat.TEXT).

(** Bob is in the room with a bound stream; Alice's stream is bound before
    she joins. *)
Definition alice_joins_late : list Chat.Request :=
  [Chat.Connect 1 None false; Chat.Connect 2 None false;
   Chat.JoinRoom "id-1" 1700000000000 "general" "bob" "Bob";
   Chat.Data 2 "id-2" 1700000000100 (from_client "bob" "general" "" Chat.TYPING);
   Chat.Data 1 "id-3" 1700000000200 (from_client "alice" "lobby" "" Chat.TYPING);
   Chat.JoinRoom "id-4" 1700000000300 "general" "alice" "Alice"].

(** Both are in the room with bound streams; then Alice leaves it. *)
Definition alice_has_left : list Chat.Request :=
  [Chat.Connect 1 None false; Chat.Connect 2 None false;
   Chat.JoinRoom "id-1" 1700000000000 "general" "alice" "Alice";
   Chat.JoinRoom "id-2" 1700000000100 "general" "bob" "Bob";
   Chat.Data 1 "id-3" 1700000000200 (from_client "alice" "general" "" Chat.TYPING);
   Chat.Data 2 "id-4" 1700000000300 (from_client "bob" "general" "" Chat.TYPING);
   Chat.LeaveRoom "id-5" 1700000000400 "general" "alice"].

Definition alice_typing : Chat.Message :=
  from_client "alice" "general" "" Chat.TYPING.

(** Alice is in the room with a bound stream when Bob joins. *)
Definition bob_joins : list Chat.Request :=
  [Chat.Connect 1 None false;
   Chat.JoinRoom "id-1" 1700000000000 "general" "alice" "Alice";
   Chat.Data 1 "id-2" 1700000000100 alice_typing;
   Chat.JoinRoom "id-3" 1700000000200 "general" "bob" "Bob"].

Definition alice_stream : Chat.Call :=
  {| Chat.metadata_user_id := None; Chat.destroyed := false;
     Chat.write_throws := false; Chat.userId := Some "alice"%string;
     Chat.currentRooms := ["general"%string] |}.

(** ** Sample inputs: the error transforms *)

(** A validation failure thrown by a handler; not a [GrpcError]. *)
Definition missing_email : Resilience.Exception :=
  {| Resilience.instanceof_GrpcError := false;
     Resilience.fields :=
       {| ErrorHandling.name := "ValidationError"; ErrorHandling.code := None;
          ErrorHandling.message := "Email is required";
          ErrorHandling.details := None |} |}.

(** A NOT_FOUND from a downstream service, and an error of Express's own. *)
Definition downstream_not_found : Resilience.ExpressError :=
  {| Resilience.err_code := Some 5;
     Resilience.err_message := Some "User not found"%string;
     Resilience.err_status := None; Resilience.err_statusCode := None |}.

Definition payload_too_large : Resilience.ExpressError :=
  {| Resilience.err_code := None;
     Resilience.err_message := Some "Payload too large"%string;
     Resilience.err_status := Some 413; Resilience.err_statusCode := None |}.

(** A breaker that tripped at 12 while one more operation was in flight. *)
Definition tripped_with_one_in_flight : ErrorHandling.Run :=
  {| ErrorHandling.breaker := tripped_at_12; ErrorHandling.in_flight := 1;
     ErrorHandling.invocations := 3; ErrorHandling.rejections := 0;
     ErrorHandling.half_opens := 0 |}.

(** ** Sample inputs: load-balancer *)

Definition three_endpoints : list string :=
  ["localhost:50051"; "localhost:50052"; "localhost:50053"]%string.

(** A [Math.random] that returns 0 every time. *)
Definition always_zero : nat → nat → nat := λ _ _, O.

Definition round_robin_balancer : LoadBalancing.LoadBalancer :=
  LoadBalancing.new_LoadBalancer three_endpoints (Some "round-robin"%string).

Definition default_client : Balancing.LoadBalancedGrpcClient :=
  Balancing.new_LoadBalancedGrpcClient three_endpoints
    {| Balancing.opt_strategy := None; Balancing.opt_maxRetries := None |}.

(** A client whose endpoints have all been marked unhealthy. *)
Definition stranded_client : Balancing.LoadBalancedGrpcClient :=
  Balancing.set_loadBalancer
    (LoadBalancing.markUnhealthy "localhost:50051"
       (LoadBalancing.markUnhealthy "localhost:50052"
          (LoadBalancing.markUnhealthy "localhost:50053" round_robin_balancer)))
    default_client.

(** Requests that fail on every endpoint, with UNAVAILABLE, with
    UNAUTHENTICATED and with DEADLINE_EXCEEDED; the world counts the
    requests made. *)
Definition rpc_unavailable : option string → ErrorHandling.Operation nat string :=
  λ _ n, (inl (ErrorHandling.GrpcError ErrorCodes.UNAVAILABLE "Connection refused"),
          S n).

Definition rpc_unauthenticated : option string → ErrorHandling.Operation nat string :=
  λ _ n, (inl (ErrorHandling.GrpcError ErrorCodes.UNAUTHENTICATED
                 "Invalid or expired token"), S n).


(** A registry with one service at two endpoints, registered at 0 and at
    1000. *)
Definition two_user_services : Balancing.ServiceRegistry :=
  Balancing.register "user-service" "localhost:50052" None 1000
    (Balancing.register "user-service" "localhost:50051" None 0
       Balancing.new_ServiceRegistry).

(** ** Sample inputs: chat-service, streams *)

(** A stream as [chatStream] registers it, without a user id in the
    metadata, and Alice's stream of [alice_session] once bound. *)
Definition fresh_stream : Chat.Call :=
  {| Chat.metadata_user_id := None; Chat.destroyed := false;
     Chat.write_throws := false; Chat.userId := None;
     Chat.currentRooms := [] |}.

Definition alice_call : Chat.Call :=
  {| Chat.metadata_user_id := Some "alice"%string; Chat.destroyed := false;
     Chat.write_throws := false; Chat.userId := Some "alice"%string;
     Chat.currentRooms := ["general"%string] |}.

(** Alice has joined the room; her stream is open and has sent nothing. *)
Definition alice_before_first_message : list Chat.Request :=
  [Chat.Connect 1 None false;
   Chat.JoinRoom "id-1" 1700000000000 "general" "alice" "Alice"].

Definition good_morning : Chat.Message :=
  from_client "alice" "general" "Good morning" Chat.TEXT.

Definition wrong_room : Chat.Message :=
  from_client "alice" "lobby" "Anyone here?" Chat.TEXT.

Definition anonymous : Chat.Message :=
  from_client "" "general" "Hi" Chat.TEXT.
(* ===================================================================== *)
(** * Part II.  Properties                                                *)
(* ===================================================================== *)

(** ** withRetry *)

Module RetryFacts.
Import ErrorHandling.

Section Facts.
Context {W V : Type}.
Implicit Types (operation : Operation W V) (w : W) (evs : list RetryEvent).

Lemma transient_codes (e : JsError) :
  transient e = true ↔
  code e = Some 14 ∨ code e = Some 4 ∨ code e = Some 8.
Proof.
  unfold transient, ErrorCodes.UNAVAILABLE, ErrorCodes.DEADLINE_EXCEEDED,
    ErrorCodes.RESOURCE_EXHAUSTED.
  rewrite !orb_true_iff, !bool_decide_eq_true. tauto.
Qed.

(** While the loop counter and the iterations left agree, every pause in
    the trace is followed by the attempt it delays, and its length is
    fixed by that attempt's number. *)
Lemma withRetry_from_pauses operation (m b : Z) (left : nat) :
  ∀ (a : Z) w c w' evs,
    Z.of_nat left = m - a + 1 → 1 ≤ a →
    withRetry_from operation m b left a w = (c, w', evs) →
    (left ≠ O → evs !! O = Some (Attempt a)) ∧
    ∀ (i : nat) d, evs !! i = Some (Sleep d) →
      ∃ n, evs !! S i = Some (Attempt n) ∧ a < n ≤ m ∧ d = b * 2 ^ (n - 2).
Proof.
  induction left as [|left IH]; intros a w c w' evs Hleft Ha Hrun; simpl in Hrun.
  - inversion Hrun; subst. split; [done|]. intros i d Hi. by rewrite lookup_nil in Hi.
  - destruct (operation w) as [[error|v] w1].
    + destruct (Z.eqb_spec a m) as [->|Hne].
      { inversion Hrun; subst. split; [done|].
        intros [|[|i]] d Hi; simpl in Hi; congruence. }
      destruct (transient error).
      * destruct (withRetry_from operation m b left (a + 1) w1)
          as [[c1 w2] evs1] eqn:Hrec.
        inversion Hrun; subst; clear Hrun.
        assert (left ≠ O) as Hleft' by lia.
        destruct (IH (a + 1) w1 c w' evs1) as [Hhd Hps]; [lia|lia|done|].
        split; [done|].
        intros [|[|i]] d Hi; simpl in Hi.
        -- congruence.
        -- inversion Hi; subst. exists (a + 1). simpl.
           split; [by apply Hhd|]. split; [lia|].
           by replace (a + 1 - 2) with (a - 1) by lia.
        -- destruct (Hps i d Hi) as (n & Hn & Hr & Hd).
           exists n. simpl. split; [done|]. split; [lia|done].
      * inversion Hrun; subst. split; [done|].
        intros [|[|i]] d Hi; simpl in Hi; congruence.
    + inversion Hrun; subst. split; [done|].
      intros [|[|i]] d Hi; simpl in Hi; congruence.
Qed.

(** An attempt is made only as long as the operation keeps failing
    transiently: the trace never holds more attempts than [maxRetries]. *)
Lemma withRetry_from_length operation (m b : Z) (left : nat) :
  ∀ (a : Z) w c w' evs,
    withRetry_from operation m b left a w = (c, w', evs) →
    (length evs ≤ 2 * left)%nat.
Proof.
  induction left as [|left IH]; intros a w c w' evs Hrun; simpl in Hrun.
  - inversion Hrun; subst. simpl. lia.
  - destruct (operation w) as [[error|v] w1].
    + destruct (a =? m).
      { inversion Hrun; subst. simpl. lia. }
      destruct (transient error).
      * destruct (withRetry_from operation m b left (a + 1) w1)
          as [[c1 w2] evs1] eqn:Hrec.
        inversion Hrun; subst. apply IH in Hrec. simpl. lia.
      * inversion Hrun; subst. simpl. lia.
    + inversion Hrun; subst. simpl. lia.
Qed.

(** The test of the retry branch holds of exactly three codes. *)
Lemma transient_decides (e : JsError) :
  bool_decide (code e = Some 14 ∨ code e = Some 4 ∨ code e = Some 8)
  = transient e.
Proof.
  destruct (transient e) eqn:He.
  - by apply bool_decide_eq_true_2, transient_codes.
  - apply bool_decide_eq_false_2. rewrite <- transient_codes. congruence.
Qed.

(** C4.  [withRetry(operation, 3, 1000)], and [withRetry(operation)], which
    is the same: a failure is retried only when its code is 14
    (UNAVAILABLE), 4 (DEADLINE_EXCEEDED) or 8 (RESOURCE_EXHAUSTED); a
    failure with any other code, or with none, is thrown at once; the pause
    before attempt [n >= 2] is [baseDelay * 2^(n-2)], 1000 ms before the
    second attempt and 2000 ms before the third; and the failure of the
    third attempt is thrown as it is, whatever its code.  The first conjunct
    gives the pause for every [maxRetries] and [baseDelay], the second the
    whole behaviour for 3 and 1000, the third the defaults. *)
Theorem withRetry_backoff_and_propagation operation w :
  (∀ (m b : Z) c w' evs (i : nat) d,
      withRetry operation (Some m) (Some b) w = (c, w', evs) →
      evs !! i = Some (Sleep d) →
      ∃ n, evs !! S i = Some (Attempt n) ∧ 2 ≤ n ≤ m ∧ d = b * 2 ^ (n - 2)) ∧
  (let r := withRetry operation (Some 3) (Some 1000) w in
   let retried (e : JsError) : bool :=
     bool_decide (code e = Some 14 ∨ code e = Some 4 ∨ code e = Some 8) in
   match operation w with
   | (inr v, w1) => r = (Returned v, w1, [Attempt 1])
   | (inl e1, w1) =>
     if retried e1 then
       match operation w1 with
       | (inr v, w2) =>
         r = (Returned v, w2, [Attempt 1; Sleep 1000; Attempt 2])
       | (inl e2, w2) =>
         if retried e2 then
           match operation w2 with
           | (inr v, w3) =>
             r = (Returned v, w3,
                  [Attempt 1; Sleep 1000; Attempt 2; Sleep 2000; Attempt 3])
           | (inl e3, w3) =>
             r = (Thrown e3, w3,
                  [Attempt 1; Sleep 1000; Attempt 2; Sleep 2000; Attempt 3])
           end
         else r = (Thrown e2, w2, [Attempt 1; Sleep 1000; Attempt 2])
       end
     else r = (Thrown e1, w1, [Attempt 1])
   end) ∧
  withRetry operation None None w = withRetry operation (Some 3) (Some 1000) w.
Proof.
  split; [|split; [|done]].
  - intros m b c w' evs i d Hrun Hi. unfold withRetry in Hrun. simpl in Hrun.
    destruct (Z.to_nat m) as [|k] eqn:Hk.
    { simpl in Hrun. inversion Hrun; subst. by rewrite lookup_nil in Hi. }
    destruct (withRetry_from_pauses operation m b (S k) 1 w c w' evs)
      as [_ Hps]; [lia|lia|done|].
    destruct (Hps i d Hi) as (n & Hn & Hr & Hd). exists n. repeat split; try done; lia.
  - cbv zeta. unfold withRetry. simpl.
    destruct (operation w) as [[e1|v1] w1]; [|done].
    rewrite transient_decides. destruct (transient e1); [|done].
    destruct (operation w1) as [[e2|v2] w2]; [|done].
    rewrite transient_decides. destruct (transient e2); [|done].
    by destruct (operation w2) as [[e3|v3] w3].
Qed.
End Facts.
End RetryFacts.

Lemma withRetry_backoff_and_propagation_witness :
  (ErrorHandling.withRetry always_unavailable (Some 3) (Some 1000) O
   = (ErrorHandling.Thrown (ErrorHandling.GrpcError 14 "Service temporarily unavailable"),
      3%nat,
      [ErrorHandling.Attempt 1; ErrorHandling.Sleep 1000; ErrorHandling.Attempt 2;
       ErrorHandling.Sleep 2000; ErrorHandling.Attempt 3])) ∧
  (ErrorHandling.withRetry always_invalid (Some 3) (Some 1000) O
   = (ErrorHandling.Thrown (ErrorHandling.GrpcError 3 "Invalid email format"),
      1%nat, [ErrorHandling.Attempt 1])) ∧
  (ErrorHandling.withRetry busy_then_late None None O
   = (ErrorHandling.Thrown (ErrorHandling.GrpcError 5 "User not found"),
      3%nat,
      [ErrorHandling.Attempt 1; ErrorHandling.Sleep 1000; ErrorHandling.Attempt 2;
       ErrorHandling.Sleep 2000; ErrorHandling.Attempt 3])) ∧
  ∃ n, (ErrorHandling.withRetry always_unavailable (Some 5) (Some 100) O).2 !! 8%nat
       = Some (ErrorHandling.Attempt n) ∧ 2 ≤ n ≤ 5 ∧ 800 = 100 * 2 ^ (n - 2).
Proof.
  split; [|split; [|split]].
  - exact (proj1 (proj2 (RetryFacts.withRetry_backoff_and_propagation
                           always_unavailable O))).
  - exact (proj1 (proj2 (RetryFacts.withRetry_backoff_and_propagation
                           always_invalid O))).
  - rewrite (proj2 (proj2 (RetryFacts.withRetry_backoff_and_propagation
                             busy_then_late O))).
    exact (proj1 (proj2 (RetryFacts.withRetry_backoff_and_propagation
                           busy_then_late O))).
  - exact (proj1 (RetryFacts.withRetry_backoff_and_propagation always_unavailable O)
             5 100 _ _ _ 7%nat 800 eq_refl eq_refl).
Defined.

(** ** CircuitBreaker *)

Module BreakerFacts.
Import ErrorHandling.

Section Facts.
Context {V : Type}.
Implicit Types (cb : CircuitBreaker) (r : Run).

Lemma onFailure_trips now cb :
  failureThreshold cb ≤ failures cb + 1 →
  onFailure now cb =
    set_nextAttempt (now + resetTimeout cb)
      (set_state OPEN (set_failures (failures cb + 1) cb)).
Proof.
  intros H. unfold onFailure. simpl.
  destruct (Z.leb_spec (failureThreshold cb) (failures cb + 1)); [done|lia].
Qed.

Lemma onFailure_counts now cb :
  failures cb + 1 < failureThreshold cb →
  onFailure now cb = set_failures (failures cb + 1) cb.
Proof.
  intros H. unfold onFailure. simpl.
  destruct (Z.leb_spec (failureThreshold cb) (failures cb + 1)); [lia|done].
Qed.

(** A call that finds the breaker OPEN before [nextAttempt] throws without
    calling the operation. *)
Lemma execute_open_early now cb :
  state cb = OPEN → now < nextAttempt cb →
  execute_enter now cb = Rejected circuit_open.
Proof.
  intros Hst Hlt. unfold execute_enter. rewrite Hst.
  by destruct (Z.ltb_spec now (nextAttempt cb)); [|lia].
Qed.

(** A call that finds the breaker OPEN at or after [nextAttempt] moves it to
    HALF_OPEN and calls the operation. *)
Lemma execute_open_due now cb :
  state cb = OPEN → nextAttempt cb ≤ now →
  execute_enter now cb = Invoked (set_state HALF_OPEN cb).
Proof.
  intros Hst Hge. unfold execute_enter. rewrite Hst.
  by destruct (Z.ltb_spec now (nextAttempt cb)); [lia|].
Qed.

(** A breaker that is not OPEN lets every call through as it is. *)
Lemma execute_enter_not_open now cb :
  state cb ≠ OPEN → execute_enter now cb = Invoked cb.
Proof. unfold execute_enter. by destruct (state cb). Qed.

(** A call is thrown out exactly when it finds the breaker OPEN before
    [nextAttempt]. *)
Lemma execute_enter_rejects now cb :
  (∃ e, execute_enter now cb = Rejected e)
  ↔ state cb = OPEN ∧ now < nextAttempt cb.
Proof.
  unfold execute_enter. split.
  - intros [e He]. destruct (state cb); try discriminate.
    by destruct (Z.ltb_spec now (nextAttempt cb)).
  - intros [-> Hlt]. exists circuit_open.
    by destruct (Z.ltb_spec now (nextAttempt cb)); [|lia].
Qed.

Lemma run_cons r (ev : Event V) (evs : list (Event V)) :
  run r (ev :: evs) = run (step r ev) evs.
Proof. done. Qed.

Lemma run_app r (evs evs' : list (Event V)) :
  run r (evs ++ evs') = run (run r evs) evs'.
Proof. apply foldl_app. Qed.

(** Calls that all find the breaker OPEN before [nextAttempt] are all
    thrown out and change nothing but their count. *)
Lemma run_calls_early (times : list Z) :
  ∀ r, state (breaker r) = OPEN →
    Forall (λ t, t < nextAttempt (breaker r)) times →
    run (V:=V) r (Call <$> times)
    = {| breaker := breaker r; in_flight := in_flight r;
         invocations := invocations r;
         rejections := (rejections r + length times)%nat;
         half_opens := half_opens r |}.
Proof.
  unfold run. induction times as [|t times IH]; intros r Hst Hall.
  - destruct r. simpl. by rewrite Nat.add_0_r.
  - apply Forall_cons in Hall as [Ht Hall]. rewrite fmap_cons. cbn [foldl].
    assert (step (V:=V) r (Call t)
            = {| breaker := breaker r; in_flight := in_flight r;
                 invocations := invocations r; rejections := S (rejections r);
                 half_opens := half_opens r |}) as ->.
    { unfold step. by rewrite execute_open_early. }
    rewrite IH by done. simpl. f_equal. lia.
Qed.

(** Calls that all find the breaker HALF_OPEN all go through to the
    operation and change nothing but their count. *)
Lemma run_calls_half_open (times : list Z) :
  ∀ r, state (breaker r) = HALF_OPEN →
    run (V:=V) r (Call <$> times)
    = {| breaker := breaker r;
         in_flight := (in_flight r + length times)%nat;
         invocations := (invocations r + length times)%nat;
         rejections := rejections r;
         half_opens := half_opens r |}.
Proof.
  unfold run. induction times as [|t times IH]; intros r Hst.
  - destruct r. simpl. by rewrite !Nat.add_0_r.
  - rewrite fmap_cons. cbn [foldl].
    assert (step (V:=V) r (Call t)
            = {| breaker := breaker r; in_flight := S (in_flight r);
                 invocations := S (invocations r); rejections := rejections r;
                 half_opens := half_opens r |}) as ->.
    { unfold step. rewrite execute_enter_not_open by congruence. by rewrite Hst. }
    rewrite IH by done. simpl. f_equal; lia.
Qed.

(** C2, as the code has it.  A breaker with [failureThreshold = 2] that
    starts CLOSED with no failure counted, used by calls that do not
    overlap: each operation settles before the next call is made.  Two
    failed calls in a row leave it OPEN with [nextAttempt] the clock at the
    second failure plus [resetTimeout].  From then on every call made before
    [nextAttempt] is thrown out with the circuit-open error, the operation
    not invoked and the breaker left as it was.  The first call made at or
    after [nextAttempt] moves the breaker to HALF_OPEN and invokes the
    operation; if that operation succeeds the breaker is CLOSED with
    [failures = 0], if it fails the breaker is OPEN with [nextAttempt] the
    clock at that failure plus [resetTimeout]. *)
Theorem breaker_trips_rejects_and_probes cb t1 e1 t1' t2 e2 t2' :
  failureThreshold cb = 2 → state cb = CLOSED → failures cb = 0 →
  let r2 := run (V:=V) (start cb)
              [Call t1; Settle (inl e1) t1'; Call t2; Settle (inl e2) t2'] in
  (state (breaker r2) = OPEN ∧
   nextAttempt (breaker r2) = t2' + resetTimeout cb ∧
   invocations r2 = 2%nat ∧ in_flight r2 = O) ∧
  (∀ early, Forall (λ t, t < nextAttempt (breaker r2)) early →
     let r := run (V:=V) r2 (Call <$> early) in
     (∀ t, t ∈ early → execute_enter t (breaker r2) = Rejected circuit_open) ∧
     breaker r = breaker r2 ∧ rejections r = length early ∧
     invocations r = 2%nat ∧ in_flight r = O) ∧
  (∀ early now, Forall (λ t, t < nextAttempt (breaker r2)) early →
     nextAttempt (breaker r2) ≤ now →
     let r3 := run (V:=V) r2 ((Call <$> early) ++ [Call now]) in
     (state (breaker r3) = HALF_OPEN ∧ invocations r3 = 3%nat ∧
      in_flight r3 = 1%nat) ∧
     (∀ (v : V) t, let r4 := step r3 (Settle (inr v) t) in
        state (breaker r4) = CLOSED ∧ failures (breaker r4) = 0 ∧
        in_flight r4 = O) ∧
     (∀ e t, let r4 := step (V:=V) r3 (Settle (inl e) t) in
        state (breaker r4) = OPEN ∧
        nextAttempt (breaker r4) = t + resetTimeout cb ∧
        in_flight r4 = O)).
Proof.
  intros Hth Hst Hf r2.
  assert (r2 = {| breaker := set_nextAttempt (t2' + resetTimeout cb)
                               (set_state OPEN (set_failures 2 cb));
                  in_flight := 0; invocations := 2; rejections := 0;
                  half_opens := 0 |}) as Hr2.
  { subst r2. unfold run. cbn [foldl]. unfold start, step at 4.
    cbn [breaker]. rewrite execute_enter_not_open by congruence.
    rewrite Hst. unfold step at 3. cbn [in_flight breaker execute_settle fst].
    rewrite onFailure_counts by lia. rewrite Hf. unfold step at 2.
    cbn [breaker]. rewrite execute_enter_not_open by (simpl; congruence).
    cbn [state set_failures]. rewrite Hst. unfold step.
    cbn [in_flight breaker execute_settle fst].
    rewrite onFailure_trips by (simpl; lia). done. }
  clearbody r2. subst r2. cbn [breaker in_flight invocations].
  set (cb2 := set_nextAttempt _ _).
  assert (state cb2 = OPEN) as Hopen by done.
  assert (nextAttempt cb2 = t2' + resetTimeout cb) as Hnext by done.
  split; [done|]. split.
  - intros early Hearly. cbv zeta.
    rewrite run_calls_early by done.
    cbn [breaker in_flight invocations rejections Nat.add].
    split; [|done]. intros t Ht. apply execute_open_early; [done|].
    rewrite Forall_forall in Hearly. by apply Hearly.
  - intros early now Hearly Hdue. cbv zeta.
    rewrite run_app, run_calls_early by done. cbn [run foldl step breaker].
    rewrite execute_open_due by done. rewrite Hopen.
    cbn [in_flight invocations breaker state set_state].
    split; [done|]. split.
    + intros v t. by cbn.
    + intros e t. cbn [step in_flight breaker execute_settle fst].
      rewrite onFailure_trips by (subst cb2; simpl; lia). done.
Qed.

(** C3, as the code has it.  [execute] has no guard for a trial in
    flight.  A call that finds the breaker HALF_OPEN is let through to the
    operation like a call on a CLOSED breaker, and the breaker is left as
    it was.  So after the one transition from OPEN to HALF_OPEN, made by the
    first call at or after [nextAttempt], any number of calls that arrive
    before a settlement are all invoked.  A call is rejected exactly when it
    finds the breaker OPEN before [nextAttempt]. *)
Theorem half_open_lets_every_call_through r now :
  (state (breaker r) = HALF_OPEN →
   execute_enter now (breaker r) = Invoked (breaker r) ∧
   let r' := step (V:=V) r (Call now) in
   breaker r' = breaker r ∧
   invocations r' = S (invocations r) ∧
   in_flight r' = S (in_flight r) ∧
   rejections r' = rejections r ∧
   half_opens r' = half_opens r) ∧
  (state (breaker r) = OPEN → nextAttempt (breaker r) ≤ now →
   ∀ later : list Z,
     let r' := run (V:=V) r (Call <$> now :: later) in
     state (breaker r') = HALF_OPEN ∧
     half_opens r' = S (half_opens r) ∧
     invocations r' = (invocations r + S (length later))%nat ∧
     in_flight r' = (in_flight r + S (length later))%nat ∧
     rejections r' = rejections r) ∧
  ((∃ e, execute_enter now (breaker r) = Rejected e)
   ↔ state (breaker r) = OPEN ∧ now < nextAttempt (breaker r)).
Proof.
  split; [|split].
  - intros Hst. unfold step.
    rewrite execute_enter_not_open by congruence.
    simpl. by rewrite Hst.
  - intros Hst Hdue later. cbv zeta.
    rewrite fmap_cons, run_cons.
    assert (step (V:=V) r (Call now)
            = {| breaker := set_state HALF_OPEN (breaker r);
                 in_flight := S (in_flight r);
                 invocations := S (invocations r); rejections := rejections r;
                 half_opens := S (half_opens r) |}) as ->.
    { unfold step. rewrite execute_open_due by done. by rewrite Hst. }
    rewrite run_calls_half_open by done. cbn.
    repeat split; lia.
  - apply execute_enter_rejects.
Qed.
End Facts.
End BreakerFacts.

Lemma breaker_trips_rejects_and_probes_witness :
  (ErrorHandling.state tripped_at_12 = ErrorHandling.OPEN ∧
   ErrorHandling.nextAttempt tripped_at_12 = 12 + 5000) ∧
  (let r := ErrorHandling.run
              (ErrorHandling.run (ErrorHandling.start breaker_2_5000) two_failures)
              (ErrorHandling.Call (V:=string) <$> [13; 5011]) in
   ErrorHandling.breaker r = tripped_at_12 ∧
   ErrorHandling.rejections r = 2%nat ∧ ErrorHandling.invocations r = 2%nat) ∧
  (let r3 := ErrorHandling.run
               (ErrorHandling.run (ErrorHandling.start breaker_2_5000) two_failures)
               ((ErrorHandling.Call (V:=string) <$> [13; 5011]) ++ [ErrorHandling.Call (V:=string) 5012]) in
   ErrorHandling.state (ErrorHandling.breaker r3) = ErrorHandling.HALF_OPEN ∧
   ErrorHandling.state
     (ErrorHandling.breaker
        (ErrorHandling.step r3 (ErrorHandling.Settle (inr "Success!"%string) 5013)))
   = ErrorHandling.CLOSED ∧
   ErrorHandling.nextAttempt
     (ErrorHandling.breaker
        (ErrorHandling.step (V:=string) r3 (ErrorHandling.Settle (inl service_error) 5013)))
   = 5013 + 5000).
Proof.
  pose proof (BreakerFacts.breaker_trips_rejects_and_probes (V:=string)
                breaker_2_5000 10 service_error 11 11 service_error 12
                eq_refl eq_refl eq_refl) as (Htrip & Hearly & Hdue).
  split; [|split].
  - destruct Htrip as (Hstate & Hnext & _). split; [exact Hstate | exact Hnext].
  - destruct (Hearly [13; 5011]) as (_ & Hcb & Hrej & Hinv & _).
    + repeat constructor.
    + split; [exact Hcb|]. split; [exact Hrej | exact Hinv].
  - destruct (Hdue [13; 5011] 5012) as ((Hhalf & _) & Hok & Hfail).
    + repeat constructor.
    + vm_compute. discriminate.
    + split; [exact Hhalf|]. split.
      * exact (proj1 (Hok "Success!"%string 5013)).
      * exact (proj1 (proj2 (Hfail service_error 5013))).
Defined.

(** C2, as stated, fails when calls overlap.  A slow operation is invoked
    at 5; two calls made after it fail one after the other and open the
    breaker until 5012.  When the slow operation succeeds at 20 the breaker
    closes, and a call at 21, long before [nextAttempt], is invoked and not
    thrown out.  And a trial whose failure arrives after such a success
    leaves the breaker CLOSED, not OPEN. *)
Lemma late_success_closes_the_open_breaker :
  let r2 := ErrorHandling.run (ErrorHandling.start breaker_2_5000)
              two_failures_during_a_slow_call in
  (ErrorHandling.state (ErrorHandling.breaker r2) = ErrorHandling.OPEN ∧
   ErrorHandling.nextAttempt (ErrorHandling.breaker r2) = 5012 ∧
   ErrorHandling.in_flight r2 = 1%nat) ∧
  (let r3 := ErrorHandling.step r2 (ErrorHandling.Settle (inr "Success!"%string) 20) in
   21 < ErrorHandling.nextAttempt (ErrorHandling.breaker r3) ∧
   (¬ ∃ e, ErrorHandling.execute_enter 21 (ErrorHandling.breaker r3)
           = ErrorHandling.Rejected e) ∧
   ErrorHandling.invocations (ErrorHandling.step (V:=string) r3 (ErrorHandling.Call 21))
   = S (ErrorHandling.invocations r3)) ∧
  (let r3 := ErrorHandling.step (V:=string) r2 (ErrorHandling.Call 5012) in
   let r4 := ErrorHandling.step r3 (ErrorHandling.Settle (inr "Success!"%string) 5013) in
   let r5 := ErrorHandling.step (V:=string) r4 (ErrorHandling.Settle (inl service_error) 5014) in
   ErrorHandling.state (ErrorHandling.breaker r3) = ErrorHandling.HALF_OPEN ∧
   ErrorHandling.in_flight r5 = O ∧
   ErrorHandling.state (ErrorHandling.breaker r5) ≠ ErrorHandling.OPEN).
Proof.
  split; [by vm_compute|]. split.
  - split; [by vm_compute|]. split; [|by vm_compute].
    intros [e He]. vm_compute in He. discriminate.
  - split; [by vm_compute|]. split; [by vm_compute|].
    vm_compute. discriminate.
Qed.

Lemma half_open_lets_every_call_through_witness :
  let r := ErrorHandling.run (ErrorHandling.start overdue_breaker)
             [ErrorHandling.Call (V:=unit) 10] in
  (ErrorHandling.execute_enter 11 (ErrorHandling.breaker r)
     = ErrorHandling.Invoked (ErrorHandling.breaker r) ∧
   ErrorHandling.invocations (ErrorHandling.step (V:=unit) r (ErrorHandling.Call 11))
     = 2%nat) ∧
  (let r' := ErrorHandling.run (V:=unit) (ErrorHandling.start overdue_breaker)
               (ErrorHandling.Call <$> [10; 11; 12]) in
   ErrorHandling.half_opens r' = 1%nat ∧ ErrorHandling.invocations r' = 3%nat ∧
   ErrorHandling.rejections r' = O).
Proof.
  intros r. split.
  - destruct (BreakerFacts.half_open_lets_every_call_through (V:=unit) r 11)
      as (Hhalf & _).
    destruct (Hhalf eq_refl) as (Henter & _ & Hinv & _).
    split; [exact Henter | exact Hinv].
  - destruct (BreakerFacts.half_open_lets_every_call_through (V:=unit)
                (ErrorHandling.start overdue_breaker) 10)
      as (_ & Hopen & _).
    destruct (Hopen eq_refl) with (later := [11; 12]) as (_ & Hho & Hinv & _ & Hrej).
    + vm_compute. discriminate.
    + split; [exact Hho|]. split; [exact Hinv | exact Hrej].
Defined.

(** C3, as stated, fails: after one OPEN -> HALF_OPEN transition, with the
    trial still in flight, a second call is not rejected; both operations
    run. *)
Lemma second_trial_runs_while_first_in_flight :
  let r1 := ErrorHandling.run (ErrorHandling.start overdue_breaker)
              [ErrorHandling.Call (V:=unit) 10] in
  let r2 := ErrorHandling.step (V:=unit) r1 (ErrorHandling.Call 11) in
  (ErrorHandling.state (ErrorHandling.breaker r1) = ErrorHandling.HALF_OPEN ∧
   ErrorHandling.in_flight r1 = 1%nat ∧ ErrorHandling.half_opens r1 = 1%nat) ∧
  (¬ ∃ e, ErrorHandling.execute_enter 11 (ErrorHandling.breaker r1)
          = ErrorHandling.Rejected e) ∧
  (ErrorHandling.half_opens r2 = 1%nat ∧ ErrorHandling.invocations r2 = 2%nat ∧
   ErrorHandling.in_flight r2 = 2%nat ∧ ErrorHandling.rejections r2 = 0%nat).
Proof.
  split; [by vm_compute|]. split; [|by vm_compute].
  intros [e He]. vm_compute in He. discriminate.
Qed.

(** ** JavaScript [Set] *)

Module JsSetFacts.
Section Facts.
Context {A : Type} `{EqDecision A}.
Implicit Types (x y : A) (s l : list A).

Lemma elem_of_add x y s : y ∈ JsSet.add x s ↔ y = x ∨ y ∈ s.
Proof.
  unfold JsSet.add, JsSet.has. case_bool_decide as Hx.
  - split; [by right|]. intros [->|]; done.
  - rewrite elem_of_app, list_elem_of_singleton. tauto.
Qed.

Lemma elem_of_delete x y s : y ∈ JsSet.delete x s ↔ y ≠ x ∧ y ∈ s.
Proof. unfold JsSet.delete. by rewrite list_elem_of_filter. Qed.

Lemma NoDup_add x s : NoDup s → NoDup (JsSet.add x s).
Proof.
  intros Hs. unfold JsSet.add, JsSet.has. case_bool_decide as Hx; [done|].
  apply NoDup_app. split; [done|]. split; [|apply NoDup_singleton].
  intros y Hy ->%list_elem_of_singleton. done.
Qed.

Lemma NoDup_delete x s : NoDup s → NoDup (JsSet.delete x s).
Proof. apply NoDup_filter. Qed.

Lemma add_present x s : x ∈ s → JsSet.add x s = s.
Proof. intros Hx. unfold JsSet.add, JsSet.has. by rewrite bool_decide_eq_true_2. Qed.

Lemma add_absent x s : x ∉ s → JsSet.add x s = s ++ [x].
Proof. intros Hx. unfold JsSet.add, JsSet.has. by rewrite bool_decide_eq_false_2. Qed.

Lemma delete_absent x s : x ∉ s → JsSet.delete x s = s.
Proof.
  intros Hx. unfold JsSet.delete. induction s as [|y s IH]; [done|].
  apply not_elem_of_cons in Hx as [Hne Hx].
  rewrite filter_cons_True by done. by rewrite IH.
Qed.

Lemma delete_cons_eq x s : JsSet.delete x (x :: s) = JsSet.delete x s.
Proof. unfold JsSet.delete. by rewrite filter_cons_False by naive_solver. Qed.

Lemma delete_cons_ne x y s :
  y ≠ x → JsSet.delete x (y :: s) = y :: JsSet.delete x s.
Proof. intros. unfold JsSet.delete. by rewrite filter_cons_True. Qed.

Lemma of_list_from s l :
  NoDup (s ++ l) → foldl (λ s x, JsSet.add x s) s l = s ++ l.
Proof.
  revert s. induction l as [|x l IH]; intros s Hnd; simpl.
  - by rewrite app_nil_r.
  - rewrite add_absent.
    + rewrite IH; rewrite <- app_assoc; done.
    + apply NoDup_app in Hnd as (_ & Hdisj & _). intros Hx.
      apply (Hdisj x Hx). by left.
Qed.

Lemma of_list_NoDup l : NoDup l → JsSet.of_list l = l.
Proof. intros. unfold JsSet.of_list. by rewrite of_list_from. Qed.

End Facts.
End JsSetFacts.

(** ** LoadBalancer *)

Module BalancerFacts.
Import ErrorHandling LoadBalancing.

Section Facts.
Context (rand : nat → nat → nat).
Implicit Types (lb : LoadBalancer) (n k : nat).

Lemma getEndpoint_empty lb :
  healthyEndpoints lb = [] → getEndpoint rand lb = (inl no_healthy_endpoints, lb).
Proof. intros H. unfold getEndpoint. by rewrite H. Qed.

Lemma getEndpoint_round_robin lb :
  strategy lb = "round-robin"%string → healthyEndpoints lb ≠ [] →
  getEndpoint rand lb =
    (inr (healthyEndpoints lb
            !! (currentIndex lb mod length (healthyEndpoints lb))%nat),
     set_currentIndex (S (currentIndex lb)) lb).
Proof.
  intros Hs Hne. unfold getEndpoint.
  rewrite bool_decide_eq_false_2 by (by destruct (healthyEndpoints lb)).
  by rewrite Hs.
Qed.

(** With nothing else touching the balancer, the [k]-th of [n] calls reads
    the healthy array at the cursor it started from plus [k], modulo the
    array's length. *)
Lemma getEndpoint_times_round_robin n :
  ∀ lb, strategy lb = "round-robin"%string → healthyEndpoints lb ≠ [] →
    getEndpoint_times rand n lb =
      ((λ k, inr (healthyEndpoints lb
                    !! ((currentIndex lb + k) mod length (healthyEndpoints lb))%nat))
         <$> seq 0 n,
       set_currentIndex (currentIndex lb + n) lb).
Proof.
  induction n as [|n IH]; intros lb Hs Hne; simpl.
  - rewrite Nat.add_0_r. by destruct lb.
  - rewrite getEndpoint_round_robin by done.
    rewrite IH by done. simpl. rewrite Nat.add_0_r.
    f_equal; [f_equal|].
    + rewrite <- fmap_S_seq, <- list_fmap_compose. apply list_fmap_ext.
      intros _ k _. simpl. do 3 f_equal. lia.
    + unfold set_currentIndex. simpl. f_equal. lia.
Qed.

Lemma getEndpoint_times_lookup n k lb :
  strategy lb = "round-robin"%string → healthyEndpoints lb ≠ [] → (k < n)%nat →
  (getEndpoint_times rand n lb).1 !! k =
    Some (inr (healthyEndpoints lb
                 !! ((currentIndex lb + k) mod length (healthyEndpoints lb))%nat)).
Proof.
  intros Hs Hne Hk. rewrite getEndpoint_times_round_robin by done. simpl.
  rewrite list_lookup_fmap, lookup_seq_lt by done. done.
Qed.

(** C5.  Round-robin over three distinct endpoints [a], [b], [c], all
    healthy: call number [k] (from 0) yields the element at [k mod 3] of
    [a, b, c].  After [m] such calls and [markUnhealthy(b)], the calls yield
    the element at [(m + k) mod 2] of [a, c]: only [a] and [c], in turn.
    When a health check restores [b], it is again among the endpoints
    yielded.  And [getEndpoint] throws "No healthy endpoints available" if
    and only if the healthy set is empty; otherwise it returns a member
    of it. *)
Theorem round_robin_cycles_over_healthy (a b c : string) :
  a ≠ b → a ≠ c → b ≠ c →
  let lb0 := new_LoadBalancer [a; b; c] (Some "round-robin"%string) in
  (∀ n k, (k < n)%nat →
     (getEndpoint_times rand n lb0).1 !! k
       = Some (inr ([a; b; c] !! (k mod 3)%nat))) ∧
  (∀ m n k, (k < n)%nat →
     let lb1 := markUnhealthy b (getEndpoint_times rand m lb0).2 in
     healthyEndpoints lb1 = [a; c] ∧
     (getEndpoint_times rand n lb1).1 !! k
       = Some (inr ([a; c] !! ((m + k) mod 2)%nat)) ∧
     ∀ now p j, (j < p)%nat →
       let lb2 := checkHealth b None now (getEndpoint_times rand n lb1).2 in
       healthyEndpoints lb2 = [a; c; b] ∧
       (getEndpoint_times rand p lb2).1 !! j
         = Some (inr ([a; c; b] !! ((m + n + j) mod 3)%nat))) ∧
  (∀ lb, strategy lb = "round-robin"%string →
     ((getEndpoint rand lb).1 = inl no_healthy_endpoints
        ↔ healthyEndpoints lb = []) ∧
     (healthyEndpoints lb ≠ [] →
        ∃ e, (getEndpoint rand lb).1 = inr (Some e) ∧ e ∈ healthyEndpoints lb)).
Proof.
  intros Hab Hac Hbc lb0.
  assert (healthyEndpoints lb0 = [a; b; c]) as Hh0.
  { simpl. apply JsSetFacts.of_list_NoDup.
    rewrite !NoDup_cons, !not_elem_of_cons.
    repeat split; auto using not_elem_of_nil, NoDup_nil_2. }
  assert (strategy lb0 = "round-robin"%string ∧ currentIndex lb0 = O) as [Hs0 Hi0]
    by done.
  clearbody lb0.
  split; [|split].
  - intros n k Hk. rewrite getEndpoint_times_lookup by (done || by rewrite Hh0).
    by rewrite Hh0, Hi0.
  - intros m n k Hk lb1.
    assert (healthyEndpoints lb1 = [a; c]) as Hh1.
    { subst lb1. rewrite getEndpoint_times_round_robin by (done || by rewrite Hh0).
      simpl. rewrite Hh0.
      rewrite JsSetFacts.delete_cons_ne, JsSetFacts.delete_cons_eq by done.
      rewrite JsSetFacts.delete_cons_ne by done. done. }
    assert (strategy lb1 = "round-robin"%string ∧ currentIndex lb1 = m) as [Hs1 Hi1].
    { subst lb1. rewrite getEndpoint_times_round_robin by (done || by rewrite Hh0).
      simpl. by rewrite Hi0. }
    clearbody lb1.
    split; [done|]. split.
    + rewrite getEndpoint_times_lookup by (done || by rewrite Hh1).
      by rewrite Hh1, Hi1.
    + intros now p j Hj lb2.
      assert (healthyEndpoints lb2 = [a; c; b]) as Hh2.
      { subst lb2. rewrite getEndpoint_times_round_robin by (done || by rewrite Hh1).
        simpl. rewrite Hh1.
        rewrite JsSetFacts.add_absent; [done|].
        rewrite !not_elem_of_cons. auto using not_elem_of_nil. }
      split; [done|].
      rewrite getEndpoint_times_lookup; [| |by rewrite Hh2|done].
      * rewrite Hh2. subst lb2.
        rewrite getEndpoint_times_round_robin by (done || by rewrite Hh1).
        simpl. by rewrite Hi1.
      * subst lb2.
        rewrite getEndpoint_times_round_robin by (done || by rewrite Hh1). done.
  - intros lb Hs. split.
    + split.
      * intros Hthrow. destruct (healthyEndpoints lb) as [|e h] eqn:Hh; [done|].
        rewrite getEndpoint_round_robin in Hthrow by (done || by rewrite Hh).
        discriminate.
      * intros Hh. by rewrite getEndpoint_empty.
    + intros Hne. rewrite getEndpoint_round_robin by done. simpl.
      destruct (lookup_lt_is_Some_2 (healthyEndpoints lb)
                  (currentIndex lb mod length (healthyEndpoints lb))%nat) as [e He].
      { apply Nat.mod_upper_bound. by destruct (healthyEndpoints lb). }
      exists e. rewrite He. split; [done|]. by eapply list_elem_of_lookup_2.
Qed.

End Facts.
End BalancerFacts.

Lemma round_robin_cycles_over_healthy_witness :
  let rand := λ _ _ : nat, O in
  let lb0 := LoadBalancing.new_LoadBalancer ["A"; "B"; "C"]%string
               (Some "round-robin"%string) in
  let lb1 := LoadBalancing.markUnhealthy "B"
               (LoadBalancing.getEndpoint_times rand 4 lb0).2 in
  (LoadBalancing.getEndpoint_times rand 6 lb0).1 !! 4%nat
    = Some (inr (Some "B"%string)) ∧
  (LoadBalancing.getEndpoint_times rand 4 lb1).1 !! 1%nat
    = Some (inr (Some "C"%string)) ∧
  ((LoadBalancing.getEndpoint rand (LoadBalancing.markUnhealthy "A"
      (LoadBalancing.markUnhealthy "C" lb1))).1
     = inl LoadBalancing.no_healthy_endpoints
   ↔ LoadBalancing.healthyEndpoints (LoadBalancing.markUnhealthy "A"
       (LoadBalancing.markUnhealthy "C" lb1)) = []).
Proof.
  intros rand lb0 lb1.
  destruct (BalancerFacts.round_robin_cycles_over_healthy rand "A" "B" "C")
    as (Hcycle & Hdown & Hthrow); [done..|].
  split; [|split].
  - exact (Hcycle 6%nat 4%nat ltac:(lia)).
  - exact (proj1 (proj2 (Hdown 4%nat 4%nat 1%nat ltac:(lia)))).
  - refine (proj1 (Hthrow (LoadBalancing.markUnhealthy "A"
                      (LoadBalancing.markUnhealthy "C" lb1)) _)).
    vm_compute. reflexivity.
Defined.

(** ** Arrays *)

Module JsArrayFacts.
Import Chat.

Section Sort.
Context {A : Type} (compare : A → A → Z).

Lemma sort_insert_perm x (l : list A) : JsArray.sort_insert compare x l ≡ₚ x :: l.
Proof.
  induction l as [|y l IH]; simpl; [done|].
  destruct (0 <? compare x y); [|done].
  rewrite IH. apply Permutation_swap.
Qed.

Lemma sort_perm (l : list A) : JsArray.sort compare l ≡ₚ l.
Proof.
  induction l as [|x l IH]; simpl; [done|].
  fold (JsArray.sort compare l). by rewrite sort_insert_perm, IH.
Qed.

Lemma elem_of_sort x (l : list A) : x ∈ JsArray.sort compare l ↔ x ∈ l.
Proof. by rewrite sort_perm. Qed.

Lemma length_sort (l : list A) : length (JsArray.sort compare l) = length l.
Proof. by rewrite sort_perm. Qed.

Lemma slice0_nonneg (n : Z) (l : list A) :
  0 ≤ n → JsArray.slice0 n l = take (Z.to_nat n) l.
Proof.
  intros Hn. unfold JsArray.slice0.
  destruct (Z.ltb_spec n 0); [lia|done].
Qed.

Lemma slice0_subseteq (n : Z) (l : list A) : JsArray.slice0 n l ⊆ l.
Proof. unfold JsArray.slice0. destruct (n <? 0); apply subseteq_take. Qed.

End Sort.

Global Instance not_older_trans : Transitive not_older.
Proof. unfold not_older. intros a b c ??. lia. Qed.

Global Instance flip_not_older_trans : Transitive (flip not_older).
Proof. unfold flip, not_older. intros a b c ??. lia. Qed.

Lemma sort_insert_newest_first x l :
  StronglySorted not_older l →
  StronglySorted not_older (JsArray.sort_insert newest_first x l).
Proof.
  induction 1 as [|y l Hl IH Hy]; simpl.
  - repeat constructor.
  - unfold newest_first at 1.
    destruct (Z.ltb_spec 0 (timestamp y - timestamp x)) as [Hlt|Hge].
    + constructor; [done|].
      rewrite sort_insert_perm. constructor; [|done].
      unfold not_older. lia.
    + constructor; [by constructor|].
      constructor; [unfold not_older; lia|].
      eapply Forall_impl; [done|]. unfold not_older. intros z ?. lia.
Qed.

Lemma sort_newest_first l : StronglySorted not_older (JsArray.sort newest_first l).
Proof.
  induction l as [|x l IH]; simpl; [constructor|].
  by apply sort_insert_newest_first.
Qed.

(** A page: the first [n] of a newest-first list, turned around. *)
Lemma page_oldest_first n l :
  StronglySorted not_older l →
  StronglySorted (flip not_older) (reverse (take n l)).
Proof.
  intros Hl. apply Sorted_StronglySorted; [apply _|].
  apply Sorted_reverse, StronglySorted_Sorted.
  rewrite <- (take_drop n l) in Hl. by apply StronglySorted_app_1_l in Hl.
Qed.

End JsArrayFacts.

(** ** ChatService *)

Module ChatFacts.
Import ErrorHandling Chat.

Implicit Types (s : ChatService) (message m : Message) (users : list string).

(** *** What a broadcast touches *)

Lemma same_store_refl s : same_store s s.
Proof. by repeat split. Qed.

Lemma same_store_trans s1 s2 s3 :
  same_store s1 s2 → same_store s2 s3 → same_store s1 s3.
Proof.
  unfold same_store. intros (?&?&?&?&?) (?&?&?&?&?).
  repeat split; congruence.
Qed.

Lemma broadcast_one_store message ex s u :
  same_store s (broadcast_one message ex s u).
Proof.
  unfold broadcast_one. case_bool_decide; [|apply same_store_refl].
  destruct (live_stream s u) as [[h c]|]; [|apply same_store_refl].
  destruct (write_throws c); by repeat split.
Qed.

Lemma broadcast_fold_store message ex users :
  ∀ s, same_store s (foldl (broadcast_one message ex) s users).
Proof.
  induction users as [|u users IH]; intros s; simpl; [apply same_store_refl|].
  eapply same_store_trans; [apply broadcast_one_store|apply IH].
Qed.

Lemma broadcastToRoom_store roomId message ex s :
  same_store s (broadcastToRoom roomId message ex s).
Proof. apply broadcast_fold_store. Qed.

Lemma forEach_indexed_store {A} (f : ChatService → nat → A → ChatService)
    (l : list A) :
  (∀ s i x, same_store s (f s i x)) →
  ∀ s, same_store s (forEach_indexed f s l).
Proof.
  intros Hf s. unfold forEach_indexed.
  generalize O. revert s.
  induction l as [|x l IH]; intros s i; simpl; [apply same_store_refl|].
  eapply same_store_trans; [apply (Hf s i x)|apply IH].
Qed.

(** One round of a broadcast changes what a later round finds only for the
    user it was about. *)
Lemma broadcast_one_live message ex s u v :
  v ≠ u → live_stream (broadcast_one message ex s u) v = live_stream s v.
Proof.
  intros Hne. unfold broadcast_one. case_bool_decide; [|done].
  destruct (live_stream s u) as [[h c]|]; [|done].
  destruct (write_throws c); [|done].
  unfold live_stream. simpl. by rewrite lookup_delete_ne.
Qed.

Lemma recipients_cons message ex u users s :
  recipients message ex (u :: users) s
  = recipients message ex [u] s ++ recipients message ex users s.
Proof.
  unfold recipients. change (u :: users) with ([u] ++ users). apply omap_app.
Qed.

Lemma recipients_one message ex u s :
  recipients message ex [u] s =
    if bool_decide (Some u ≠ ex) then
      match live_stream s u with
      | Some (h, c) => if write_throws c then [] else [(h, message)]
      | None => []
      end
    else [].
Proof.
  unfold recipients. simpl. case_bool_decide; [|done].
  destruct (live_stream s u) as [[h c]|]; [|done]. by destruct (write_throws c).
Qed.

Lemma recipients_ext message ex users s s' :
  (∀ v, v ∈ users → live_stream s' v = live_stream s v) →
  recipients message ex users s' = recipients message ex users s.
Proof.
  induction users as [|u users IH]; intros Hlive; [done|].
  rewrite (recipients_cons _ _ u users s), (recipients_cons _ _ u users s').
  rewrite !recipients_one.
  rewrite Hlive by left. rewrite IH; [done|].
  intros v Hv. apply Hlive. by right.
Qed.

Lemma broadcast_one_sent message ex s u :
  sent (broadcast_one message ex s u) = sent s ++ recipients message ex [u] s.
Proof.
  rewrite recipients_one. unfold broadcast_one. case_bool_decide.
  - destruct (live_stream s u) as [[h c]|]; simpl; [|by rewrite app_nil_r].
    destruct (write_throws c); simpl; [by rewrite app_nil_r|done].
  - by rewrite app_nil_r.
Qed.

(** The writes of a whole broadcast, in order. *)
Lemma broadcast_fold_sent message ex users :
  NoDup users →
  ∀ s, sent (foldl (broadcast_one message ex) s users)
       = sent s ++ recipients message ex users s.
Proof.
  induction 1 as [|u users Hu Hnd IH]; intros s; cbn [foldl].
  - by rewrite app_nil_r.
  - rewrite IH, broadcast_one_sent, <- app_assoc, (recipients_cons _ _ u users s).
    do 2 f_equal. apply recipients_ext.
    intros v Hv. apply broadcast_one_live. by intros ->.
Qed.

Lemma broadcastToRoom_sent roomId message ex s :
  NoDup (members roomId s) →
  sent (broadcastToRoom roomId message ex s)
  = sent s ++ recipients message ex (members roomId s) s.
Proof. intros. by apply broadcast_fold_sent. Qed.

(** *** joinRoom and leaveRoom *)

Lemma joinRoom_rooms uuid now room user name s :
  rooms (joinRoom uuid now room user name s).2
  = <[room := JsSet.add user (members room s)]> (rooms s).
Proof.
  unfold joinRoom. simpl.
  match goal with |- rooms (broadcastToRoom ?r ?m ?e ?s0) = _ =>
    destruct (broadcastToRoom_store r m e s0) as (-> & _) end.
  done.
Qed.

Lemma joinRoom_history uuid now room user name s :
  messageHistory (joinRoom uuid now room user name s).2 = messageHistory s.
Proof.
  unfold joinRoom. simpl.
  match goal with |- messageHistory (broadcastToRoom ?r ?m ?e ?s0) = _ =>
    destruct (broadcastToRoom_store r m e s0) as (_ & _ & -> & _) end.
  done.
Qed.

Lemma leaveRoom_rooms uuid now room user s :
  rooms (leaveRoom uuid now room user s).2 =
    match rooms s !! room with
    | None => rooms s
    | Some users =>
      if bool_decide (length (JsSet.delete user users) = O)
      then delete room (rooms s)
      else <[room := JsSet.delete user users]> (rooms s)
    end.
Proof.
  unfold leaveRoom. simpl.
  match goal with |- rooms (broadcastToRoom ?r ?m ?e ?s0) = _ =>
    destruct (broadcastToRoom_store r m e s0) as (-> & _) end.
  destruct (rooms s !! room) as [users|]; [case_bool_decide|];
    by destruct (userRooms _ !! user).
Qed.

Lemma leaveRoom_history uuid now room user s :
  messageHistory (leaveRoom uuid now room user s).2 = messageHistory s.
Proof.
  unfold leaveRoom. simpl.
  match goal with |- messageHistory (broadcastToRoom ?r ?m ?e ?s0) = _ =>
    destruct (broadcastToRoom_store r m e s0) as (_ & _ & -> & _) end.
  destruct (rooms s !! room) as [users|]; [case_bool_decide|];
    by destruct (userRooms _ !! user).
Qed.

Lemma members_joinRoom uuid now room user name s :
  members room (joinRoom uuid now room user name s).2
  = JsSet.add user (members room s).
Proof. unfold members at 1. by rewrite joinRoom_rooms, lookup_insert_eq. Qed.

Lemma members_leaveRoom uuid now room user s :
  members room (leaveRoom uuid now room user s).2
  = JsSet.delete user (members room s).
Proof.
  unfold members. rewrite leaveRoom_rooms.
  destruct (rooms s !! room) as [users|] eqn:Hr; simpl.
  - case_bool_decide as Hlen.
    + rewrite lookup_delete_eq. simpl. symmetry. by apply length_zero_iff_nil.
    + by rewrite lookup_insert_eq.
  - by rewrite Hr.
Qed.

Lemma rooms_other_joinRoom uuid now room user name s r :
  r ≠ room → rooms (joinRoom uuid now room user name s).2 !! r = rooms s !! r.
Proof. intros. rewrite joinRoom_rooms. by rewrite lookup_insert_ne. Qed.

Lemma rooms_other_leaveRoom uuid now room user s r :
  r ≠ room → rooms (leaveRoom uuid now room user s).2 !! r = rooms s !! r.
Proof.
  intros Hne. rewrite leaveRoom_rooms.
  destruct (rooms s !! room); [|done].
  case_bool_decide; by rewrite ?lookup_delete_ne, ?lookup_insert_ne.
Qed.

(** *** getHistory *)

(** What [getHistory] answers depends on the stored histories only. *)
Lemma getHistory_response_ext room limit before s s' :
  messageHistory s' = messageHistory s →
  (getHistory room limit before s').1 = (getHistory room limit before s).1.
Proof. intros H. unfold getHistory. simpl. by rewrite H. Qed.

Lemma getHistory_messages_subseteq room limit before s :
  messages (getHistory room limit before s).1
    ⊆ default [] (messageHistory s !! room).
Proof.
  unfold getHistory. simpl. intros m.
  rewrite elem_of_reverse. intros Hm%JsArrayFacts.slice0_subseteq.
  apply JsArrayFacts.elem_of_sort in Hm.
  destruct (truthy before); [|done].
  by apply list_elem_of_filter in Hm as [_ ?].
Qed.

Lemma getHistory_response room limit before s :
  (getHistory room limit before s).1 =
    let all := default [] (messageHistory s !! room) in
    let considered :=
      if truthy before
      then filter (λ msg, timestamp msg < default 0 before) all
      else all in
    let page :=
      JsArray.slice0 (default 50 limit) (JsArray.sort newest_first considered) in
    {| messages := reverse page;
       has_more := bool_decide (Z.of_nat (length page) = default 50 limit) |}.
Proof. reflexivity. Qed.

(** For a limit that is not negative and a [before_timestamp] that is
    absent or not zero, the page in closed form. *)
Lemma getHistory_nonneg room (limit before : option Z) s :
  0 ≤ default 50 limit → before ≠ Some 0 →
  let considered :=
    match before with
    | Some t => filter (λ m, timestamp m < t) (default [] (messageHistory s !! room))
    | None => default [] (messageHistory s !! room)
    end in
  let resp := (getHistory room limit before s).1 in
  messages resp
    = reverse (take (Z.to_nat (default 50 limit))
                 (JsArray.sort newest_first considered)) ∧
  has_more resp
    = bool_decide (Z.of_nat (length (messages resp)) = default 50 limit).
Proof.
  intros Hlim Hbefore considered resp. subst resp considered.
  rewrite getHistory_response. cbn [messages has_more].
  rewrite length_reverse, JsArrayFacts.slice0_nonneg by done.
  destruct before as [t|]; [|done]. unfold truthy.
  destruct (Z.eqb_spec t 0) as [->|]; [done|done].
Qed.

(** For a limit that is not negative, the page in closed form, whatever
    the [before_timestamp]: one that is 0 is taken for none. *)
Lemma getHistory_nonneg_any room (limit before : option Z) s :
  0 ≤ default 50 limit →
  let all := default [] (messageHistory s !! room) in
  let considered :=
    match before with
    | Some t => if bool_decide (t = 0) then all
                else filter (λ m, timestamp m < t) all
    | None => all
    end in
  let resp := (getHistory room limit before s).1 in
  messages resp
    = reverse (take (Z.to_nat (default 50 limit))
                 (JsArray.sort newest_first considered)) ∧
  has_more resp
    = bool_decide (Z.of_nat (length (messages resp)) = default 50 limit).
Proof.
  intros Hlim all considered resp. subst resp considered all.
  rewrite getHistory_response. cbn [messages has_more].
  rewrite length_reverse, JsArrayFacts.slice0_nonneg by done.
  destruct before as [t|]; [|done]. unfold truthy.
  destruct (Z.eqb_spec t 0) as [->|Hne]; simpl.
  - done.
  - by rewrite bool_decide_eq_false_2.
Qed.

(** C6, as the code has it.  For a limit that is not negative: with a
    [before_timestamp] other than 0, only the messages with a strictly
    smaller timestamp are considered; with none, or with one of 0, which
    the test [if (before_timestamp)] takes for none, all of the room's
    history is.  The answer holds the [limit] newest of the considered
    messages, or all of them if there are fewer, oldest first; and
    [has_more] says whether that count equals the limit. *)
Theorem getHistory_page room (limit before : option Z) s :
  0 ≤ default 50 limit →
  let lim := default 50 limit in
  let all := default [] (messageHistory s !! room) in
  let considered :=
    match before with
    | Some t => if bool_decide (t = 0) then all
                else filter (λ m, timestamp m < t) all
    | None => all
    end in
  let resp := (getHistory room limit before s).1 in
  messages resp
    = reverse (take (Z.to_nat lim) (JsArray.sort newest_first considered)) ∧
  (∃ rest, considered ≡ₚ messages resp ++ rest ∧
           ∀ m m', m ∈ rest → m' ∈ messages resp → timestamp m ≤ timestamp m') ∧
  length (messages resp) = Nat.min (Z.to_nat lim) (length considered) ∧
  StronglySorted (λ a b, timestamp a ≤ timestamp b) (messages resp) ∧
  has_more resp = bool_decide (Z.of_nat (length (messages resp)) = lim).
Proof.
  intros Hlim lim all considered resp.
  destruct (getHistory_nonneg_any room limit before s Hlim) as [Hm Hh].
  fold all considered lim resp in Hm, Hh.
  clearbody resp. pose proof (JsArrayFacts.sort_newest_first considered) as Hsorted.
  split; [done|]. split; [|split; [|split; [|done]]].
  - exists (drop (Z.to_nat lim) (JsArray.sort newest_first considered)).
    rewrite Hm. split.
    + rewrite reverse_Permutation, take_drop. symmetry. apply JsArrayFacts.sort_perm.
    + intros m m' Hrest Hpage. rewrite elem_of_reverse in Hpage.
      rewrite <- (take_drop (Z.to_nat lim)) in Hsorted.
      exact (StronglySorted_app_1_elem_of _ _ _ _ _ Hsorted Hpage Hrest).
  - by rewrite Hm, length_reverse, length_take, JsArrayFacts.length_sort.
  - rewrite Hm. by apply (JsArrayFacts.page_oldest_first _ _ Hsorted).
Qed.

(** C10.  With [limit] given as 0 the answer has no messages and [has_more]
    true, whatever the room's history; the default of 50 is taken only for a
    request without [limit], which is answered like one with [limit] 50, and
    so, unlike the request with [limit] 0, with messages when the room has
    any. *)
Theorem getHistory_limit_zero room (before : option Z) s :
  messages (getHistory room (Some 0) before s).1 = [] ∧
  has_more (getHistory room (Some 0) before s).1 = true ∧
  getHistory room None before s = getHistory room (Some 50) before s ∧
  (∀ m ms, messageHistory s !! room = Some (m :: ms) →
     messages (getHistory room None None s).1 ≠ [] ∧
     messages (getHistory room (Some 0) None s).1 = [] ∧
     has_more (getHistory room (Some 0) None s).1 = true).
Proof.
  split; [done|]. split; [done|]. split; [done|].
  intros m ms Hstored. split; [|done].
  destruct (getHistory_nonneg room None None s) as [Hm _]; [done..|].
  intros Hnil. rewrite Hnil in Hm. apply (f_equal length) in Hm.
  rewrite length_reverse, length_take, JsArrayFacts.length_sort in Hm.
  rewrite Hstored in Hm. simpl in Hm. lia.
Qed.

(** C1, as the code has it.  A [leaveRoom] that takes the last member out
    of a room removes the room from [rooms] and leaves every stored history
    as it was: a [getHistory] call for that room answers right after the
    [leaveRoom] what the same call answered right before it, and with the
    default limit and no [before_timestamp] that is a list with a message
    in it whenever the room had a stored message. *)
Theorem leaveRoom_last_member_keeps_history uuid now room user s users :
  rooms s !! room = Some users → JsSet.delete user users = [] →
  let s' := (leaveRoom uuid now room user s).2 in
  rooms s' !! room = None ∧
  members room s' = [] ∧
  messageHistory s' = messageHistory s ∧
  (∀ limit before,
     (getHistory room limit before s').1 = (getHistory room limit before s).1) ∧
  (default [] (messageHistory s !! room) ≠ [] →
   messages (getHistory room None None s').1 ≠ []).
Proof.
  intros Hroom Hlast s'. subst s'.
  split; [|split; [|split; [|split]]].
  - rewrite leaveRoom_rooms, Hroom, Hlast. simpl. apply lookup_delete_eq.
  - rewrite members_leaveRoom. unfold members. by rewrite Hroom.
  - apply leaveRoom_history.
  - intros limit before. apply getHistory_response_ext, leaveRoom_history.
  - intros Hstored Hempty.
    rewrite (getHistory_response_ext room None None s
               (leaveRoom uuid now room user s).2) in Hempty
      by apply leaveRoom_history.
    destruct (getHistory_nonneg room None None s) as [Hm _]; [done|done|].
    cbv zeta in Hm. rewrite Hempty in Hm. symmetry in Hm.
    apply (f_equal length) in Hm.
    rewrite length_reverse, length_take, JsArrayFacts.length_sort in Hm.
    simpl in Hm. destruct (default [] (messageHistory s !! room)); [done|].
    simpl in Hm. lia.
Qed.

(** *** Membership under joinRoom and leaveRoom *)

Lemma members_handle_join_or_leave room user r s :
  join_or_leave_of room user r →
  members room (handle s r)
  = if is_join r then JsSet.add user (members room s)
    else JsSet.delete user (members room s).
Proof.
  destruct r; simpl; try done; intros [-> ->].
  - apply members_joinRoom.
  - apply members_leaveRoom.
Qed.

Lemma rooms_other_handle_join_or_leave room user r s other :
  join_or_leave_of room user r → other ≠ room →
  rooms (handle s r) !! other = rooms s !! other.
Proof.
  destruct r; simpl; try done; intros [-> ->] Hne.
  - by apply rooms_other_joinRoom.
  - by apply rooms_other_leaveRoom.
Qed.

(** C8.  After any sequence of [joinRoom] and [leaveRoom] calls of one user
    for one room, the room's members are those it had before, with the user
    among them exactly if the last call was a [joinRoom] (and as before if
    there was no call); no user is listed twice and no other room changes.
    In particular a second [joinRoom] changes nothing in the member list,
    and a [leaveRoom] of a user who is not a member changes nothing
    either. *)
Theorem join_leave_net_effect room user (rs : list Request) s :
  Forall (join_or_leave_of room user) rs →
  NoDup (members room s) →
  let s' := serve s rs in
  NoDup (members room s') ∧
  (∀ v, v ∈ members room s' ↔
        match last rs with
        | None => v ∈ members room s
        | Some r => if is_join r then v = user ∨ v ∈ members room s
                    else v ≠ user ∧ v ∈ members room s
        end) ∧
  (∀ other, other ≠ room → rooms s' !! other = rooms s !! other) ∧
  (∀ uuid now name uuid' now' name',
     members room (joinRoom uuid' now' room user name'
                     (joinRoom uuid now room user name s).2).2
     = members room (joinRoom uuid now room user name s).2) ∧
  (∀ uuid now, user ∉ members room s →
     members room (leaveRoom uuid now room user s).2 = members room s).
Proof.
  intros Hrs Hnd s'. subst s'. unfold serve.
  split; [|split; [|split; [|split]]].
  - induction rs as [|r rs IH] using rev_ind; [done|].
    apply Forall_app in Hrs as [Hrs Hr]. apply Forall_inv in Hr.
    rewrite foldl_snoc, (members_handle_join_or_leave room user) by done.
    destruct (is_join r);
      [apply JsSetFacts.NoDup_add|apply JsSetFacts.NoDup_delete]; by apply IH.
  - induction rs as [|r rs IH] using rev_ind; [done|].
    apply Forall_app in Hrs as [Hrs Hr]. apply Forall_inv in Hr.
    intros v. rewrite foldl_snoc, last_snoc.
    rewrite (members_handle_join_or_leave room user) by done.
    specialize (IH Hrs v).
    destruct (is_join r).
    + rewrite JsSetFacts.elem_of_add, IH.
      destruct (last rs) as [r'|]; [destruct (is_join r')|];
        destruct (decide (v = user)); tauto.
    + rewrite JsSetFacts.elem_of_delete, IH.
      destruct (last rs) as [r'|]; [destruct (is_join r')|]; tauto.
  - intros other Hne.
    induction rs as [|r rs IH] using rev_ind; [done|].
    apply Forall_app in Hrs as [Hrs Hr]. apply Forall_inv in Hr.
    rewrite foldl_snoc.
    rewrite (rooms_other_handle_join_or_leave room user) by done. by apply IH.
  - intros. rewrite !members_joinRoom. apply JsSetFacts.add_present.
    apply JsSetFacts.elem_of_add. by left.
  - intros uuid now Habsent. rewrite members_leaveRoom.
    by apply JsSetFacts.delete_absent.
Qed.

(** *** The stream handlers *)


Lemma handleTypingIndicator_store message userRooms s :
  same_store s (handleTypingIndicator message userRooms s).
Proof.
  unfold handleTypingIndicator.
  destruct (negb _); [apply same_store_refl|apply broadcastToRoom_store].
Qed.

Lemma handleSystemMessage_history uuid now message userRooms s :
  messageHistory (handleSystemMessage uuid now message userRooms s)
  = <[room_id message :=
        default [] (messageHistory s !! room_id message) ++ [stamp uuid now message]]>
      (messageHistory s).
Proof.
  unfold handleSystemMessage.
  match goal with |- messageHistory (broadcastToRoom ?r ?m ?e ?s0) = _ =>
    destruct (broadcastToRoom_store r m e s0) as (_ & _ & -> & _) end.
  done.
Qed.

Lemma handleSystemMessage_rooms uuid now message userRooms s :
  rooms (handleSystemMessage uuid now message userRooms s) = rooms s.
Proof.
  unfold handleSystemMessage.
  match goal with |- rooms (broadcastToRoom ?r ?m ?e ?s0) = _ =>
    destruct (broadcastToRoom_store r m e s0) as (-> & _) end.
  done.
Qed.

Lemma handleChatMessage_history uuid now message userRooms s s' :
  handleChatMessage uuid now message userRooms s = inr s' →
  rooms s' = rooms s ∧
  messageHistory s'
  = <[room_id message :=
        default [] (messageHistory s !! room_id message) ++ [stamp uuid now message]]>
      (messageHistory s).
Proof.
  unfold handleChatMessage. destruct (negb _); [done|].
  intros [= <-].
  match goal with |- context [broadcastToRoom ?r ?m ?e ?s0] =>
    destruct (broadcastToRoom_store r m e s0) as (-> & _ & -> & _) end.
  done.
Qed.

Lemma handleUserDisconnect_store uuid now userId userRooms s :
  rooms (handleUserDisconnect uuid now userId userRooms s) = rooms s ∧
  messageHistory (handleUserDisconnect uuid now userId userRooms s)
  = messageHistory s.
Proof.
  unfold handleUserDisconnect. destruct userId as [u|]; [|done].
  match goal with |- context [forEach_indexed ?f ?s0 ?l] =>
    destruct (forEach_indexed_store f l) with (s := s0) as (-> & _ & -> & _) end;
    [|done].
  intros. apply broadcastToRoom_store.
Qed.

Lemma updatePresence_store uuid now user status s :
  rooms (updatePresence uuid now user status s).2 = rooms s ∧
  messageHistory (updatePresence uuid now user status s).2 = messageHistory s.
Proof.
  unfold updatePresence. simpl.
  match goal with |- context [forEach_indexed ?f ?s0 ?l] =>
    destruct (forEach_indexed_store f l) with (s := s0) as (-> & _ & -> & _) end;
    [|done].
  intros. apply broadcastToRoom_store.
Qed.

Lemma set_destroyed_store h s :
  rooms (set_destroyed h s) = rooms s ∧
  messageHistory (set_destroyed h s) = messageHistory s.
Proof. unfold set_destroyed. by destruct (calls s !! h). Qed.

Lemma bind_user_store h c message s c' s' :
  bind_user h c message s = Some (c', s') →
  rooms s' = rooms s ∧ messageHistory s' = messageHistory s.
Proof.
  unfold bind_user. destruct (userId c); [by intros [= <- <-]|].
  destruct (if bool_decide _ then _ else _) as [u|]; [|done].
  case_bool_decide; [done|]. by intros [= <- <-].
Qed.

(** A stream that is bound dispatches on the message type at once. *)
Lemma on_data_bound h c u uuid now message s :
  calls s !! h = Some c → userId c = Some u →
  on_data h uuid now message s =
    match type message with
    | TEXT | IMAGE | FILE =>
      match handleChatMessage uuid now message (currentRooms c) s with
      | inl _ => set_destroyed h s
      | inr s' => s'
      end
    | TYPING => handleTypingIndicator message (currentRooms c) s
    | SYSTEM => handleSystemMessage uuid now message (currentRooms c) s
    end.
Proof. intros Hc Hu. unfold on_data, bind_user. by rewrite Hc, Hu. Qed.

(** A ['data'] event leaves the histories alone or appends the stamped
    message, and the latter never for a TYPING message. *)
Lemma on_data_history h uuid now message s :
  rooms (on_data h uuid now message s) = rooms s ∧
  (messageHistory (on_data h uuid now message s) = messageHistory s ∨
   type message ≠ TYPING ∧
   messageHistory (on_data h uuid now message s)
   = <[room_id message :=
         default [] (messageHistory s !! room_id message)
           ++ [stamp uuid now message]]> (messageHistory s)).
Proof.
  unfold on_data. destruct (calls s !! h) as [c|]; [|by split; [|left]].
  destruct (bind_user h c message s) as [[c' s1]|] eqn:Hbind.
  2:{ destruct (set_destroyed_store h s) as [-> ->]. by split; [|left]. }
  apply bind_user_store in Hbind as [Hr Hh].
  destruct (type message) eqn:Hty.
  1-3: destruct (handleChatMessage uuid now message (currentRooms c') s1)
         as [e|s2] eqn:Hchat;
       [destruct (set_destroyed_store h s1) as [-> ->]; by split; [|left]
       |apply handleChatMessage_history in Hchat as [-> ->];
        rewrite Hr, Hh; by split; [|right]].
  - destruct (handleTypingIndicator_store message (currentRooms c') s1)
      as (-> & _ & -> & _). by split; [|left].
  - rewrite handleSystemMessage_rooms, handleSystemMessage_history, Hr, Hh.
    by split; [|right].
Qed.

(** *** Invariants of the service *)

Lemma typing_free_push roomId message s s' :
  type message ≠ TYPING →
  messageHistory s'
  = <[roomId := default [] (messageHistory s !! roomId) ++ [message]]>
      (messageHistory s) →
  typing_free s → typing_free s'.
Proof.
  intros Hty Hs' Hfree r msgs. rewrite Hs'.
  destruct (decide (roomId = r)) as [->|Hne].
  - rewrite lookup_insert_eq. intros [= <-].
    apply Forall_app. split; [|by apply Forall_singleton].
    destruct (messageHistory s !! r) as [old|] eqn:Hold; [|constructor].
    by apply (Hfree r).
  - rewrite lookup_insert_ne by done. apply Hfree.
Qed.

Lemma typing_free_same s s' :
  messageHistory s' = messageHistory s → typing_free s → typing_free s'.
Proof. intros Hs' Hfree r msgs. rewrite Hs'. apply Hfree. Qed.

Lemma getHistory_store room limit before s :
  rooms (getHistory room limit before s).2 = rooms s ∧
  ∀ r msgs, messageHistory (getHistory room limit before s).2 !! r = Some msgs →
    ∃ msgs', messageHistory s !! r = Some msgs' ∧ msgs ≡ₚ msgs'.
Proof.
  unfold getHistory. simpl.
  destruct (truthy before); [by eauto|].
  destruct (messageHistory s !! room) as [stored|] eqn:Hst; [|by eauto].
  split; [done|]. intros r msgs. simpl.
  destruct (decide (room = r)) as [->|Hne].
  - rewrite lookup_insert_eq. intros [= <-]. exists stored.
    split; [done|]. apply JsArrayFacts.sort_perm.
  - rewrite lookup_insert_ne by done. eauto.
Qed.

Lemma handle_typing_free s r : typing_free s → typing_free (handle s r).
Proof.
  intros Hfree.
  destruct r as [h md wt|h uuid now msg|h uuid now|uuid now rid uid name|uuid now rid uid|rid limit before|uuid now uid status];
    cbn [handle].
  - unfold chatStream. by destruct (calls s !! h).
  - destruct (on_data_history h uuid now msg s) as [_ [Hh|[Hty Hh]]].
    + by apply (typing_free_same s).
    + eapply (typing_free_push _ (stamp uuid now msg)); [done|exact Hh|done].
  - unfold on_close. destruct (calls s !! h) as [c|]; [|done].
    eapply typing_free_same; [|done]. apply handleUserDisconnect_store.
  - eapply typing_free_same; [|done]. apply joinRoom_history.
  - eapply typing_free_same; [|done]. apply leaveRoom_history.
  - intros room msgs Hm.
    apply getHistory_store in Hm as (msgs' & Hm' & Hperm).
    rewrite Hperm. by apply (Hfree room).
  - eapply typing_free_same; [|done]. apply updatePresence_store.
Qed.

Lemma serve_typing_free rs : ∀ s, typing_free s → typing_free (serve s rs).
Proof.
  unfold serve. induction rs as [|r rs IH]; intros s Hs; simpl; [done|].
  by apply IH, handle_typing_free.
Qed.

Lemma new_ChatService_typing_free : typing_free new_ChatService.
Proof. intros r msgs. simpl. by rewrite lookup_empty. Qed.

Lemma handle_rooms_are_sets s r : rooms_are_sets s → rooms_are_sets (handle s r).
Proof.
  intros Hsets.
  destruct r as [h md wt|h uuid now msg|h uuid now|uuid now rid uid name|uuid now rid uid|rid limit before|uuid now uid status];
    cbn [handle].
  - unfold chatStream. by destruct (calls s !! h).
  - intros room users. destruct (on_data_history h uuid now msg s) as [-> _].
    apply Hsets.
  - unfold on_close. destruct (calls s !! h) as [c|]; [|done].
    intros room users.
    destruct (handleUserDisconnect_store uuid now (userId c) (currentRooms c) s)
      as [-> _].
    apply Hsets.
  - intros room users. rewrite joinRoom_rooms.
    destruct (decide (rid = room)) as [->|Hne].
    + rewrite lookup_insert_eq. intros [= <-]. apply JsSetFacts.NoDup_add.
      unfold members. destruct (rooms s !! room) as [us|] eqn:Hus; simpl.
      * by apply (Hsets room).
      * constructor.
    + rewrite lookup_insert_ne by done. apply Hsets.
  - intros room users. rewrite leaveRoom_rooms.
    destruct (rooms s !! rid) as [us|] eqn:Hus; [|apply Hsets].
    case_bool_decide.
    + intros Hl. apply lookup_delete_Some in Hl as [_ Hl]. by apply (Hsets room).
    + destruct (decide (rid = room)) as [->|Hne].
      * rewrite lookup_insert_eq. intros [= <-]. apply JsSetFacts.NoDup_delete.
        by apply (Hsets room).
      * rewrite lookup_insert_ne by done. apply Hsets.
  - intros room users.
    destruct (getHistory_store rid limit before s) as [-> _].
    apply Hsets.
  - intros room users.
    destruct (updatePresence_store uuid now uid status s) as [-> _].
    apply Hsets.
Qed.

Lemma serve_rooms_are_sets rs : ∀ s, rooms_are_sets s → rooms_are_sets (serve s rs).
Proof.
  unfold serve. induction rs as [|r rs IH]; intros s Hs; simpl; [done|].
  by apply IH, handle_rooms_are_sets.
Qed.

Lemma rooms_are_sets_members s roomId :
  rooms_are_sets s → NoDup (members roomId s).
Proof.
  intros Hsets. unfold members.
  destruct (rooms s !! roomId) as [us|] eqn:Hus; simpl; [by eapply Hsets|constructor].
Qed.

(** *** Who gets a notification *)

Lemma bind_user_bound h c u message s :
  userId c = Some u → bind_user h c message s = Some (c, s).
Proof. intros Hu. unfold bind_user. by rewrite Hu. Qed.

Lemma bind_user_sent h c message s c' s' :
  bind_user h c message s = Some (c', s') → sent s' = sent s.
Proof.
  unfold bind_user. destruct (userId c); [by intros [= <- <-]|].
  destruct (if bool_decide _ then _ else _) as [u|]; [|done].
  case_bool_decide; [done|]. by intros [= <- <-].
Qed.

Lemma members_same_rooms roomId s s' :
  rooms s' = rooms s → members roomId s' = members roomId s.
Proof. unfold members. by intros ->. Qed.

Lemma recipients_same_streams message ex users s s' :
  userStreams s' = userStreams s → calls s' = calls s →
  recipients message ex users s' = recipients message ex users s.
Proof.
  intros Hu Hc. apply recipients_ext. intros v _.
  unfold live_stream. by rewrite Hu, Hc.
Qed.

(** A write that throws takes its user out of the stream directory.  That
    user was not written to before and is not written to after, so a
    broadcast changes nothing in whom a later broadcast reaches: the writes
    of each can be read off the service as it was before both. *)
Lemma recipients_broadcast_one message ex users m0 ex0 s u :
  recipients message ex users (broadcast_one m0 ex0 s u)
  = recipients message ex users s.
Proof.
  induction users as [|v users IH]; [done|].
  rewrite (recipients_cons _ _ v users s), (recipients_cons _ _ v users _), IH.
  f_equal. rewrite !recipients_one. case_bool_decide; [|done].
  destruct (decide (v = u)) as [->|Hne]; [|by rewrite broadcast_one_live].
  unfold broadcast_one. case_bool_decide; [|done].
  destruct (live_stream s u) as [[h c]|] eqn:Hlive; [|by rewrite Hlive].
  destruct (write_throws c) eqn:Hthrows.
  - unfold live_stream at 1. simpl. by rewrite lookup_delete_eq.
  - assert (live_stream (set_sent (sent s ++ [(h, m0)]) s) u = live_stream s u)
      as -> by done.
    by rewrite Hlive, Hthrows.
Qed.

Lemma recipients_broadcast_fold message ex users m0 ex0 l :
  ∀ s, recipients message ex users (foldl (broadcast_one m0 ex0) s l)
       = recipients message ex users s.
Proof.
  induction l as [|u l IH]; intros s; [done|].
  cbn [foldl]. by rewrite IH, recipients_broadcast_one.
Qed.

Lemma recipients_broadcastToRoom message ex users roomId m0 ex0 s :
  recipients message ex users (broadcastToRoom roomId m0 ex0 s)
  = recipients message ex users s.
Proof. apply recipients_broadcast_fold. Qed.

Lemma broadcast_fold_sent_any message ex users :
  ∀ s, sent (foldl (broadcast_one message ex) s users)
       = sent s ++ recipients message ex users s.
Proof.
  induction users as [|u users IH]; intros s; cbn [foldl].
  - by rewrite app_nil_r.
  - rewrite IH, broadcast_one_sent, <- app_assoc, (recipients_cons _ _ u users s).
    by rewrite recipients_broadcast_one.
Qed.

(** What a broadcast writes, in every state of the service. *)
Lemma broadcastToRoom_sent_any roomId message ex s :
  sent (broadcastToRoom roomId message ex s)
  = sent s ++ recipients message ex (members roomId s) s.
Proof. apply broadcast_fold_sent_any. Qed.

Lemma forEach_broadcast_sent (msg : nat → string → Message) ex roomIds :
  ∀ k s,
    let s' := (foldl (λ '(s, i) roomId,
                        (broadcastToRoom roomId (msg i roomId) ex s, S i))
                     (s, k) roomIds).1 in
    sent s' = sent s ++
      concat (imap (λ i roomId,
                      recipients (msg (k + i)%nat roomId) ex (members roomId s) s)
                   roomIds).
Proof.
  induction roomIds as [|r roomIds IH]; intros k s; simpl.
  - by rewrite app_nil_r.
  - set (s1 := broadcastToRoom r (msg k r) ex s).
    destruct (broadcastToRoom_store r (msg k r) ex s) as (Hr & _).
    fold s1 in Hr.
    rewrite (IH (S k) s1).
    subst s1. rewrite broadcastToRoom_sent_any.
    rewrite <- app_assoc, Nat.add_0_r. do 2 f_equal.
    f_equal. apply imap_ext. intros i room _. simpl.
    rewrite (members_same_rooms room s _ Hr), recipients_broadcastToRoom.
    by replace (k + S i)%nat with (S (k + i)) by lia.
Qed.

Lemma joinRoom_sent uuid now room user name s :
  sent (joinRoom uuid now room user name s).2
  = sent s ++ recipients (joinMessage uuid now room user name) None
                (JsSet.add user (members room s)) s.
Proof.
  unfold joinRoom. cbn [snd].
  match goal with |- context [broadcastToRoom _ _ _ ?s0] => set (st := s0) end.
  assert (members room st = JsSet.add user (members room s)) as Hm.
  { subst st. unfold members at 1. simpl. by rewrite lookup_insert_eq. }
  rewrite broadcastToRoom_sent_any.
  by rewrite Hm, (recipients_same_streams _ _ _ s st).
Qed.

Lemma leaveRoom_sent uuid now room user s :
  sent (leaveRoom uuid now room user s).2
  = sent s ++ recipients (leaveMessage uuid now room user) None
                (JsSet.delete user (members room s)) s.
Proof.
  unfold leaveRoom. cbn [snd].
  match goal with |- context [broadcastToRoom _ _ _ ?s0] => set (st := s0) end.
  assert (members room st = JsSet.delete user (members room s)
          ∧ userStreams st = userStreams s ∧ calls st = calls s
          ∧ sent st = sent s) as (Hm & Hu & Hc & Hs).
  { subst st. unfold members.
    destruct (rooms s !! room) as [users|] eqn:Hr; [case_bool_decide as Hlen|].
    - destruct (userRooms _ !! user); simpl; rewrite lookup_delete_eq; simpl;
        by apply length_zero_iff_nil in Hlen as ->.
    - destruct (userRooms _ !! user); simpl; by rewrite lookup_insert_eq.
    - destruct (userRooms _ !! user); simpl; by rewrite Hr. }
  rewrite broadcastToRoom_sent_any.
  by rewrite Hm, Hs, (recipients_same_streams _ _ _ s st).
Qed.

Lemma updatePresence_sent uuid now user status s :
  sent (updatePresence uuid now user status s).2 = sent s ++
    concat (imap (λ i roomId,
                    recipients (presenceMessage (uuid i) (now i) roomId user status)
                      (Some user) (members roomId s) s)
                 (default [] (userRooms s !! user))).
Proof.
  unfold updatePresence, forEach_indexed. cbn [snd].
  by rewrite (forEach_broadcast_sent
                (λ i roomId, presenceMessage (uuid i) (now i) roomId user status)).
Qed.

Lemma handleUserDisconnect_sent uuid now user userRooms s :
  let s0 := set_userStreams (delete user (userStreams s)) s in
  sent (handleUserDisconnect uuid now (Some user) userRooms s) = sent s ++
    concat (imap (λ i roomId,
                    recipients (leaveMessage (uuid i) (now i) roomId user) None
                      (members roomId s) s0)
                 userRooms).
Proof.
  intros s0. unfold handleUserDisconnect, forEach_indexed.
  by rewrite (forEach_broadcast_sent
                (λ i roomId, leaveMessage (uuid i) (now i) roomId user)).
Qed.

(** Whether the ['data'] callback finds a user for its stream. *)
Lemma bind_user_None h c message s :
  bind_user h c message s = None ↔
  userId c = None ∧ user_id message = ""%string ∧
  (metadata_user_id c = None ∨ metadata_user_id c = Some ""%string).
Proof.
  unfold bind_user. destruct (userId c) as [u|].
  { split; [done|]. by intros [? _]. }
  destruct (decide (user_id message = ""%string)) as [He|Hne].
  - rewrite bool_decide_eq_false_2 by (intros H; by apply H).
    destruct (metadata_user_id c) as [u|].
    + case_bool_decide as Hu.
      * subst u. split; [by auto|done].
      * split; [done|]. intros (_ & _ & [?|?]); congruence.
    + split; [by auto|done].
  - rewrite bool_decide_eq_true_2 by done.
    rewrite bool_decide_eq_false_2 by done.
    split; [done|]. by intros (_ & ? & _).
Qed.

(** What the code does with a TYPING message on a stream that is bound,
    or that the message binds.  Whether the message is let through is
    decided by the room set of the stream it arrives on, which holds the
    rooms its user was in when the stream was bound, not by the room's
    member list.  If the room is not in that set, the message is dropped and
    nothing but the binding changes; if it is, the message is written,
    unstamped, to the live stream of every member of the room other than the
    user the message names, and nothing else but the stream directory
    changes.  Either way no history changes; and whatever requests the
    service has served, no stored history and no [getHistory] answer holds a
    TYPING message. *)
Theorem typing_goes_by_stream_rooms h c c' uuid now message s s1 :
  calls s !! h = Some c →
  bind_user h c message s = Some (c', s1) →
  type message = TYPING →
  let roomId := room_id message in
  let s' := on_data h uuid now message s in
  (roomId ∉ currentRooms c' → s' = s1) ∧
  (roomId ∈ currentRooms c' → NoDup (members roomId s) →
     same_store s1 s' ∧
     sent s' = sent s ++ recipients message (Some (user_id message))
                           (members roomId s) s1) ∧
  messageHistory s' = messageHistory s ∧
  (∀ rs, typing_free (serve new_ChatService rs) ∧
         ∀ room limit before,
           Forall (λ m, type m ≠ TYPING)
             (messages (getHistory room limit before
                          (serve new_ChatService rs)).1)).
Proof.
  intros Hc Hbind Hty roomId s'.
  assert (s' = handleTypingIndicator message (currentRooms c') s1) as Hs'.
  { subst s'. unfold on_data. by rewrite Hc, Hbind, Hty. }
  clearbody s'. subst s'. unfold handleTypingIndicator, JsSet.has.
  fold roomId.
  destruct (bind_user_store _ _ _ _ _ _ Hbind) as [Hrooms Hhist].
  split; [|split; [|split]].
  - intros Hout. by rewrite bool_decide_eq_false_2.
  - intros Hin Hnd. rewrite bool_decide_eq_true_2 by done. simpl.
    split; [apply broadcastToRoom_store|].
    rewrite broadcastToRoom_sent
      by (by rewrite (members_same_rooms roomId s s1)).
    by rewrite (members_same_rooms roomId s s1), (bind_user_sent _ _ _ _ _ _ Hbind).
  - case_bool_decide; simpl; [|done].
    destruct (broadcastToRoom_store roomId message (Some (user_id message)) s1)
      as (_ & _ & -> & _). done.
  - intros rs.
    pose proof (serve_typing_free rs _ new_ChatService_typing_free) as Hfree.
    split; [done|]. intros room limit before.
    apply Forall_forall. intros m Hm%getHistory_messages_subseteq.
    destruct (messageHistory (serve new_ChatService rs) !! room) as [msgs|] eqn:Hmsgs;
      simpl in Hm.
    + pose proof (Hfree room msgs Hmsgs) as Hall.
      rewrite Forall_forall in Hall. by apply Hall.
    + by apply elem_of_nil in Hm.
Qed.

(** C9, as the code has it.  A SYSTEM message that arrives on a stream
    which is bound to a user, or which the message binds (it names a user,
    or the stream's metadata does), is stamped, appended to the history of
    the room it names and written to the live stream of every member of
    that room; on a stream that no user id can be found for, it is dropped
    and the stream destroyed.  The notifications that the service builds
    itself go to the members' live streams only: [joinRoom] writes its
    notification to the members including the one who joined, [leaveRoom]
    to those who remain; [updatePresence] writes one for each room of the
    user to that room's members other than the user, and the closing of a
    bound stream one for each room of the stream to that room's members,
    the user being deregistered first; and none of the four changes any
    history.  All of this holds in every state of the service, also when
    writes throw: a write that throws is not a write. *)
Theorem system_messages_stored_only_from_streams :
  (∀ h c uuid now message s,
     calls s !! h = Some c → type message = SYSTEM →
     let s' := on_data h uuid now message s in
     let m := stamp uuid now message in
     (userId c ≠ None ∨ user_id message ≠ ""%string ∨
      (∃ u, metadata_user_id c = Some u ∧ u ≠ ""%string) →
      ∃ c1 s1,
        bind_user h c message s = Some (c1, s1) ∧
        messageHistory s'
        = <[room_id message :=
              default [] (messageHistory s !! room_id message) ++ [m]]>
            (messageHistory s) ∧
        sent s' = sent s ++ recipients m None (members (room_id message) s) s1) ∧
     (userId c = None → user_id message = ""%string →
      metadata_user_id c = None ∨ metadata_user_id c = Some ""%string →
      s' = set_destroyed h s ∧ messageHistory s' = messageHistory s ∧
      sent s' = sent s)) ∧
  (∀ uuid now room user name s,
     let s' := (joinRoom uuid now room user name s).2 in
     messageHistory s' = messageHistory s ∧
     sent s' = sent s ++ recipients (joinMessage uuid now room user name) None
                           (JsSet.add user (members room s)) s) ∧
  (∀ uuid now room user s,
     let s' := (leaveRoom uuid now room user s).2 in
     messageHistory s' = messageHistory s ∧
     sent s' = sent s ++ recipients (leaveMessage uuid now room user) None
                           (JsSet.delete user (members room s)) s) ∧
  (∀ uuid now user status s,
     let s' := (updatePresence uuid now user status s).2 in
     messageHistory s' = messageHistory s ∧
     sent s' = sent s ++
       concat (imap (λ i roomId,
                       recipients
                         (presenceMessage (uuid i) (now i) roomId user status)
                         (Some user) (members roomId s) s)
                    (default [] (userRooms s !! user)))) ∧
  (∀ h c user uuid now s,
     calls s !! h = Some c → userId c = Some user →
     let s' := on_close h uuid now s in
     messageHistory s' = messageHistory s ∧
     sent s' = sent s ++
       concat (imap (λ i roomId,
                       recipients (leaveMessage (uuid i) (now i) roomId user) None
                         (members roomId s)
                         (set_userStreams (delete user (userStreams s)) s))
                    (currentRooms c))).
Proof.
  split; [|split; [|split; [|split]]].
  - intros h c uuid now message s Hc Hty s' m. split.
    + intros Hid.
      destruct (bind_user h c message s) as [[c1 s1]|] eqn:Hbind.
      2:{ apply bind_user_None in Hbind as (Hu & Hm & Hmd).
          destruct Hid as [?|[?|(u & Hmu & Hu')]]; [done|done|].
          destruct Hmd as [Hmd|Hmd]; rewrite Hmd in Hmu; congruence. }
      exists c1, s1. split; [done|].
      assert (s' = handleSystemMessage uuid now message (currentRooms c1) s1) as ->.
      { subst s'. unfold on_data. by rewrite Hc, Hbind, Hty. }
      destruct (bind_user_store _ _ _ _ _ _ Hbind) as [Hrooms Hhist].
      split.
      * by rewrite handleSystemMessage_history, Hhist.
      * unfold handleSystemMessage. rewrite broadcastToRoom_sent_any.
        rewrite (members_same_rooms _ s (push_history _ _ s1)) by done.
        simpl. by rewrite (bind_user_sent _ _ _ _ _ _ Hbind).
    + intros Hu Hm Hmd.
      assert (bind_user h c message s = None) as Hbind
        by (by apply bind_user_None).
      assert (s' = set_destroyed h s) as ->.
      { subst s'. unfold on_data. by rewrite Hc, Hbind. }
      split; [done|]. unfold set_destroyed. by rewrite Hc.
  - intros uuid now room user name s s'. split;
      [apply joinRoom_history|apply joinRoom_sent].
  - intros uuid now room user s s'. split;
      [apply leaveRoom_history|apply leaveRoom_sent].
  - intros uuid now user status s s'. split;
      [apply updatePresence_store|apply updatePresence_sent].
  - intros h c user uuid now s Hc Hu s'. subst s'. unfold on_close.
    rewrite Hc, Hu. split;
      [apply handleUserDisconnect_store|apply handleUserDisconnect_sent].
Qed.

End ChatFacts.

(** ** The chat properties on the sample runs *)

Lemma leaveRoom_last_member_keeps_history_witness :
  let s := Chat.serve Chat.new_ChatService alice_session in
  let s' := (Chat.leaveRoom "id-4" 1700000000300 "general" "alice" s).2 in
  Chat.rooms s' !! "general"%string = None ∧
  Chat.messageHistory s' = Chat.messageHistory s ∧
  Chat.messages (Chat.getHistory "general" None None s').1 ≠ [].
Proof.
  intros s s'.
  destruct (ChatFacts.leaveRoom_last_member_keeps_history
              "id-4" 1700000000300 "general" "alice" s ["alice"%string])
    as (Hroom & _ & Hhist & _ & Hsome).
  - vm_compute. reflexivity.
  - vm_compute. reflexivity.
  - split; [exact Hroom|]. split; [exact Hhist|].
    apply Hsome. vm_compute. discriminate.
Defined.

(** C1, as stated, fails: Alice, the only member, leaves the room; the room
    is gone from [rooms], but its history still holds her two messages and
    [getHistory] returns them. *)
Lemma history_outlives_its_room :
  let s := Chat.serve Chat.new_ChatService alice_session in
  let s' := (Chat.leaveRoom "id-4" 1700000000300 "general" "alice" s).2 in
  Chat.members "general" s = ["alice"%string] ∧
  Chat.members "general" s' = [] ∧
  Chat.rooms s' !! "general"%string = None ∧
  Chat.messageHistory s' !! "general"%string = Some [hello; how_are_you] ∧
  Chat.messages (Chat.getHistory "general" (Some 50) None s').1
    = [hello; how_are_you] ∧
  Chat.messages (Chat.getHistory "general" (Some 50) None s').1 ≠ [].
Proof. vm_compute. repeat split; discriminate. Qed.

Lemma getHistory_page_witness :
  let s := Chat.serve Chat.new_ChatService alice_session in
  (Chat.messages (Chat.getHistory "general" (Some 1) (Some 1700000000300) s).1
     = [how_are_you] ∧
   Chat.has_more (Chat.getHistory "general" (Some 1) (Some 1700000000300) s).1
     = true) ∧
  Chat.messages (Chat.getHistory "general" (Some 10) (Some 0) s).1
    = [hello; how_are_you].
Proof.
  intros s. split.
  - destruct (ChatFacts.getHistory_page "general" (Some 1) (Some 1700000000300) s)
      as (Hm & _ & _ & _ & Hh).
    + vm_compute. discriminate.
    + split; [exact Hm | exact Hh].
  - destruct (ChatFacts.getHistory_page "general" (Some 10) (Some 0) s)
      as (Hm & _).
    + vm_compute. discriminate.
    + exact Hm.
Defined.

(** C6, as stated, fails at a [before_timestamp] of 0, which the test
    [if (before_timestamp)] takes for absent: no message is older than 0,
    yet both are returned.  It also fails at a negative limit, where
    [slice(0, -1)] keeps all but the oldest message. *)
Lemma getHistory_before_zero_and_negative_limit :
  let s := Chat.serve Chat.new_ChatService alice_session in
  (Chat.messages (Chat.getHistory "general" (Some 10) (Some 0) s).1
     = [hello; how_are_you] ∧
   ¬ Forall (λ m, Chat.timestamp m < 0)
       (Chat.messages (Chat.getHistory "general" (Some 10) (Some 0) s).1)) ∧
  (Chat.messages (Chat.getHistory "general" (Some (-1)) None s).1 = [how_are_you] ∧
   Chat.has_more (Chat.getHistory "general" (Some (-1)) None s).1 = false).
Proof.
  split; [split|]; [by vm_compute| |by vm_compute].
  intros H. apply Forall_inv in H. vm_compute in H. discriminate.
Qed.

Lemma getHistory_limit_zero_witness :
  let s := Chat.serve Chat.new_ChatService alice_session in
  Chat.messages (Chat.getHistory "general" None None s).1 ≠ [] ∧
  Chat.messages (Chat.getHistory "general" (Some 0) None s).1 = [] ∧
  Chat.has_more (Chat.getHistory "general" (Some 0) None s).1 = true.
Proof.
  intros s.
  destruct (ChatFacts.getHistory_limit_zero "general" None s) as (_ & _ & _ & Hsome).
  apply (Hsome hello [how_are_you]).
  vm_compute. reflexivity.
Defined.

Lemma typing_goes_by_stream_rooms_witness :
  let s := Chat.serve Chat.new_ChatService alice_has_left in
  let s' := Chat.on_data 1 "id-6" 1700000000500 alice_typing s in
  Chat.sent s' = Chat.sent s ++ [(2%nat, alice_typing)] ∧
  Chat.messageHistory s' = Chat.messageHistory s.
Proof.
  intros s s'.
  destruct (ChatFacts.typing_goes_by_stream_rooms 1 alice_stream alice_stream
              "id-6" 1700000000500 alice_typing s s)
    as (_ & Hin & Hhist & _).
  - vm_compute. reflexivity.
  - vm_compute. reflexivity.
  - reflexivity.
  - split; [|exact Hhist].
    destruct Hin as [_ Hsent].
    + vm_compute. apply list_elem_of_here.
    + vm_compute. apply NoDup_singleton.
    + exact Hsent.
Defined.

(** C7, as stated, fails both ways, and against the code's own comment,
    "Ignore if user not in room".  Alice joins the room after her stream
    was bound: she is a member, Bob is a member with a live stream whose
    writes succeed, and her TYPING message for the room is dropped, the
    service being after it what it was before.  And Alice leaves the room
    her stream was bound with: she is no member any more, and her TYPING
    message is still written to Bob's stream.  The room set of a stream is
    filled when the stream is bound, and [joinRoom] and [leaveRoom] never
    touch it. *)
Lemma typing_checks_the_stream_not_the_room :
  (let s := Chat.serve Chat.new_ChatService alice_joins_late in
   Chat.members "general" s = ["bob"; "alice"]%string ∧
   (∃ c, Chat.live_stream s "bob" = Some (2%nat, c) ∧ Chat.write_throws c = false) ∧
   Chat.on_data 1 "id-5" 1700000000400 alice_typing s = s) ∧
  (let s := Chat.serve Chat.new_ChatService alice_has_left in
   Chat.members "general" s = ["bob"%string] ∧
   Chat.sent (Chat.on_data 1 "id-6" 1700000000500 alice_typing s)
     = Chat.sent s ++ [(2%nat, alice_typing)]).
Proof.
  split.
  - split; [by vm_compute|]. split; [|by vm_compute].
    eexists. split; [by vm_compute|done].
  - by vm_compute.
Qed.

Lemma join_leave_net_effect_witness :
  let rs := [Chat.JoinRoom "id-1" 1700000000000 "general" "alice" "Alice";
             Chat.JoinRoom "id-2" 1700000000100 "general" "alice" "Alice";
             Chat.LeaveRoom "id-3" 1700000000200 "general" "alice";
             Chat.LeaveRoom "id-4" 1700000000300 "general" "alice";
             Chat.JoinRoom "id-5" 1700000000400 "general" "alice" "Alice"] in
  NoDup (Chat.members "general" (Chat.serve Chat.new_ChatService rs)) ∧
  ("alice"%string ∈ Chat.members "general" (Chat.serve Chat.new_ChatService rs)
   ↔ "alice"%string = "alice"%string
     ∨ "alice"%string ∈ Chat.members "general" Chat.new_ChatService).
Proof.
  intros rs.
  destruct (ChatFacts.join_leave_net_effect "general" "alice" rs Chat.new_ChatService)
    as (Hnd & Hnet & _).
  - repeat (apply Forall_cons; split; [by vm_compute|]). apply Forall_nil_2.
  - vm_compute. apply NoDup_nil_2.
  - split; [exact Hnd | exact (Hnet "alice"%string)].
Defined.

Lemma system_messages_stored_only_from_streams_witness :
  let s := Chat.serve Chat.new_ChatService (take 3 bob_joins) in
  let note := from_client "alice" "general" "maintenance at noon" Chat.SYSTEM in
  Chat.messageHistory (Chat.on_data 1 "id-7" 1700000000600 note s)
    !! "general"%string
    = Some [Chat.stamp "id-7" 1700000000600 note] ∧
  Chat.sent (Chat.on_close 1 (λ _, "id-8"%string) (λ _, 1700000000700) s)
    = Chat.sent s ∧
  Chat.on_data 9 "id-9" 1700000000800
      (from_client "" "general" "maintenance at noon" Chat.SYSTEM)
      (Chat.chatStream 9 None false s)
    = Chat.set_destroyed 9 (Chat.chatStream 9 None false s).
Proof.
  intros s note.
  destruct ChatFacts.system_messages_stored_only_from_streams
    as (Hstream & _ & _ & _ & Hclose).
  split; [|split].
  - destruct (Hstream 1%nat alice_stream "id-7" 1700000000600 note s)
      as [Hbound _].
    + vm_compute. reflexivity.
    + reflexivity.
    + destruct Hbound as (c1 & s1 & _ & Hhist & _).
      * left. discriminate.
      * rewrite Hhist. vm_compute. reflexivity.
  - destruct (Hclose 1%nat alice_stream "alice"%string
                (λ _, "id-8"%string) (λ _, 1700000000700) s) as [_ Hsent].
    + vm_compute. reflexivity.
    + reflexivity.
    + rewrite Hsent. vm_compute. reflexivity.
  - destruct (Hstream 9%nat fresh_stream "id-9" 1700000000800
                (from_client "" "general" "maintenance at noon" Chat.SYSTEM)
                (Chat.chatStream 9 None false s)) as [_ Hnone].
    + vm_compute. reflexivity.
    + reflexivity.
    + exact (proj1 (Hnone eq_refl eq_refl (or_introl eq_refl))).
Defined.

(** C9, as stated, fails: Bob joins a room in which Alice has a live
    stream; the notification is written to her stream, and the room has no
    history at all afterwards. *)
Lemma join_notification_is_not_stored :
  let s := Chat.serve Chat.new_ChatService bob_joins in
  Chat.sent s
    = [(1%nat, Chat.joinMessage "id-3" 1700000000200 "general" "bob" "Bob")] ∧
  Chat.messageHistory s !! "general"%string = None ∧
  Chat.messages (Chat.getHistory "general" None None s).1 = [].
Proof. by vm_compute. Qed.

(* ===================================================================== *)
(** * Part III.  Further properties of the code                           *)
(* ===================================================================== *)

(** ** withRetry, for every [maxRetries] *)

Module RetryMore.
Import ErrorHandling Resilience.

Section Facts.
Context {W V : Type}.
Implicit Types (operation : Operation W V) (w : W) (evs : list RetryEvent).

Lemma world_after_shift operation n w :
  world_after operation (S n) w = world_after operation n (operation w).2.
Proof.
  induction n as [|n IH]; [done|].
  change (world_after operation (S (S n)) w)
    with (operation (world_after operation (S n) w)).2.
  rewrite IH. done.
Qed.

Lemma outcome_shift operation i w :
  outcome operation (S i) w = outcome operation i (operation w).2.
Proof. unfold outcome. by rewrite world_after_shift. Qed.

(** The loop in closed form: it makes [k] attempts, all but the last of
    which fail transiently, and ends with the last one's outcome; it stops
    short of the attempts it has left only on a success or on a failure that
    is not transient. *)
Lemma withRetry_from_shape operation (m b : Z) (left : nat) :
  ∀ (a : Z) w c w' evs,
    Z.of_nat left = m - a + 1 → left ≠ O →
    withRetry_from operation m b left a w = (c, w', evs) →
    ∃ k : nat,
      (1 ≤ k ≤ left)%nat ∧
      evs = backoff b a k ∧
      w' = world_after operation k w ∧
      (∀ i, (S i < k)%nat →
         ∃ e, outcome operation i w = inl e ∧ transient e = true) ∧
      c = match outcome operation (k - 1) w with
          | inr v => Returned v
          | inl e => Thrown e
          end ∧
      ((k < left)%nat →
       match outcome operation (k - 1) w with
       | inr _ => True
       | inl e => transient e = false
       end).
Proof.
  induction left as [|left IH]; intros a w c w' evs Hleft Hpos Hrun; [done|].
  simpl in Hrun.
  destruct (operation w) as [[error|v] w1] eqn:Hop.
  - destruct (Z.eqb_spec a m) as [->|Hne].
    { inversion Hrun; subst. exists 1%nat.
      assert (left = O) as -> by lia.
      unfold outcome. simpl. rewrite Hop. simpl.
      repeat split; try done; try lia; intros; lia. }
    destruct (transient error) eqn:Htr.
    + destruct (withRetry_from operation m b left (a + 1) w1)
        as [[c1 w2] evs1] eqn:Hrec.
      inversion Hrun; subst; clear Hrun.
      destruct (IH (a + 1) w1 c w' evs1) as (k & Hk & Hevs & Hw & Hpre & Hc & Hstop);
        [lia|lia|done|].
      exists (S k). subst evs1.
      assert (w1 = (operation w).2) as Hw1 by (by rewrite Hop).
      replace (S k - 1)%nat with (S (k - 1)) by lia.
      rewrite outcome_shift, <- Hw1.
      repeat split.
      * lia.
      * lia.
      * destruct k as [|k]; [lia|]. done.
      * by rewrite world_after_shift, <- Hw1.
      * intros [|i] Hi.
        -- exists error. unfold outcome. simpl. by rewrite Hop.
        -- rewrite outcome_shift, <- Hw1. apply Hpre. lia.
      * done.
      * intros Hlt. apply Hstop. lia.
    + inversion Hrun; subst. exists 1%nat.
      unfold outcome. simpl. rewrite Hop. simpl.
      repeat split; try done; try lia; intros; lia.
  - inversion Hrun; subst. exists 1%nat.
    unfold outcome. simpl. rewrite Hop. simpl.
    repeat split; try done; try lia; intros; lia.
Qed.

Lemma attempts_backoff (b : Z) (k : nat) : ∀ a, attempts (backoff b a k) = k.
Proof.
  unfold attempts. induction k as [|k IH]; intros a; [done|].
  destruct k as [|k]; [done|].
  change (backoff b a (S (S k)))
    with (Attempt a :: Sleep (b * 2 ^ (a - 1)) :: backoff b (a + 1) (S k)).
  rewrite filter_cons_True by done. rewrite filter_cons_False by (simpl; auto).
  cbn [length]. f_equal. apply IH.
Qed.

Lemma total_pause_cons (ev : RetryEvent) evs :
  total_pause (ev :: evs) = pause ev + total_pause evs.
Proof. reflexivity. Qed.

Lemma total_pause_backoff (b : Z) (k : nat) :
  ∀ a, 1 ≤ a →
    total_pause (backoff b a (S k)) = b * 2 ^ (a - 1) * (2 ^ Z.of_nat k - 1).
Proof.
  induction k as [|k IH]; intros a Ha.
  - simpl. lia.
  - change (backoff b a (S (S k)))
      with (Attempt a :: Sleep (b * 2 ^ (a - 1)) :: backoff b (a + 1) (S k)).
    rewrite !total_pause_cons, IH by lia.
    replace (a + 1 - 1) with (a - 1 + 1) by lia.
    rewrite Z.pow_add_r by lia.
    rewrite Nat2Z.inj_succ, Z.pow_succ_r by lia.
    cbn [pause]. lia.
Qed.


(** X2.  What [withRetry] does, for every [maxRetries] of at least 1, in
    terms of how the successive calls of the operation settle: it makes [k]
    calls, pausing in between as the backoff prescribes; the first [k - 1]
    fail with one of the codes 14 (UNAVAILABLE), 4 (DEADLINE_EXCEEDED) and 8
    (RESOURCE_EXHAUSTED); the result is the success or the failure of call
    [k], unchanged; and [k] is less than [maxRetries] only if call [k]
    succeeded or failed with a code that is none of the three, or with no
    code. *)
Theorem withRetry_ends_with_first_final_outcome operation (m b : Z) w :
  1 ≤ m →
  ∃ k : nat,
    (1 ≤ k)%nat ∧ Z.of_nat k ≤ m ∧
    withRetry operation (Some m) (Some b) w
    = (match outcome operation (k - 1) w with
       | inr v => Returned v
       | inl e => Thrown e
       end,
       world_after operation k w,
       backoff b 1 k) ∧
    (∀ i, (S i < k)%nat →
       ∃ e, outcome operation i w = inl e ∧
            (code e = Some 14 ∨ code e = Some 4 ∨ code e = Some 8)) ∧
    (Z.of_nat k < m →
     match outcome operation (k - 1) w with
     | inr _ => True
     | inl e => code e ≠ Some 14 ∧ code e ≠ Some 4 ∧ code e ≠ Some 8
     end).
Proof.
  intros Hm. unfold withRetry. simpl.
  destruct (withRetry_from operation m b (Z.to_nat m) 1 w)
    as [[c w'] evs] eqn:Hrun.
  apply withRetry_from_shape in Hrun
    as (k & Hk & -> & -> & Hpre & -> & Hstop); [|lia|lia].
  exists k. split; [lia|]. split; [lia|]. split; [done|]. split.
  - intros i Hi. destruct (Hpre i Hi) as (e & He & Htr).
    exists e. split; [done|]. by apply RetryFacts.transient_codes.
  - intros Hlt. assert (k < Z.to_nat m)%nat as Hshort by lia.
    specialize (Hstop Hshort).
    destruct (outcome operation (k - 1) w) as [e|v]; [|done].
    assert (¬ (code e = Some 14 ∨ code e = Some 4 ∨ code e = Some 8)) as Hno.
    { rewrite <- RetryFacts.transient_codes. congruence. }
    tauto.
Qed.

(** X3.  The time [withRetry] spends waiting: after [k] attempts it has
    paused for [baseDelay * (2^(k-1) - 1)] in all, so never for more than
    [baseDelay * (2^(maxRetries-1) - 1)]: 3000 ms with the defaults. *)
Theorem withRetry_total_pause operation (m b : Z) w :
  1 ≤ m → 0 ≤ b →
  let evs := (withRetry operation (Some m) (Some b) w).2 in
  total_pause evs = b * (2 ^ (Z.of_nat (attempts evs) - 1) - 1) ∧
  total_pause evs ≤ b * (2 ^ (m - 1) - 1).
Proof.
  intros Hm Hb. unfold withRetry. simpl.
  destruct (withRetry_from operation m b (Z.to_nat m) 1 w)
    as [[c w'] evs] eqn:Hrun.
  apply withRetry_from_shape in Hrun as (k & Hk & -> & _); [|lia|lia].
  simpl. rewrite attempts_backoff.
  destruct k as [|k]; [lia|].
  rewrite total_pause_backoff by lia.
  replace (Z.of_nat (S k) - 1) with (Z.of_nat k) by lia.
  split; [simpl; lia|].
  assert (2 ^ Z.of_nat k ≤ 2 ^ (m - 1)) by (apply Z.pow_le_mono_r; lia).
  simpl. nia.
Qed.

End Facts.
End RetryMore.

(** ** CircuitBreaker, for every threshold and every interleaving *)

Module BreakerMore.
Import ErrorHandling Resilience.

Section Facts.
Context {V : Type}.
Implicit Types (cb : CircuitBreaker) (r : Run) (evs : list (Event V)).

Lemma execute_settle_keeps_settings (res : JsError + V) now cb :
  failureThreshold (execute_settle res now cb).1 = failureThreshold cb ∧
  resetTimeout (execute_settle res now cb).1 = resetTimeout cb.
Proof.
  destruct res as [e|v]; simpl; [|done].
  unfold onFailure. simpl. by destruct (_ <=? _).
Qed.

Lemma execute_settle_consistent (res : JsError + V) now cb :
  1 ≤ failureThreshold cb → consistent cb →
  consistent (execute_settle res now cb).1.
Proof.
  intros Hth Hcons. destruct res as [e|v]; simpl.
  - unfold onFailure. simpl.
    destruct (Z.leb_spec (failureThreshold cb) (failures cb + 1)).
    + done.
    + unfold consistent in *. simpl. destruct (state cb); lia.
  - unfold consistent. simpl. lia.
Qed.

Lemma execute_enter_consistent now cb cb' :
  execute_enter now cb = Invoked cb' →
  consistent cb → consistent cb' ∧
  failureThreshold cb' = failureThreshold cb ∧ resetTimeout cb' = resetTimeout cb.
Proof.
  unfold execute_enter, consistent.
  destruct (state cb) eqn:Hst.
  - intros [= <-]. by rewrite Hst.
  - destruct (now <? nextAttempt cb); [done|]. intros [= <-]. done.
  - intros [= <-]. by rewrite Hst.
Qed.

Lemma step_consistent r (ev : Event V) :
  1 ≤ failureThreshold (breaker r) → consistent (breaker r) →
  consistent (breaker (step r ev)) ∧
  failureThreshold (breaker (step r ev)) = failureThreshold (breaker r) ∧
  resetTimeout (breaker (step r ev)) = resetTimeout (breaker r).
Proof.
  intros Hth Hcons. destruct ev as [now|res now]; simpl.
  - destruct (execute_enter now (breaker r)) as [e|cb'] eqn:Hent; simpl; [done|].
    by apply (execute_enter_consistent now).
  - destruct (in_flight r); simpl; [done|].
    split; [by apply execute_settle_consistent|].
    apply execute_settle_keeps_settings.
Qed.

(** X4.  However calls and settlements interleave, the failure counter and
    the state of a breaker with a threshold of at least 1 stay in step: the
    breaker is CLOSED exactly while it has counted fewer failures than the
    threshold; and nothing changes its threshold or its reset timeout.  A
    breaker fresh from the constructor starts out so, unless it was given a
    negative threshold. *)
Theorem breaker_counter_agrees_with_state evs :
  (∀ r, 1 ≤ failureThreshold (breaker r) → consistent (breaker r) →
     consistent (breaker (run r evs)) ∧
     failureThreshold (breaker (run r evs)) = failureThreshold (breaker r) ∧
     resetTimeout (breaker (run r evs)) = resetTimeout (breaker r)) ∧
  (∀ options now,
     match opt_failureThreshold options with
     | Some n => 0 ≤ n
     | None => True
     end →
     1 ≤ failureThreshold (new_CircuitBreaker options now) ∧
     consistent (new_CircuitBreaker options now)).
Proof.
  split.
  - unfold run. induction evs as [|ev evs IH]; intros r Hth Hcons; [done|].
    simpl. destruct (step_consistent r ev Hth Hcons) as (Hc & Ht & Hr).
    destruct (IH (step r ev)) as (Hc' & Ht' & Hr'); [lia|done|].
    split; [done|]. split; congruence.
  - intros options now Hopt.
    assert (1 ≤ failureThreshold (new_CircuitBreaker options now)) as Hth.
    { simpl. unfold num_or. destruct (opt_failureThreshold options) as [n|]; [|lia].
      destruct (Z.eqb_spec n 0); lia. }
    split; [done|]. unfold consistent. simpl in *. lia.
Qed.

Lemma set_failures_same cb : set_failures (failures cb) cb = cb.
Proof. by destruct cb. Qed.

(** Failed calls one after the other on a CLOSED breaker, as long as the
    threshold is not reached, only count. *)
Lemma run_failed_calls_below (calls : list (Z * JsError * Z)) :
  ∀ r, state (breaker r) = CLOSED →
    failures (breaker r) + Z.of_nat (length calls) < failureThreshold (breaker r) →
    breaker (run r (calls ≫= failed_call (V:=V)))
    = set_failures (failures (breaker r) + Z.of_nat (length calls)) (breaker r) ∧
    invocations (run r (calls ≫= failed_call (V:=V)))
    = (invocations r + length calls)%nat ∧
    rejections (run r (calls ≫= failed_call (V:=V))) = rejections r ∧
    in_flight (run r (calls ≫= failed_call (V:=V))) = in_flight r.
Proof.
  unfold run. induction calls as [|[[t e] t'] calls IH]; intros r Hst Hlt.
  - simpl. rewrite Z.add_0_r, set_failures_same. repeat split; lia.
  - rewrite bind_cons, foldl_app.
    set (r1 := foldl step r (failed_call (t, e, t'))).
    simpl length in Hlt. rewrite Nat2Z.inj_succ in Hlt.
    assert (breaker r1 = set_failures (failures (breaker r) + 1) (breaker r)
            ∧ invocations r1 = S (invocations r) ∧ rejections r1 = rejections r
            ∧ in_flight r1 = in_flight r) as (Hb1 & Hi1 & Hr1 & Hf1).
    { subst r1. simpl. unfold execute_enter. rewrite Hst. simpl.
      unfold onFailure. simpl.
      by destruct (Z.leb_spec (failureThreshold (breaker r))
                     (failures (breaker r) + 1)); [lia|]. }
    clearbody r1.
    destruct (IH r1) as (Hb & Hi & Hr & Hf).
    { by rewrite Hb1. }
    { rewrite Hb1. simpl. lia. }
    rewrite Hb, Hi, Hr, Hf, Hb1, Hi1, Hr1, Hf1. simpl length.
    rewrite Nat2Z.inj_succ. repeat split; try lia.
    unfold set_failures. simpl. f_equal. lia.
Qed.

(** X5.  A breaker that is CLOSED with no failure counted and has a
    threshold [n] of at least 1: through fewer than [n] failed calls in a
    row it stays CLOSED, lets each of them through and counts them; the
    [n]-th failure opens it, with [nextAttempt] the clock at that failure
    plus the reset timeout. *)
Theorem breaker_opens_at_threshold cb (calls : list (Z * JsError * Z)) t e t' :
  state cb = CLOSED → failures cb = 0 → 1 ≤ failureThreshold cb →
  Z.of_nat (length calls) < failureThreshold cb →
  let r := run (V:=V) (start cb) (calls ≫= failed_call (V:=V)) in
  (state (breaker r) = CLOSED ∧
   failures (breaker r) = Z.of_nat (length calls) ∧
   invocations r = length calls ∧ rejections r = O) ∧
  (Z.of_nat (length calls) + 1 = failureThreshold cb →
   let r' := run r (failed_call (V:=V) (t, e, t')) in
   state (breaker r') = OPEN ∧
   nextAttempt (breaker r') = t' + resetTimeout cb ∧
   failures (breaker r') = failureThreshold cb ∧
   invocations r' = S (length calls) ∧ rejections r' = O).
Proof.
  intros Hst Hf Hth Hlen r.
  destruct (run_failed_calls_below calls (start cb)) as (Hb & Hi & Hr & Hfl);
    [done|simpl; lia|].
  fold r in Hb, Hi, Hr, Hfl. simpl in Hb, Hi, Hr, Hfl. rewrite Hf in Hb.
  simpl in Hb.
  clearbody r. split.
  - rewrite Hb. simpl. repeat split; try done; lia.
  - intros Hlast r'. subst r'. unfold run. simpl.
    unfold execute_enter. rewrite Hb. simpl. rewrite Hst, Hfl. simpl.
    unfold onFailure. simpl.
    destruct (Z.leb_spec (failureThreshold cb) (0 + Z.of_nat (length calls) + 1));
      [|lia].
    simpl. repeat split; try done; lia.
Qed.

(** X6.  While a breaker is OPEN and its [nextAttempt] has not come, no
    call gets through: however many calls arrive, each is rejected, the
    operation is never invoked, and the breaker stays as it is. *)
Theorem breaker_rejects_during_cooldown r evs :
  state (breaker r) = OPEN →
  Forall (is_call_before (nextAttempt (breaker r))) evs →
  let r' := run r evs in
  breaker r' = breaker r ∧ invocations r' = invocations r ∧
  in_flight r' = in_flight r ∧
  rejections r' = (rejections r + length evs)%nat.
Proof.
  intros Hst Hevs. unfold run. revert r Hst Hevs.
  induction evs as [|ev evs IH]; intros r Hst Hevs.
  - simpl. repeat split; lia.
  - apply Forall_cons in Hevs as [Hev Hevs].
    destruct ev as [now|res now]; [|done]. simpl in Hev.
    simpl. unfold execute_enter. rewrite Hst.
    destruct (Z.ltb_spec now (nextAttempt (breaker r))); [|lia].
    match goal with |- context [foldl step ?r1 _] =>
      destruct (IH r1) as (Hb & Hi & Hfl & Hr) end; [done|done|].
    simpl in *. rewrite Hb, Hi, Hfl, Hr. repeat split; lia.
Qed.

(** X7.  A settlement that arrives while the breaker is OPEN, from an
    operation invoked before it opened, is not ignored.  A success closes
    the breaker at once, so that the next call goes through although
    [nextAttempt] has not come; a failure moves [nextAttempt] to the clock
    at that failure plus the reset timeout. *)
Theorem settlement_while_open r (n : nat) :
  state (breaker r) = OPEN → in_flight r = S n →
  consistent (breaker r) →
  (∀ (v : V) t,
     let r' := step r (Settle (inr v) t) in
     state (breaker r') = CLOSED ∧ failures (breaker r') = 0 ∧
     ∀ now, execute_enter now (breaker r') = Invoked (breaker r')) ∧
  (∀ e t,
     let r' := step (V:=V) r (Settle (inl e) t) in
     state (breaker r') = OPEN ∧
     nextAttempt (breaker r') = t + resetTimeout (breaker r)).
Proof.
  intros Hst Hfl Hcons. split.
  - intros v t. simpl. rewrite Hfl. simpl. by repeat split.
  - intros e t. simpl. rewrite Hfl. simpl.
    unfold consistent in Hcons. rewrite Hst in Hcons.
    unfold onFailure. simpl.
    by destruct (Z.leb_spec (failureThreshold (breaker r)) (failures (breaker r) + 1));
      [|lia].
Qed.

End Facts.
End BreakerMore.

(** ** The error transforms *)

Module TransformFacts.
Import ErrorHandling Resilience.

Lemma str_or_nonempty a b : b ≠ ""%string → str_or a b ≠ ""%string.
Proof.
  intros Hb. unfold str_or. destruct a as [v|]; [|done].
  destruct (String.eqb_spec v ""); done.
Qed.

Lemma errorMap_nonempty c msg : errorMap c = Some msg → msg ≠ ""%string.
Proof.
  unfold errorMap.
  repeat (destruct (_ =? _); [by intros [= <-]|]). done.
Qed.

Lemma transformToGrpcError_instance error :
  instanceof_GrpcError (transformToGrpcError error) = true.
Proof.
  unfold transformToGrpcError.
  destruct (instanceof_GrpcError error) eqn:Hi; [done|].
  repeat match goal with
         | |- context [if ?b then _ else _] => destruct b; [done|]
         end.
  done.
Qed.

(** X8.  [transformToGrpcError] always yields a [GrpcError] and changes
    nothing when applied again.  A value that is already a [GrpcError] is
    passed on as it is; any other is given one of six codes, and unless its
    name or message picks one of the five specific ones it becomes INTERNAL
    with the fixed text, its own message dropped.  [serverErrorInterceptor]
    therefore calls back only when [next] throws, and then with a
    [GrpcError]. *)
Theorem transformToGrpcError_normalises error :
  instanceof_GrpcError (transformToGrpcError error) = true ∧
  transformToGrpcError (transformToGrpcError error) = transformToGrpcError error ∧
  (instanceof_GrpcError error = true → transformToGrpcError error = error) ∧
  (instanceof_GrpcError error = false →
   ∃ c, code (fields (transformToGrpcError error)) = Some c ∧
        c ∈ [3; 5; 16; 7; 6; 13] ∧
        (c ≠ 13 → message (fields (transformToGrpcError error))
                  = message (fields error)) ∧
        (c = 13 → message (fields (transformToGrpcError error))
                  = "Internal server error"%string)) ∧
  (∀ next, match serverErrorInterceptor next with
           | None => ∃ u, next = inr u
           | Some e => instanceof_GrpcError e = true ∧ ∃ thrown, next = inl thrown
           end).
Proof.
  pose proof (transformToGrpcError_instance error) as Hinst.
  split; [done|]. split; [|split; [|split]].
  - unfold transformToGrpcError at 1. by rewrite Hinst.
  - intros Hi. unfold transformToGrpcError. by rewrite Hi.
  - intros Hi. unfold transformToGrpcError. rewrite Hi.
    destruct (String.eqb _ _).
    { exists 3. simpl. split; [done|]. split; [set_solver|done]. }
    destruct (_ || _).
    { exists 5. simpl. split; [done|]. split; [set_solver|done]. }
    destruct (String.eqb _ _).
    { exists 16. simpl. split; [done|]. split; [set_solver|done]. }
    destruct (String.eqb _ _).
    { exists 7. simpl. split; [done|]. split; [set_solver|done]. }
    destruct (String.eqb _ _).
    { exists 6. simpl. split; [done|]. split; [set_solver|done]. }
    exists 13. simpl. split; [done|]. split; [set_solver|done].
  - intros [thrown|u]; simpl.
    + split; [apply transformToGrpcError_instance|by eexists].
    + by eexists.
Qed.

(** X9.  The Express handler answers an error that carries a numeric code
    other than 0 with one of seven statuses, none below 400, and repeats the
    code in the body; a code outside its table gets 500.  An error without
    such a code is answered with its own [status], else its own
    [statusCode], else 500.  The error text of the body is never empty; nor
    is the message that [transformGrpcError] gives a status, which for the
    seven codes of its table is the table's text whatever the details
    say. *)
Theorem error_answers_are_well_formed :
  (∀ err c, err_code err = Some c → c ≠ 0 →
     res_status (expressErrorHandler err) ∈ [400; 401; 403; 404; 409; 503; 500] ∧
     res_code (expressErrorHandler err) = Some c ∧
     (c ∉ [3; 16; 7; 5; 6; 14; 13] → res_status (expressErrorHandler err) = 500)) ∧
  (∀ err, err_code err = None ∨ err_code err = Some 0 →
     res_code (expressErrorHandler err) = None ∧
     res_status (expressErrorHandler err)
     = num_or (err_status err) (num_or (err_statusCode err) 500)) ∧
  (∀ err, res_error (expressErrorHandler err) ≠ ""%string) ∧
  (∀ status,
     transformed_message (transformGrpcError status) ≠ ""%string ∧
     transformed_code (transformGrpcError status) = status_code status ∧
     (∀ text, errorMap (status_code status) = Some text →
        transformed_message (transformGrpcError status) = text)).
Proof.
  split; [|split; [|split]].
  - intros err c Hc Hne. unfold expressErrorHandler. rewrite Hc.
    destruct (Z.eqb_spec c 0); [done|]. simpl.
    split; [|split; [done|]].
    + unfold httpStatusMap.
      repeat (destruct (_ =? _); [simpl; set_solver|]). simpl. set_solver.
    + intros Hout. unfold httpStatusMap.
      unfold ErrorCodes.INVALID_ARGUMENT, ErrorCodes.UNAUTHENTICATED,
        ErrorCodes.PERMISSION_DENIED, ErrorCodes.NOT_FOUND,
        ErrorCodes.ALREADY_EXISTS, ErrorCodes.UNAVAILABLE, ErrorCodes.INTERNAL.
      repeat match goal with
             | |- context [?x =? ?y] =>
               destruct (Z.eqb_spec x y) as [Heq|_];
                 [exfalso; apply Hout; rewrite Heq; set_solver|]
             end.
      done.
  - intros err [Hc|Hc]; unfold expressErrorHandler; rewrite Hc; done.
  - intros err. unfold expressErrorHandler.
    destruct (err_code err) as [c|]; [destruct (c =? 0)|]; simpl;
      by apply str_or_nonempty.
  - intros status. unfold transformGrpcError. simpl. split; [|split; [done|]].
    + destruct (errorMap (status_code status)) as [text|] eqn:Hmap.
      * simpl. apply errorMap_nonempty in Hmap.
        by destruct (String.eqb_spec text "").
      * simpl. by apply str_or_nonempty.
    + intros text Hmap. rewrite Hmap. simpl.
      apply errorMap_nonempty in Hmap. by destruct (String.eqb_spec text "").
Qed.

End TransformFacts.

(** ** LoadBalancer, every strategy *)

Module BalancerMore.
Import ErrorHandling LoadBalancing Balancing.

Section Facts.
Context (rand : nat → nat → nat).
Implicit Types (lb : LoadBalancer) (n k : nat).

Lemma leastConnections_fold (l rest : list string) :
  ∀ acc k, acc ∈ l → rest ⊆ l →
    (foldl (λ '(min, k) current,
              let minConnections := getConnectionCount rand k in
              let currentConnections := getConnectionCount rand (S k) in
              (if (currentConnections <? minConnections)%nat
               then current else min, S (S k)))
           (acc, k) rest).1 ∈ l.
Proof.
  induction rest as [|x rest IH]; intros acc k Hacc Hrest; [done|].
  simpl. apply IH.
  - destruct (_ <? _)%nat; [|done]. apply Hrest. by left.
  - intros y Hy. apply Hrest. by right.
Qed.

Lemma leastConnections_elem (l : list string) :
  l ≠ [] → ∃ e, leastConnections rand l = inr e ∧ e ∈ l.
Proof.
  destruct l as [|first rest]; [done|]. intros _. eexists. split; [done|].
  apply leastConnections_fold; [by left|]. intros y Hy. by right.
Qed.

Lemma getEndpoint_keeps_health lb :
  healthyEndpoints (getEndpoint rand lb).2 = healthyEndpoints lb ∧
  endpoints (getEndpoint rand lb).2 = endpoints lb ∧
  strategy (getEndpoint rand lb).2 = strategy lb ∧
  lastHealthCheck (getEndpoint rand lb).2 = lastHealthCheck lb.
Proof.
  unfold getEndpoint. case_bool_decide; [done|].
  repeat (destruct (String.eqb _ _); [done|]). done.
Qed.

(** X10.  Whatever the strategy, [getEndpoint] on a balancer with a healthy
    endpoint returns one of the healthy endpoints (for "random", given that
    the random index is within the array, as [Math.floor(Math.random() * n)]
    is).  "random" and "least-connections" leave the cursor where it is; any
    other strategy name is served round-robin and moves the cursor by
    one. *)
Theorem getEndpoint_returns_healthy lb :
  healthyEndpoints lb ≠ [] →
  (strategy lb = "random"%string →
   (rand O (length (healthyEndpoints lb)) < length (healthyEndpoints lb))%nat) →
  (∃ e, (getEndpoint rand lb).1 = inr (Some e) ∧ e ∈ healthyEndpoints lb) ∧
  (if bool_decide (strategy lb = "random"%string
                   ∨ strategy lb = "least-connections"%string)
   then (getEndpoint rand lb).2 = lb
   else (getEndpoint rand lb).2 = set_currentIndex (S (currentIndex lb)) lb ∧
        (getEndpoint rand lb).1
        = inr (healthyEndpoints lb
                 !! (currentIndex lb mod length (healthyEndpoints lb))%nat)).
Proof.
  intros Hne Hrand. unfold getEndpoint.
  rewrite bool_decide_eq_false_2 by (by destruct (healthyEndpoints lb)).
  assert (∃ e, healthyEndpoints lb
                 !! (currentIndex lb mod length (healthyEndpoints lb))%nat = Some e
               ∧ e ∈ healthyEndpoints lb) as (e & He & Hin).
  { destruct (lookup_lt_is_Some_2 (healthyEndpoints lb)
                (currentIndex lb mod length (healthyEndpoints lb))%nat) as [e He].
    - apply Nat.mod_upper_bound. by destruct (healthyEndpoints lb).
    - exists e. split; [done|]. by eapply list_elem_of_lookup_2. }
  destruct (String.eqb_spec (strategy lb) "round-robin") as [Hs|Hs1].
  { rewrite bool_decide_eq_false_2 by (rewrite Hs; intros [|]; discriminate).
    simpl. rewrite He. eauto. }
  destruct (String.eqb_spec (strategy lb) "random") as [Hs|Hs2].
  { rewrite bool_decide_eq_true_2 by (by left). simpl. split; [|done].
    unfold random.
    destruct (lookup_lt_is_Some_2 (healthyEndpoints lb)
                (rand O (length (healthyEndpoints lb)))) as [e' He'];
      [by apply Hrand|].
    exists e'. rewrite He'. split; [done|]. by eapply list_elem_of_lookup_2. }
  destruct (String.eqb_spec (strategy lb) "least-connections") as [Hs|Hs3].
  { rewrite bool_decide_eq_true_2 by (by right). simpl. split; [|done].
    destruct (leastConnections_elem (healthyEndpoints lb) Hne) as (e' & -> & He').
    eauto. }
  rewrite bool_decide_eq_false_2 by (intros [|]; done).
  simpl. rewrite He. eauto.
Qed.

(** Reading an array of length [n] at [(i + k) mod n] for [k] from 0 to
    [n - 1] reads it once around, starting at [i mod n]. *)
Lemma read_around {A} (h : list A) (i : nat) :
  h ≠ [] →
  (λ k, h !! ((i + k) mod length h)%nat) <$> seq 0 (length h)
  = Some <$> (drop (i mod length h) h ++ take (i mod length h) h).
Proof.
  intros Hne. assert (length h ≠ O) as Hn by (by destruct h).
  pose proof (Nat.mod_upper_bound i (length h) Hn) as Hd.
  set (d := (i mod length h)%nat) in *.
  apply list_eq. intros k.
  rewrite !list_lookup_fmap.
  destruct (decide (k < length h)%nat) as [Hk|Hk].
  - rewrite lookup_seq_lt by done. simpl.
    assert ((i + k) mod length h = (d + k) mod length h)%nat as ->.
    { subst d. by rewrite Nat.Div0.add_mod_idemp_l. }
    destruct (decide (d + k < length h)%nat) as [Hlt|Hge].
    + rewrite Nat.mod_small by done.
      rewrite lookup_app_l by (rewrite length_drop; lia).
      rewrite lookup_drop.
      destruct (lookup_lt_is_Some_2 h (d + k)%nat Hlt) as [x ->]. done.
    + assert ((d + k) mod length h = d + k - length h)%nat as ->.
      { symmetry. apply (Nat.mod_unique _ _ 1); lia. }
      rewrite lookup_app_r by (rewrite length_drop; lia).
      rewrite length_drop, lookup_take_lt by lia.
      replace (k - (length h - d))%nat with (d + k - length h)%nat by lia.
      destruct (lookup_lt_is_Some_2 h (d + k - length h)%nat) as [x ->]; [lia|].
      done.
  - rewrite lookup_seq_ge by lia. simpl.
    rewrite lookup_ge_None_2; [done|].
    rewrite length_app, length_drop, length_take. lia.
Qed.

(** X11.  Round-robin is fair over every full turn: on a balancer served
    round-robin with [n] healthy endpoints, any [n] calls in a row, wherever
    the cursor stands, return each healthy endpoint exactly once. *)
Theorem round_robin_serves_each_once lb :
  strategy lb = "round-robin"%string → healthyEndpoints lb ≠ [] →
  NoDup (healthyEndpoints lb) →
  let results := (getEndpoint_times rand (length (healthyEndpoints lb)) lb).1 in
  results ≡ₚ (λ e, inr (Some e)) <$> healthyEndpoints lb ∧ NoDup results.
Proof.
  intros Hs Hne Hnd results.
  assert (results = (λ e, inr (Some e))
            <$> (drop (currentIndex lb mod length (healthyEndpoints lb))
                      (healthyEndpoints lb)
                 ++ take (currentIndex lb mod length (healthyEndpoints lb))
                      (healthyEndpoints lb))) as Hres.
  { subst results. rewrite BalancerFacts.getEndpoint_times_round_robin by done.
    simpl.
    trans ((inr : option string → JsError + option string)
             <$> ((λ k, healthyEndpoints lb
                          !! ((currentIndex lb + k)
                              mod length (healthyEndpoints lb))%nat)
                    <$> seq 0 (length (healthyEndpoints lb)))).
    { by rewrite <- list_fmap_compose. }
    rewrite read_around by done. by rewrite <- list_fmap_compose. }
  assert (drop (currentIndex lb mod length (healthyEndpoints lb)) (healthyEndpoints lb)
          ++ take (currentIndex lb mod length (healthyEndpoints lb)) (healthyEndpoints lb)
          ≡ₚ healthyEndpoints lb) as Hperm.
  { rewrite Permutation_app_comm. by rewrite take_drop. }
  rewrite Hres. split.
  - by rewrite Hperm.
  - apply NoDup_fmap_2; [intros x y [=]; done|]. by rewrite Hperm.
Qed.

(** *** The healthy set *)

Lemma elem_of_of_list_from (l s : list string) x :
  x ∈ foldl (λ s x, JsSet.add x s) s l ↔ x ∈ s ∨ x ∈ l.
Proof.
  revert s. induction l as [|y l IH]; intros s; simpl.
  - rewrite elem_of_nil. tauto.
  - rewrite IH, JsSetFacts.elem_of_add, elem_of_cons. tauto.
Qed.

Lemma NoDup_of_list_from (l s : list string) :
  NoDup s → NoDup (foldl (λ s x, JsSet.add x s) s l).
Proof.
  revert s. induction l as [|y l IH]; intros s Hs; simpl; [done|].
  by apply IH, JsSetFacts.NoDup_add.
Qed.

Lemma use_keeps_healthy_a_set lb (u : Use) :
  own_probe lb u →
  NoDup (healthyEndpoints lb) → healthyEndpoints lb ⊆ endpoints lb →
  NoDup (healthyEndpoints (use rand lb u)) ∧
  healthyEndpoints (use rand lb u) ⊆ endpoints (use rand lb u) ∧
  endpoints (use rand lb u) = endpoints lb.
Proof.
  intros Hown Hnd Hsub. destruct u as [|e probe now|e]; simpl.
  - destruct (getEndpoint_keeps_health lb) as (-> & -> & _). done.
  - destruct probe as [msg|]; simpl.
    + split; [by apply JsSetFacts.NoDup_delete|]. split; [|done].
      intros x [_ Hx]%JsSetFacts.elem_of_delete. by apply Hsub.
    + split; [by apply JsSetFacts.NoDup_add|]. split; [|done].
      intros x [->|Hx]%JsSetFacts.elem_of_add; [done|by apply Hsub].
  - split; [by apply JsSetFacts.NoDup_delete|]. split; [|done].
    intros x [_ Hx]%JsSetFacts.elem_of_delete. by apply Hsub.
Qed.

(** X12.  Over the whole life of a balancer, from its constructor on,
    through calls of [getEndpoint], health probes of its own endpoints and
    calls of [markUnhealthy]: the healthy set lists no endpoint twice and
    only endpoints the balancer was made with, the endpoint list itself
    never changes, and the health status never reports more healthy
    endpoints than endpoints in total. *)
Theorem healthy_set_stays_within_endpoints (eps : list string) strategy
    (uses : list Use) :
  let lb0 := new_LoadBalancer eps strategy in
  Forall (own_probe lb0) uses →
  let lb := foldl (use rand) lb0 uses in
  NoDup (healthyEndpoints lb) ∧
  healthyEndpoints lb ⊆ eps ∧
  endpoints lb = eps ∧
  (healthy (getHealthStatus lb) ≤ total (getHealthStatus lb))%nat.
Proof.
  intros lb0 Huses lb.
  assert (NoDup (healthyEndpoints lb) ∧ healthyEndpoints lb ⊆ endpoints lb
          ∧ endpoints lb = eps) as (Hnd & Hsub & Heps).
  { subst lb.
    assert (NoDup (healthyEndpoints lb0) ∧ healthyEndpoints lb0 ⊆ endpoints lb0
            ∧ endpoints lb0 = eps) as Hinit.
    { split; [by apply NoDup_of_list_from, NoDup_nil_2|]. split; [|done].
      intros x Hx. apply elem_of_of_list_from in Hx as [Hx|Hx]; [|done].
      by apply elem_of_nil in Hx. }
    assert (∀ u, own_probe lb0 u → endpoints lb0 = eps) as _ by done.
    assert (∀ lb1, endpoints lb1 = eps →
              Forall (own_probe lb1) uses ↔ Forall (own_probe lb0) uses) as Hown.
    { intros lb1 H1. apply Forall_proper; [|done]. intros [| |]; simpl; by rewrite ?H1. }
    clearbody lb0. revert lb0 Huses Hinit Hown.
    induction uses as [|u uses IH]; intros lb0 Huses Hinit Hown; [done|].
    apply Forall_cons in Huses as [Hu Huses].
    destruct Hinit as (Hnd & Hsub & Heps). simpl.
    destruct (use_keeps_healthy_a_set lb0 u Hu Hnd Hsub) as (Hnd' & Hsub' & Heps').
    apply IH.
    - eapply Forall_impl; [exact Huses|].
      intros [| |]; simpl; by rewrite ?Heps'.
    - split; [done|]. split; [done|]. by rewrite Heps'.
    - intros lb1 H1. apply Forall_proper; [|done].
      intros [| |]; simpl; by rewrite ?H1, ?Heps', ?Heps. }
  split; [done|]. split; [by rewrite <- Heps|]. split; [done|].
  simpl. apply submseteq_length, NoDup_submseteq; done.
Qed.

(** X13.  An endpoint that is marked unhealthy and then found healthy by a
    probe is back in the healthy set, but at the end of the rotation, not at
    its old place.  Marking an endpoint that is not in the healthy set
    changes nothing, and so does marking it a second time. *)
Theorem recovered_endpoint_goes_last lb e now :
  NoDup (healthyEndpoints lb) →
  healthyEndpoints (checkHealth e None now (markUnhealthy e lb))
  = JsSet.delete e (healthyEndpoints lb) ++ [e] ∧
  (e ∉ healthyEndpoints lb → markUnhealthy e lb = lb) ∧
  markUnhealthy e (markUnhealthy e lb) = markUnhealthy e lb.
Proof.
  intros Hnd. split; [|split].
  - simpl. apply JsSetFacts.add_absent.
    rewrite JsSetFacts.elem_of_delete. tauto.
  - intros Hout. unfold markUnhealthy.
    rewrite JsSetFacts.delete_absent by done. by destruct lb.
  - unfold markUnhealthy. simpl.
    rewrite (JsSetFacts.delete_absent e (JsSet.delete e _)); [done|].
    rewrite JsSetFacts.elem_of_delete. tauto.
Qed.

End Facts.
End BalancerMore.

(** ** LoadBalancedGrpcClient.call *)

Module ClientFacts.
Import ErrorHandling LoadBalancing Balancing.

Section Facts.
Context {W V : Type} (rpc : option string → Operation W V).
Context (rand : nat → nat → nat).
Implicit Types (c : LoadBalancedGrpcClient) (w : W).

Lemma call_from_keeps_health (left : nat) :
  ∀ lastError c w r c' w' tried,
    call_from rpc rand left lastError c w = (r, c', w', tried) →
    healthyEndpoints (loadBalancer c') = healthyEndpoints (loadBalancer c) ∧
    endpoints (loadBalancer c') = endpoints (loadBalancer c) ∧
    maxRetries c' = maxRetries c ∧
    (length tried ≤ left)%nat.
Proof.
  induction left as [|left IH]; intros lastError c w r c' w' tried Hcall.
  - simpl in Hcall. inversion Hcall; subst. repeat split; simpl; lia.
  - simpl in Hcall.
    destruct (getEndpoint rand (loadBalancer c)) as [picked lb] eqn:Hget.
    pose proof (BalancerMore.getEndpoint_keeps_health rand (loadBalancer c))
      as (Hh & He & _).
    rewrite Hget in Hh, He. simpl in Hh, He.
    destruct picked as [error|ep].
    + case_bool_decide.
      { inversion Hcall; subst. simpl. repeat split; try done; lia. }
      destruct (client_error error).
      { inversion Hcall; subst. simpl. repeat split; try done; lia. }
      apply IH in Hcall as (Hh' & He' & Hm' & Hl'). simpl in *.
      repeat split; try congruence; lia.
    + destruct (rpc ep w) as [[error|response] w1].
      * case_bool_decide.
        { inversion Hcall; subst. destruct ep; simpl; repeat split; try done; lia. }
        destruct (client_error error).
        { inversion Hcall; subst. destruct ep; simpl; repeat split; try done; lia. }
        destruct (call_from rpc rand left (Some error) _ w1)
          as [[[r1 c1] w2] tried1] eqn:Hrec.
        inversion Hcall; subst.
        apply IH in Hrec as (Hh' & He' & Hm' & Hl').
        destruct ep; simpl in *; repeat split; try congruence; lia.
      * inversion Hcall; subst. destruct ep; simpl; repeat split; try done; lia.
Qed.

(** X14.  [call] never takes an endpoint out of rotation: whatever the
    strategy and however the requests end, the healthy set after the call is
    the healthy set before it.  And it makes at most [maxRetries]
    requests. *)
Theorem call_never_marks_unhealthy c w :
  let '(_, c', _, tried) := call rpc rand c w in
  healthyEndpoints (loadBalancer c') = healthyEndpoints (loadBalancer c) ∧
  endpoints (loadBalancer c') = endpoints (loadBalancer c) ∧
  Z.of_nat (length tried) ≤ Z.max 0 (maxRetries c).
Proof.
  unfold call.
  destruct (call_from rpc rand (Z.to_nat (maxRetries c)) None c w)
    as [[[r c'] w'] tried] eqn:Hcall.
  apply call_from_keeps_health in Hcall as (Hh & He & _ & Hl).
  repeat split; try done. lia.
Qed.

(** The codes on which [call] gives up at once. *)
Lemma client_error_codes (error : JsError) :
  client_error error = true
  ↔ code error = Some 3 ∨ code error = Some 16 ∨ code error = Some 7.
Proof.
  unfold client_error, ErrorCodes.INVALID_ARGUMENT, ErrorCodes.UNAUTHENTICATED,
    ErrorCodes.PERMISSION_DENIED.
  rewrite !orb_true_iff, !bool_decide_eq_true. tauto.
Qed.

(** X15.  How the first request of a [call] decides it.  A success
    resolves the call.  A failure with code 3 (INVALID_ARGUMENT), 16
    (UNAUTHENTICATED) or 7 (PERMISSION_DENIED) rejects it with that failure,
    with no second request.  A failure with code 14 (UNAVAILABLE) rejects it
    too with no second request, and with a ReferenceError in place of the
    failure: the statement that was to mark the endpoint unhealthy names a
    variable that is out of scope there. *)
Theorem call_first_request c w ep :
  1 ≤ maxRetries c →
  (getEndpoint rand (loadBalancer c)).1 = inr ep →
  let '(r, _, w', tried) := call rpc rand c w in
  match rpc ep w with
  | (inr response, w1) => r = Resolved response ∧ w' = w1 ∧ tried = [ep]
  | (inl error, w1) =>
    (code error = Some 14 →
     r = RejectedWith endpoint_is_not_defined ∧ w' = w1 ∧ tried = [ep]) ∧
    (code error = Some 3 ∨ code error = Some 16 ∨ code error = Some 7 →
     r = RejectedWith error ∧ w' = w1 ∧ tried = [ep])
  end.
Proof.
  intros Hm Hget. unfold call.
  destruct (Z.to_nat (maxRetries c)) as [|left] eqn:Hleft; [lia|].
  simpl.
  destruct (getEndpoint rand (loadBalancer c)) as [picked lb]. simpl in Hget.
  subst picked.
  destruct (rpc ep w) as [[error|response] w1]; [|done].
  unfold ErrorCodes.UNAVAILABLE. case_bool_decide as H14.
  - simpl. split; [done|]. rewrite H14. intros [|[|]]; discriminate.
  - destruct (client_error error) eqn:Hce; simpl.
    + by split.
    + destruct (call_from rpc rand left (Some error) _ w1) as [[[r1 c1] w2] tried1].
      split; [done|]. intros Hcodes%client_error_codes. congruence.
Qed.

Lemma call_from_no_healthy (left : nat) :
  ∀ lastError c w,
    healthyEndpoints (loadBalancer c) = [] →
    call_from rpc rand left lastError c w
    = (match left, lastError with
       | O, None => RejectedUndefined
       | O, Some e => RejectedWith e
       | S _, _ => RejectedWith no_healthy_endpoints
       end, c, w, []).
Proof.
  induction left as [|left IH]; intros lastError c w Hempty.
  - by destruct lastError.
  - simpl. rewrite BalancerFacts.getEndpoint_empty by done.
    rewrite bool_decide_eq_false_2 by done. simpl.
    assert (set_loadBalancer (loadBalancer c) c = c) as -> by (by destruct c).
    rewrite IH by done. by destruct left.
Qed.

(** X16.  A [call] that makes no request.  With no healthy endpoint it
    goes through all its rounds, each failing in [getEndpoint], and rejects
    with "No healthy endpoints available"; with a [maxRetries] of 0 or less
    the loop does not run and it rejects with [undefined].  Either way
    client and world are left as they were. *)
Theorem call_without_request c w :
  (healthyEndpoints (loadBalancer c) = [] → 1 ≤ maxRetries c →
   call rpc rand c w = (RejectedWith no_healthy_endpoints, c, w, [])) ∧
  (maxRetries c ≤ 0 → call rpc rand c w = (RejectedUndefined, c, w, [])).
Proof.
  split.
  - intros Hempty Hm. unfold call. rewrite call_from_no_healthy by done.
    destruct (Z.to_nat (maxRetries c)) eqn:Hn; [lia|done].
  - intros Hm. unfold call. by replace (Z.to_nat (maxRetries c)) with O by lia.
Qed.


End Facts.
End ClientFacts.

(** ** ServiceRegistry *)

Module RegistryFacts.
Import Balancing.

Implicit Types (reg : ServiceRegistry) (l : list ServiceEntry).

Lemma list_find_endpoint_None l e :
  list_find (λ s, endpoint s = e) l = None → e ∉ endpoint <$> l.
Proof.
  intros Hnone Hin. apply list_elem_of_fmap in Hin as (s & -> & Hs).
  apply list_find_None in Hnone. rewrite Forall_forall in Hnone.
  by apply (Hnone s).
Qed.

Lemma list_find_endpoint_Some l e i s :
  list_find (λ s, endpoint s = e) l = Some (i, s) →
  l !! i = Some s ∧ endpoint s = e ∧ e ∈ endpoint <$> l.
Proof.
  intros (Hi & He & _)%list_find_Some. split; [done|]. split; [done|].
  apply list_elem_of_fmap. exists s. split; [done|].
  by eapply list_elem_of_lookup_2.
Qed.

(** The array of a service after [register]. *)
Lemma getService_register name e md now reg :
  getService name (register name e md now reg) =
    let entry := {| endpoint := e; metadata := default [] md; lastSeen := now |} in
    match list_find (λ s, endpoint s = e) (getService name reg) with
    | Some (i, _) => <[i := entry]> (getService name reg)
    | None => getService name reg ++ [entry]
    end.
Proof. unfold getService, register. simpl. by rewrite lookup_insert_eq. Qed.

Lemma getEndpoints_register name e md now reg :
  getEndpoints name (register name e md now reg) =
    if decide (e ∈ getEndpoints name reg) then getEndpoints name reg
    else getEndpoints name reg ++ [e].
Proof.
  unfold getEndpoints. rewrite getService_register. simpl.
  destruct (list_find _ (getService name reg)) as [[i s]|] eqn:Hfind.
  - apply list_find_endpoint_Some in Hfind as (Hi & He & Hin).
    rewrite decide_True by done.
    rewrite list_fmap_insert. simpl. apply list_insert_id.
    by rewrite list_lookup_fmap, Hi, <- He.
  - apply list_find_endpoint_None in Hfind.
    rewrite decide_False by done. by rewrite fmap_app.
Qed.

Lemma getService_other_register name other e md now reg :
  other ≠ name → getService other (register name e md now reg) = getService other reg.
Proof. intros. unfold getService, register. simpl. by rewrite lookup_insert_ne. Qed.

Lemma getService_unregister name e reg :
  getService name (unregister name e reg)
  = filter (λ s, endpoint s ≠ e) (getService name reg).
Proof.
  unfold getService, unregister.
  destruct (services reg !! name) as [l|] eqn:Hl; simpl.
  - by rewrite lookup_insert_eq.
  - by rewrite Hl.
Qed.

Lemma getService_other_unregister name other e reg :
  other ≠ name → getService other (unregister name e reg) = getService other reg.
Proof.
  intros. unfold getService, unregister.
  destruct (services reg !! name); simpl; [|done]. by rewrite lookup_insert_ne.
Qed.

Lemma getService_cleanup name maxAge now reg :
  getService name (cleanup maxAge now reg)
  = filter (λ s, now - lastSeen s < default 300000 maxAge) (getService name reg).
Proof.
  unfold getService, cleanup. simpl. rewrite lookup_fmap.
  by destruct (services reg !! name).
Qed.

Lemma fmap_filter_endpoint e l :
  endpoint <$> filter (λ s, endpoint s ≠ e) l
  = filter (λ x, x ≠ e) (endpoint <$> l).
Proof.
  induction l as [|s l IH]; [done|]. rewrite fmap_cons.
  destruct (decide (endpoint s = e)).
  - by rewrite !filter_cons_False by naive_solver.
  - rewrite !filter_cons_True by done. by rewrite fmap_cons, IH.
Qed.

Lemma NoDup_endpoints_filter (P : ServiceEntry → Prop) `{∀ x, Decision (P x)} l :
  NoDup (endpoint <$> l) → NoDup (endpoint <$> filter P l).
Proof.
  induction l as [|s l IH]; [done|]. rewrite fmap_cons, NoDup_cons.
  intros [Hs Hl]. destruct (decide (P s)).
  - rewrite filter_cons_True by done. rewrite fmap_cons, NoDup_cons.
    split; [|by apply IH]. intros Hin. apply Hs.
    apply list_elem_of_fmap in Hin as (s' & -> & Hs').
    apply list_elem_of_filter in Hs' as [_ Hs'].
    apply list_elem_of_fmap. eauto.
  - rewrite filter_cons_False by done. by apply IH.
Qed.

(** X18.  [register] lists the endpoint under the service exactly where it
    was if it was listed already, and else at the end; it never lists an
    endpoint twice; the entry it leaves for the endpoint carries the new
    metadata and time; and no other service changes. *)
Theorem register_lists_endpoint_once name e md now reg :
  NoDup (getEndpoints name reg) →
  let reg' := register name e md now reg in
  getEndpoints name reg'
  = (if decide (e ∈ getEndpoints name reg) then getEndpoints name reg
     else getEndpoints name reg ++ [e]) ∧
  e ∈ getEndpoints name reg' ∧
  NoDup (getEndpoints name reg') ∧
  (∀ s, s ∈ getService name reg' → endpoint s = e →
        s = {| endpoint := e; metadata := default [] md; lastSeen := now |}) ∧
  (∀ other, other ≠ name → getService other reg' = getService other reg).
Proof.
  intros Hnd reg'. subst reg'.
  split; [apply getEndpoints_register|].
  split; [|split; [|split]].
  - rewrite getEndpoints_register. case_decide; [done|].
    apply elem_of_app. right. by left.
  - rewrite getEndpoints_register. case_decide; [done|].
    apply NoDup_app. split; [done|]. split; [|apply NoDup_singleton].
    intros x Hx ->%list_elem_of_singleton. done.
  - intros s Hs He. rewrite getService_register in Hs. simpl in Hs.
    unfold getEndpoints in Hnd.
    destruct (list_find _ (getService name reg)) as [[i s0]|] eqn:Hfind.
    + apply list_find_endpoint_Some in Hfind as (Hi & He0 & _).
      apply list_elem_of_lookup in Hs as [j Hj].
      destruct (decide (i = j)) as [->|Hne].
      * rewrite list_lookup_insert_eq in Hj by (by eapply lookup_lt_Some).
        by inversion Hj.
      * rewrite list_lookup_insert_ne in Hj by done.
        exfalso. apply Hne.
        apply (NoDup_lookup (endpoint <$> getService name reg) i j e); [done|..].
        -- by rewrite list_lookup_fmap, Hi, <- He0.
        -- by rewrite list_lookup_fmap, Hj, <- He.
    + apply list_find_endpoint_None in Hfind.
      apply elem_of_app in Hs as [Hs|Hs].
      * exfalso. apply Hfind. apply list_elem_of_fmap. eauto.
      * by apply list_elem_of_singleton in Hs.
  - intros other Hne. by apply getService_other_register.
Qed.

(** X19.  [unregister] takes every entry of the endpoint out of the
    service's array and leaves the others in their order; the endpoint is no
    longer listed; other services do not change; and a service that was
    never registered stays unknown. *)
Theorem unregister_removes_endpoint name e reg :
  let reg' := unregister name e reg in
  getEndpoints name reg' = filter (λ x, x ≠ e) (getEndpoints name reg) ∧
  (e ∉ getEndpoints name reg') ∧
  (∀ other, other ≠ name → getService other reg' = getService other reg) ∧
  (services reg !! name = None → reg' = reg).
Proof.
  intros reg'. subst reg'.
  assert (getEndpoints name (unregister name e reg)
          = filter (λ x, x ≠ e) (getEndpoints name reg)) as Heq.
  { unfold getEndpoints. rewrite getService_unregister.
    apply fmap_filter_endpoint. }
  split; [done|]. split; [|split].
  - rewrite Heq, list_elem_of_filter. tauto.
  - intros other Hne. by apply getService_other_unregister.
  - intros Hnone. unfold unregister. by rewrite Hnone.
Qed.

Lemma registry_call_unique reg (c : RegistryCall) :
  endpoints_unique reg → endpoints_unique (registry_call reg c).
Proof.
  intros Huniq name. destruct c as [sn e md now|sn e|maxAge now]; simpl.
  - destruct (decide (name = sn)) as [->|Hne].
    + rewrite getEndpoints_register. case_decide; [apply Huniq|].
      apply NoDup_app. split; [apply Huniq|]. split; [|apply NoDup_singleton].
      intros x Hx ->%list_elem_of_singleton. done.
    + unfold getEndpoints. rewrite getService_other_register by done. apply Huniq.
  - destruct (decide (name = sn)) as [->|Hne].
    + unfold getEndpoints. rewrite getService_unregister.
      apply NoDup_endpoints_filter, Huniq.
    + unfold getEndpoints. rewrite getService_other_unregister by done. apply Huniq.
  - unfold getEndpoints. rewrite getService_cleanup.
    apply NoDup_endpoints_filter, Huniq.
Qed.

(** X20.  Whatever calls of [register], [unregister] and [cleanup] a
    registry has seen since it was made, no service lists an endpoint
    twice. *)
Theorem registry_never_lists_twice (calls : list RegistryCall) :
  endpoints_unique (foldl registry_call new_ServiceRegistry calls).
Proof.
  assert (endpoints_unique new_ServiceRegistry) as Hinit.
  { intros name. unfold getEndpoints, getService. simpl.
    rewrite lookup_empty. apply NoDup_nil_2. }
  revert Hinit. generalize new_ServiceRegistry.
  induction calls as [|c calls IH]; intros reg Hreg; [done|].
  simpl. by apply IH, registry_call_unique.
Qed.

(** X21.  [cleanup] keeps exactly the entries last seen less than [maxAge]
    ago, 300000 ms when no [maxAge] is given.  So an endpoint registered at
    time [t] is still listed after a [cleanup] at time [t'] exactly if
    [t' - t < maxAge], whatever was known of it before: registering again
    renews it. *)
Theorem cleanup_keeps_recently_seen name e md t maxAge t' reg :
  NoDup (getEndpoints name reg) →
  (∀ other,
     getService other (cleanup maxAge t' reg)
     = filter (λ s, t' - lastSeen s < default 300000 maxAge) (getService other reg)) ∧
  (e ∈ getEndpoints name (cleanup maxAge t' (register name e md t reg))
   ↔ t' - t < default 300000 maxAge).
Proof.
  intros Hnd. split; [intros other; apply getService_cleanup|].
  unfold getEndpoints at 1. rewrite getService_cleanup.
  rewrite list_elem_of_fmap. split.
  - intros (s & He & Hs). apply list_elem_of_filter in Hs as [Hfresh Hs].
    rewrite getService_register in Hs. simpl in Hs.
    assert (s = {| endpoint := e; metadata := default [] md; lastSeen := t |})
      as ->; [|done].
    unfold getEndpoints in Hnd.
    destruct (list_find _ (getService name reg)) as [[i s0]|] eqn:Hfind.
    + apply list_find_endpoint_Some in Hfind as (Hi & He0 & _).
      apply list_elem_of_lookup in Hs as [j Hj].
      destruct (decide (i = j)) as [->|Hne].
      * rewrite list_lookup_insert_eq in Hj by (by eapply lookup_lt_Some).
        by inversion Hj.
      * rewrite list_lookup_insert_ne in Hj by done.
        exfalso. apply Hne.
        apply (NoDup_lookup (endpoint <$> getService name reg) i j e); [done|..].
        -- by rewrite list_lookup_fmap, Hi, <- He0.
        -- by rewrite list_lookup_fmap, Hj, He.
    + apply list_find_endpoint_None in Hfind.
      apply elem_of_app in Hs as [Hs|Hs].
      * exfalso. apply Hfind. apply list_elem_of_fmap. eauto.
      * by apply list_elem_of_singleton in Hs.
  - intros Hfresh.
    exists {| endpoint := e; metadata := default [] md; lastSeen := t |}.
    split; [done|]. apply list_elem_of_filter. split; [done|].
    rewrite getService_register. simpl.
    destruct (list_find _ (getService name reg)) as [[i s0]|] eqn:Hfind.
    + apply list_find_endpoint_Some in Hfind as (Hi & _).
      apply list_elem_of_lookup. exists i.
      apply list_lookup_insert_eq. by eapply lookup_lt_Some.
    + apply elem_of_app. right. by left.
Qed.

End RegistryFacts.

(** ** The chat service: invariants and the remaining handlers *)

Module ChatMore.
Import ErrorHandling Chat ChatState ChatFacts.

Implicit Types (s : ChatService) (message m : Message) (users : list string).

Ltac requests r :=
  destruct r as [h md wt|h uuid now msg|h uuid now|uuid now rid uid name
                |uuid now rid uid|rid limit before|uuid now uid status];
  cbn [handle].

(** *** The two membership indexes *)

Lemma userRooms_same_store s s' :
  same_store s s' → userRooms s' = userRooms s ∧ rooms s' = rooms s.
Proof. by intros (? & ? & _). Qed.

Lemma joinRoom_userRooms uuid now room user name s :
  userRooms (joinRoom uuid now room user name s).2
  = <[user := JsSet.add room (default [] (userRooms s !! user))]> (userRooms s).
Proof.
  unfold joinRoom. cbn [snd].
  match goal with |- userRooms (broadcastToRoom ?r ?m ?e ?s0) = _ =>
    destruct (broadcastToRoom_store r m e s0) as (_ & -> & _) end.
  done.
Qed.

Lemma leaveRoom_userRooms uuid now room user s :
  userRooms (leaveRoom uuid now room user s).2 =
    match userRooms s !! user with
    | None => userRooms s
    | Some rs => <[user := JsSet.delete room rs]> (userRooms s)
    end.
Proof.
  unfold leaveRoom. cbn [snd].
  match goal with |- userRooms (broadcastToRoom ?r ?m ?e ?s0) = _ =>
    destruct (broadcastToRoom_store r m e s0) as (_ & -> & _) end.
  destruct (rooms s !! room) as [users|]; [case_bool_decide|];
    simpl; by destruct (userRooms s !! user).
Qed.

Lemma members_other_joinRoom uuid now room user name s other :
  other ≠ room →
  members other (joinRoom uuid now room user name s).2 = members other s.
Proof. intros. unfold members. by rewrite rooms_other_joinRoom. Qed.

Lemma members_other_leaveRoom uuid now room user s other :
  other ≠ room →
  members other (leaveRoom uuid now room user s).2 = members other s.
Proof. intros. unfold members. by rewrite rooms_other_leaveRoom. Qed.

Lemma on_data_userRooms h uuid now msg s :
  userRooms (on_data h uuid now msg s) = userRooms s.
Proof.
  unfold on_data. destruct (calls s !! h) as [c|]; [|done].
  unfold bind_user.
  assert (∀ c' s1, userRooms s1 = userRooms s →
            userRooms (match type msg with
                       | TEXT | IMAGE | FILE =>
                         match handleChatMessage uuid now msg (currentRooms c') s1 with
                         | inl _ => set_destroyed h s1
                         | inr s' => s'
                         end
                       | TYPING => handleTypingIndicator msg (currentRooms c') s1
                       | SYSTEM => handleSystemMessage uuid now msg (currentRooms c') s1
                       end) = userRooms s) as Hdispatch.
  { intros c' s1 Hs1.
    assert (userRooms (set_destroyed h s1) = userRooms s1) as Hd.
    { unfold set_destroyed. by destruct (calls s1 !! h). }
    destruct (type msg).
    1-3: unfold handleChatMessage; destruct (negb _); [by rewrite Hd|];
         match goal with |- userRooms (broadcastToRoom ?r ?m ?e ?s0) = _ =>
           destruct (broadcastToRoom_store r m e s0) as (_ & -> & _) end; done.
    - destruct (handleTypingIndicator_store msg (currentRooms c') s1)
        as (_ & -> & _). done.
    - unfold handleSystemMessage.
      match goal with |- userRooms (broadcastToRoom ?r ?m ?e ?s0) = _ =>
        destruct (broadcastToRoom_store r m e s0) as (_ & -> & _) end. done. }
  assert (userRooms (set_destroyed h s) = userRooms s) as Hd.
  { unfold set_destroyed. by destruct (calls s !! h). }
  destruct (userId c); [by apply Hdispatch|].
  destruct (if bool_decide _ then _ else _) as [u|]; [|done].
  case_bool_decide; [done|]. by apply Hdispatch.
Qed.

Lemma handle_indexes_agree s r : indexes_agree s → indexes_agree (handle s r).
Proof.
  intros Hagree. requests r.
  - unfold chatStream. by destruct (calls s !! h).
  - intros room user. unfold members.
    destruct (on_data_history h uuid now msg s) as [-> _].
    rewrite on_data_userRooms. apply Hagree.
  - unfold on_close. destruct (calls s !! h) as [c|]; [|done].
    intros room user. unfold members.
    destruct (handleUserDisconnect_store uuid now (userId c) (currentRooms c) s)
      as [-> _].
    assert (userRooms (handleUserDisconnect uuid now (userId c) (currentRooms c) s)
            = userRooms s) as ->; [|apply Hagree].
    unfold handleUserDisconnect. destruct (userId c) as [u|]; [|done].
    match goal with |- context [forEach_indexed ?f ?s0 ?l] =>
      destruct (forEach_indexed_store f l) with (s := s0) as (_ & -> & _) end;
      [|done].
    intros. apply broadcastToRoom_store.
  - intros room user. rewrite joinRoom_userRooms.
    destruct (decide (room = rid)) as [->|Hr].
    + rewrite members_joinRoom, JsSetFacts.elem_of_add.
      destruct (decide (user = uid)) as [->|Hu].
      * rewrite lookup_insert_eq. simpl. rewrite JsSetFacts.elem_of_add. tauto.
      * rewrite lookup_insert_ne by done. rewrite (Hagree rid user). tauto.
    + rewrite members_other_joinRoom by done.
      destruct (decide (user = uid)) as [->|Hu].
      * rewrite lookup_insert_eq. simpl. rewrite JsSetFacts.elem_of_add.
        rewrite (Hagree room uid). tauto.
      * rewrite lookup_insert_ne by done. apply Hagree.
  - intros room user. rewrite leaveRoom_userRooms.
    destruct (decide (room = rid)) as [->|Hr].
    + rewrite members_leaveRoom, JsSetFacts.elem_of_delete.
      destruct (decide (user = uid)) as [->|Hu].
      * destruct (userRooms s !! uid) as [rs|] eqn:Hrs.
        -- rewrite lookup_insert_eq. simpl. rewrite JsSetFacts.elem_of_delete. tauto.
        -- rewrite Hrs. simpl. rewrite elem_of_nil. tauto.
      * rewrite (Hagree rid user).
        destruct (userRooms s !! uid) as [rs|] eqn:Hrs;
          [rewrite lookup_insert_ne by done|]; tauto.
    + rewrite members_other_leaveRoom by done. rewrite (Hagree room user).
      destruct (decide (user = uid)) as [->|Hu].
      * destruct (userRooms s !! uid) as [rs|] eqn:Hrs; [|by rewrite Hrs].
        rewrite lookup_insert_eq. simpl. rewrite JsSetFacts.elem_of_delete. tauto.
      * destruct (userRooms s !! uid) as [rs|] eqn:Hrs; [|tauto].
        rewrite lookup_insert_ne by done. tauto.
  - intros room user. unfold members.
    destruct (getHistory_store rid limit before s) as [-> _].
    assert (userRooms (getHistory rid limit before s).2 = userRooms s) as ->;
      [|apply Hagree].
    unfold getHistory. cbn [snd]. destruct (truthy before); [done|].
    by destruct (messageHistory s !! rid).
  - intros room user. unfold members.
    destruct (updatePresence_store uuid now uid status s) as [-> _].
    assert (userRooms (updatePresence uuid now uid status s).2 = userRooms s) as ->;
      [|apply Hagree].
    unfold updatePresence. cbn [snd].
    match goal with |- context [forEach_indexed ?f ?s0 ?l] =>
      destruct (forEach_indexed_store f l) with (s := s0) as (_ & -> & _) end;
      [|done].
    intros. apply broadcastToRoom_store.
Qed.

(** X22.  Whatever requests the service has served, its two records of
    membership agree: a user is among the members of a room exactly if the
    room is among the rooms of the user.  Closing a stream touches neither:
    a user whose stream has ended is still a member of the rooms joined. *)
Theorem membership_indexes_agree (rs : list Request) :
  indexes_agree (serve new_ChatService rs) ∧
  ∀ s h uuid now,
    rooms (on_close h uuid now s) = rooms s ∧
    userRooms (on_close h uuid now s) = userRooms s.
Proof.
  split.
  - assert (indexes_agree new_ChatService) as Hinit.
    { intros room user. unfold members. simpl. rewrite !lookup_empty. simpl.
      rewrite !elem_of_nil. tauto. }
    revert Hinit. generalize new_ChatService. unfold serve.
    induction rs as [|r rs IH]; intros s Hs; [done|].
    simpl. by apply IH, handle_indexes_agree.
  - intros s h uuid now. unfold on_close.
    destruct (calls s !! h) as [c|]; [|done].
    split; [apply handleUserDisconnect_store|].
    unfold handleUserDisconnect. destruct (userId c) as [u|]; [|done].
    match goal with |- context [forEach_indexed ?f ?s0 ?l] =>
      destruct (forEach_indexed_store f l) with (s := s0) as (_ & -> & _) end;
      [|done].
    intros. apply broadcastToRoom_store.
Qed.

(** *** Histories *)

Lemma getHistory_history_perm rid limit before s room :
  default [] (messageHistory (getHistory rid limit before s).2 !! room)
  ≡ₚ default [] (messageHistory s !! room).
Proof.
  unfold getHistory. cbn [snd]. destruct (truthy before); [done|].
  destruct (messageHistory s !! rid) as [stored|] eqn:Hst; [|done]. simpl.
  destruct (decide (rid = room)) as [->|Hne].
  - rewrite lookup_insert_eq, Hst. simpl. apply JsArrayFacts.sort_perm.
  - by rewrite lookup_insert_ne.
Qed.

Lemma handle_history_grows s r room :
  default [] (messageHistory s !! room)
  ⊆+ default [] (messageHistory (handle s r) !! room).
Proof.
  requests r.
  - unfold chatStream. by destruct (calls s !! h).
  - destruct (on_data_history h uuid now msg s) as [_ [->|[_ ->]]]; [done|].
    destruct (decide (room_id msg = room)) as [->|Hne].
    + rewrite lookup_insert_eq. simpl. by apply submseteq_inserts_r.
    + by rewrite lookup_insert_ne.
  - unfold on_close. destruct (calls s !! h) as [c|]; [|done].
    by destruct (handleUserDisconnect_store uuid now (userId c) (currentRooms c) s)
      as [_ ->].
  - by rewrite joinRoom_history.
  - by rewrite leaveRoom_history.
  - by rewrite getHistory_history_perm.
  - by destruct (updatePresence_store uuid now uid status s) as [_ ->].
Qed.

(** X23.  The service never drops a stored message: whatever requests
    follow, every message in a room's history stays in it, as many times as
    it was there.  This holds for a room that has lost all its members too.
    A [getHistory] call can reorder a history but neither adds to it nor
    takes from it. *)
Theorem history_only_grows (rs : list Request) s room :
  default [] (messageHistory s !! room)
  ⊆+ default [] (messageHistory (serve s rs) !! room) ∧
  ∀ rid limit before,
    default [] (messageHistory (getHistory rid limit before s).2 !! room)
    ≡ₚ default [] (messageHistory s !! room).
Proof.
  split; [|intros; apply getHistory_history_perm].
  unfold serve. revert s. induction rs as [|r rs IH]; intros s; [done|].
  simpl. etrans; [apply (handle_history_grows s r)|apply IH].
Qed.

(** [sort] leaves a newest-first list as it is, a message newer than all
    others goes to the front, and sorting commutes with filtering. *)
Lemma sort_insert_front x (l : list Message) :
  Forall (λ z, timestamp z ≤ timestamp x) l →
  JsArray.sort_insert newest_first x l = x :: l.
Proof.
  destruct l as [|y l]; [done|]. intros [Hy _]%Forall_cons. simpl.
  unfold newest_first. by destruct (Z.ltb_spec 0 (timestamp y - timestamp x)); [lia|].
Qed.

Lemma sort_sorted (l : list Message) :
  StronglySorted not_older l → JsArray.sort newest_first l = l.
Proof.
  induction 1 as [|x l Hl IH Hx]; [done|]. simpl.
  fold (JsArray.sort newest_first l). rewrite IH. by apply sort_insert_front.
Qed.


Lemma filter_sort_insert (P : Message → Prop) `{∀ x, Decision (P x)} x l :
  StronglySorted not_older l →
  filter P (JsArray.sort_insert newest_first x l) =
    if decide (P x) then JsArray.sort_insert newest_first x (filter P l)
    else filter P l.
Proof.
  induction 1 as [|y l Hl IH Hy]; simpl.
  - destruct (decide (P x)); [by rewrite filter_cons_True|by rewrite filter_cons_False].
  - unfold newest_first at 1.
    destruct (Z.ltb_spec 0 (timestamp y - timestamp x)) as [Hlt|Hge].
    + destruct (decide (P y)).
      * rewrite !(filter_cons_True _ y) by done. rewrite IH.
        destruct (decide (P x)); [|done]. simpl. unfold newest_first at 2.
        by destruct (Z.ltb_spec 0 (timestamp y - timestamp x)); [|lia].
      * rewrite !(filter_cons_False _ y) by done. apply IH.
    + assert (Forall (λ z, timestamp z ≤ timestamp x) (filter P (y :: l))) as Hall.
      { apply Forall_forall. intros z [_ Hz]%list_elem_of_filter.
        apply elem_of_cons in Hz as [->|Hz]; [lia|].
        rewrite Forall_forall in Hy. specialize (Hy z Hz).
        unfold not_older in Hy. lia. }
      destruct (decide (P x)).
      * rewrite filter_cons_True by done. by rewrite sort_insert_front.
      * by rewrite filter_cons_False.
Qed.

Lemma filter_sort (P : Message → Prop) `{∀ x, Decision (P x)} l :
  filter P (JsArray.sort newest_first l) = JsArray.sort newest_first (filter P l).
Proof.
  induction l as [|x l IH]; [done|]. simpl.
  fold (JsArray.sort newest_first l).
  rewrite filter_sort_insert by apply JsArrayFacts.sort_newest_first.
  destruct (decide (P x)).
  - rewrite filter_cons_True by done. simpl. by rewrite IH.
  - rewrite filter_cons_False by done. apply IH.
Qed.

(** X24.  That [getHistory] sorts the stored array in place cannot be seen
    through [getHistory]: after any [getHistory] call, every [getHistory]
    call, for the same room or another, with the same arguments or others,
    answers what it would have answered before. *)
Theorem getHistory_leaves_answers_alone rid limit before rid' limit' before' s :
  (getHistory rid' limit' before' (getHistory rid limit before s).2).1
  = (getHistory rid' limit' before' s).1.
Proof.
  rewrite !getHistory_response.
  assert (messageHistory (getHistory rid limit before s).2 !! rid'
          = messageHistory s !! rid'
          ∨ ∃ stored, messageHistory s !! rid' = Some stored ∧
              messageHistory (getHistory rid limit before s).2 !! rid'
              = Some (JsArray.sort newest_first stored)) as [->|(stored & Hs & ->)].
  { unfold getHistory. cbn [snd]. destruct (truthy before); [by left|].
    destruct (messageHistory s !! rid) as [stored|] eqn:Hst; [|by left]. simpl.
    destruct (decide (rid = rid')) as [->|Hne].
    - right. exists stored. by rewrite lookup_insert_eq.
    - left. by rewrite lookup_insert_ne. }
  - done.
  - rewrite Hs. simpl.
    assert ((if truthy before'
             then filter (λ msg, timestamp msg < default 0 before')
                    (JsArray.sort newest_first stored)
             else JsArray.sort newest_first stored)
            = JsArray.sort newest_first
                (if truthy before'
                 then filter (λ msg, timestamp msg < default 0 before') stored
                 else stored)) as ->.
    { destruct (truthy before'); [|done]. apply filter_sort. }
    by rewrite (sort_sorted (JsArray.sort newest_first _))
      by apply JsArrayFacts.sort_newest_first.
Qed.

(** *** Streams *)

Lemma same_binding_refl c : same_binding c c.
Proof. by repeat split. Qed.

Lemma set_destroyed_calls h0 s h c :
  calls s !! h = Some c →
  ∃ c', calls (set_destroyed h0 s) !! h = Some c' ∧ same_binding c c'.
Proof.
  intros Hc. unfold set_destroyed.
  destruct (calls s !! h0) as [c0|] eqn:Hc0; [|by eauto using same_binding_refl].
  simpl. destruct (decide (h0 = h)) as [->|Hne].
  - rewrite lookup_insert_eq. eexists. split; [done|].
    rewrite Hc in Hc0. inversion Hc0; subst. by repeat split.
  - rewrite lookup_insert_ne by done. eauto using same_binding_refl.
Qed.

Lemma same_store_calls s s' : same_store s s' → calls s' = calls s.
Proof. by intros (_ & _ & _ & _ & ?). Qed.

Lemma dispatch_calls h0 uuid now msg rooms0 s1 :
  let s' := match type msg with
            | TEXT | IMAGE | FILE =>
              match handleChatMessage uuid now msg rooms0 s1 with
              | inl _ => set_destroyed h0 s1
              | inr s' => s'
              end
            | TYPING => handleTypingIndicator msg rooms0 s1
            | SYSTEM => handleSystemMessage uuid now msg rooms0 s1
            end in
  calls s' = calls s1 ∨ s' = set_destroyed h0 s1.
Proof.
  simpl. destruct (type msg).
  1-3: unfold handleChatMessage; destruct (negb _); [by right|]; left;
       match goal with |- calls (broadcastToRoom ?r ?m ?e ?s0) = _ =>
         rewrite (same_store_calls _ _ (broadcastToRoom_store r m e s0)) end; done.
  - left. apply same_store_calls, handleTypingIndicator_store.
  - left. unfold handleSystemMessage.
    match goal with |- calls (broadcastToRoom ?r ?m ?e ?s0) = _ =>
      rewrite (same_store_calls _ _ (broadcastToRoom_store r m e s0)) end. done.
Qed.

Lemma on_data_keeps_binding h0 uuid now msg s h c u :
  calls s !! h = Some c → userId c = Some u →
  ∃ c', calls (on_data h0 uuid now msg s) !! h = Some c' ∧ same_binding c c'.
Proof.
  intros Hc Hu. unfold on_data.
  destruct (calls s !! h0) as [c0|] eqn:Hc0; [|by eauto using same_binding_refl].
  destruct (bind_user h0 c0 msg s) as [[c1 s1]|] eqn:Hbind;
    [|by apply set_destroyed_calls].
  assert (calls s1 !! h = Some c) as Hc1.
  { unfold bind_user in Hbind.
    destruct (userId c0) eqn:Hu0; [by inversion Hbind; subst|].
    destruct (if bool_decide _ then _ else _) as [u'|]; [|done].
    case_bool_decide; [done|]. inversion Hbind; subst. simpl.
    rewrite lookup_insert_ne; [done|]. intros ->. congruence. }
  destruct (dispatch_calls h0 uuid now msg (currentRooms c1) s1) as [Heq|Heq].
  - simpl in Heq. rewrite Heq. eauto using same_binding_refl.
  - simpl in Heq. rewrite Heq. by apply set_destroyed_calls.
Qed.

Lemma unary_calls s :
  (∀ uuid now room user name, calls (joinRoom uuid now room user name s).2 = calls s) ∧
  (∀ uuid now room user, calls (leaveRoom uuid now room user s).2 = calls s) ∧
  (∀ room limit before, calls (getHistory room limit before s).2 = calls s) ∧
  (∀ uuid now user status, calls (updatePresence uuid now user status s).2 = calls s) ∧
  (∀ h uuid now, calls (on_close h uuid now s) = calls s).
Proof.
  split; [|split; [|split; [|split]]].
  - intros. unfold joinRoom. cbn [snd].
    match goal with |- calls (broadcastToRoom ?r ?m ?e ?s0) = _ =>
      rewrite (same_store_calls _ _ (broadcastToRoom_store r m e s0)) end. done.
  - intros. unfold leaveRoom. cbn [snd].
    match goal with |- calls (broadcastToRoom ?r ?m ?e ?s0) = _ =>
      rewrite (same_store_calls _ _ (broadcastToRoom_store r m e s0)) end.
    destruct (rooms s !! room) as [users|]; [case_bool_decide|];
      simpl; by destruct (userRooms s !! user).
  - intros. unfold getHistory. cbn [snd]. destruct (truthy before); [done|].
    by destruct (messageHistory s !! room).
  - intros. unfold updatePresence. cbn [snd].
    match goal with |- context [forEach_indexed ?f ?s0 ?l] =>
      destruct (forEach_indexed_store f l) with (s := s0) as (_ & _ & _ & _ & ->)
    end; [|done].
    intros. apply broadcastToRoom_store.
  - intros. unfold on_close. destruct (calls s !! h) as [c|] eqn:Hc; [|done].
    unfold handleUserDisconnect. destruct (userId c) as [u|]; [|done].
    match goal with |- context [forEach_indexed ?f ?s0 ?l] =>
      destruct (forEach_indexed_store f l) with (s := s0) as (_ & _ & _ & _ & ->)
    end; [|done].
    intros. apply broadcastToRoom_store.
Qed.

Lemma handle_keeps_binding s r h c u :
  calls s !! h = Some c → userId c = Some u →
  ∃ c', calls (handle s r) !! h = Some c' ∧ same_binding c c'.
Proof.
  intros Hc Hu. destruct (unary_calls s) as (Hj & Hl & Hg & Hp & Hx).
  destruct r as [h0 md wt|h0 uuid now msg|h0 uuid now|uuid now rid uid name
                |uuid now rid uid|rid limit before|uuid now uid status];
    cbn [handle]; rewrite ?Hj, ?Hl, ?Hg, ?Hp, ?Hx;
    eauto using same_binding_refl, on_data_keeps_binding.
  unfold chatStream. destruct (calls s !! h0) as [c0|] eqn:Hc0;
    [by eauto using same_binding_refl|].
  simpl. rewrite lookup_insert_ne by congruence. eauto using same_binding_refl.
Qed.

Lemma on_data_after_bind h uuid now msg s c c1 s1 :
  calls s !! h = Some c → bind_user h c msg s = Some (c1, s1) →
  calls (on_data h uuid now msg s) = calls s1 ∨
  on_data h uuid now msg s = set_destroyed h s1.
Proof.
  intros Hc Hbind. unfold on_data. rewrite Hc, Hbind.
  apply (dispatch_calls h uuid now msg (currentRooms c1) s1).
Qed.

(** X25.  A stream is bound once and for all.  The first message that
    carries a user id, or finds one in the metadata, binds the stream to
    that user, the message's own id taking precedence, with the rooms the
    user is in at that moment.  From then on, whatever requests follow (other
    user ids in later messages, joins, leaves, other streams of the same
    user), the stream keeps that user and that room set. *)
Theorem stream_binding_is_permanent h c s :
  calls s !! h = Some c →
  (userId c = None →
   ∀ uuid now msg u,
     (if bool_decide (user_id msg ≠ ""%string) then Some (user_id msg)
      else metadata_user_id c) = Some u →
     u ≠ ""%string →
     ∃ c', calls (on_data h uuid now msg s) !! h = Some c' ∧
           userId c' = Some u ∧
           currentRooms c'
           = foldl (λ cur roomId, JsSet.add roomId cur) (currentRooms c)
               (default [] (userRooms s !! u))) ∧
  (∀ u, userId c = Some u →
   ∀ rs, ∃ c', calls (serve s rs) !! h = Some c' ∧ same_binding c c').
Proof.
  intros Hc. split.
  - intros Hunbound uuid now msg u Hcand Hu.
    set (c1 := {| metadata_user_id := metadata_user_id c; destroyed := destroyed c;
                  write_throws := write_throws c; userId := Some u;
                  currentRooms :=
                    foldl (λ cur roomId, JsSet.add roomId cur) (currentRooms c)
                      (default [] (userRooms s !! u)) |}).
    set (s1 := set_calls (<[h := c1]> (calls s))
                 (set_userStreams (<[u := h]> (userStreams s)) s)).
    assert (bind_user h c msg s = Some (c1, s1)) as Hbind.
    { unfold bind_user. rewrite Hunbound, Hcand.
      by rewrite bool_decide_eq_false_2 by done. }
    destruct (on_data_after_bind h uuid now msg s c c1 s1 Hc Hbind) as [-> | ->].
    + exists c1. subst s1. simpl. by rewrite lookup_insert_eq.
    + unfold set_destroyed. subst s1. simpl. rewrite lookup_insert_eq. simpl.
      rewrite lookup_insert_eq. eauto.
  - intros u Hu rs. unfold serve. revert s c Hc Hu.
    induction rs as [|r rs IH]; intros s c Hc Hu; [by eauto using same_binding_refl|].
    simpl. destruct (handle_keeps_binding s r h c u Hc Hu) as (c1 & Hc1 & Hb1).
    destruct (IH (handle s r) c1 Hc1) as (c' & Hc' & Hb').
    { destruct Hb1 as (-> & _). done. }
    exists c'. split; [done|].
    destruct Hb1 as (? & ? & ? & ? & ?), Hb' as (? & ? & ? & ? & ?).
    repeat split; try congruence. auto.
Qed.

(** *** Content messages *)

Lemma on_data_content h c u uuid now msg s :
  calls s !! h = Some c → userId c = Some u → is_content (type msg) = true →
  on_data h uuid now msg s =
    match handleChatMessage uuid now msg (currentRooms c) s with
    | inl _ => set_destroyed h s
    | inr s' => s'
    end.
Proof.
  intros Hc Hu Hty. rewrite (on_data_bound h c u) by done.
  by destruct (type msg).
Qed.


(** X28.  A stream with no user id to bind it to, neither in the message
    nor in the metadata, is destroyed by its first message, whatever the
    type of the message, and nothing else changes; it is not bound. *)
Theorem message_without_user_id h c uuid now msg s :
  calls s !! h = Some c → userId c = None →
  user_id msg = ""%string →
  metadata_user_id c = None ∨ metadata_user_id c = Some ""%string →
  let s' := on_data h uuid now msg s in
  s' = set_destroyed h s ∧
  (∃ c', calls s' !! h = Some c' ∧ destroyed c' = true ∧ userId c' = None) ∧
  messageHistory s' = messageHistory s ∧ sent s' = sent s ∧
  userStreams s' = userStreams s ∧ rooms s' = rooms s.
Proof.
  intros Hc Hunbound Hempty Hmeta s'.
  assert (s' = set_destroyed h s) as ->.
  { subst s'. unfold on_data. rewrite Hc. unfold bind_user.
    rewrite Hunbound, Hempty. rewrite bool_decide_eq_false_2 by (by intros H; apply H).
    by destruct Hmeta as [-> | ->]. }
  unfold set_destroyed. rewrite Hc. simpl.
  split; [done|]. split; [|done].
  rewrite lookup_insert_eq. eauto.
Qed.

(** *** Broadcasts and disconnects *)

Lemma write_fails_broadcast_one message ex s u v :
  v ≠ u → write_fails (broadcast_one message ex s u) v = write_fails s v.
Proof. intros. unfold write_fails. by rewrite broadcast_one_live. Qed.

Lemma broadcast_one_streams_lookup message ex s u v :
  userStreams (broadcast_one message ex s u) !! v =
    if bool_decide (v = u) && bool_decide (Some u ≠ ex) && write_fails s u
    then None else userStreams s !! v.
Proof.
  unfold broadcast_one, write_fails.
  destruct (bool_decide (Some u ≠ ex)); [|by rewrite andb_false_r].
  rewrite andb_true_r.
  destruct (live_stream s u) as [[h c]|]; [|by rewrite andb_false_r].
  destruct (write_throws c); [|by rewrite andb_false_r].
  rewrite andb_true_r. simpl. case_bool_decide as Hv.
  - subst. apply lookup_delete_eq.
  - by rewrite lookup_delete_ne.
Qed.

Lemma broadcast_fold_streams_lookup message ex users :
  NoDup users →
  ∀ s v, userStreams (foldl (broadcast_one message ex) s users) !! v =
    if bool_decide (v ∈ users) && bool_decide (Some v ≠ ex) && write_fails s v
    then None else userStreams s !! v.
Proof.
  induction 1 as [|u users Hu Hnd IH]; intros s v; cbn [foldl].
  - rewrite bool_decide_eq_false_2 by apply not_elem_of_nil. done.
  - rewrite IH, broadcast_one_streams_lookup.
    destruct (decide (v = u)) as [->|Hne].
    + rewrite (bool_decide_eq_false_2 (u ∈ users)) by done.
      rewrite (bool_decide_eq_true_2 (u ∈ u :: users)) by (by left).
      by rewrite (bool_decide_eq_true_2 (u = u)).
    + rewrite (bool_decide_eq_false_2 (v = u)) by done. simpl.
      rewrite write_fails_broadcast_one by done.
      assert (bool_decide (v ∈ u :: users) = bool_decide (v ∈ users)) as ->.
      { apply bool_decide_ext. rewrite elem_of_cons. tauto. }
      done.
Qed.

(** X29.  A write that throws during a broadcast costs the user it was for
    its place in the stream directory and costs nobody else anything: after
    the broadcast exactly the members whose write threw are gone from the
    directory, and every other member with a live stream has been written
    the message. *)
Theorem broadcast_evicts_failed_writes roomId message ex s :
  NoDup (members roomId s) →
  let s' := broadcastToRoom roomId message ex s in
  (∀ v, userStreams s' !! v =
        if bool_decide (v ∈ members roomId s) && bool_decide (Some v ≠ ex)
           && write_fails s v
        then None else userStreams s !! v) ∧
  sent s' = sent s ++ recipients message ex (members roomId s) s ∧
  (∀ v h c, v ∈ members roomId s → Some v ≠ ex →
            live_stream s v = Some (h, c) → write_throws c = false →
            (h, message) ∈ sent s') ∧
  same_store s s'.
Proof.
  intros Hnd s'. subst s'.
  split; [intros v; by apply broadcast_fold_streams_lookup|].
  split; [by apply broadcastToRoom_sent|]. split; [|apply broadcastToRoom_store].
  intros v h c Hv Hex Hlive Hok. rewrite broadcastToRoom_sent by done.
  apply elem_of_app. right. unfold recipients. apply list_elem_of_omap.
  exists v. split; [done|].
  by rewrite bool_decide_eq_true_2, Hlive, Hok.
Qed.

Lemma forEach_indexed_inv {A} (P : ChatService → Prop)
    (f : ChatService → nat → A → ChatService) (l : list A) :
  (∀ s i x, P s → P (f s i x)) → ∀ s, P s → P (forEach_indexed f s l).
Proof.
  intros Hf s. unfold forEach_indexed. generalize O. revert s.
  induction l as [|x l IH]; intros s i Hs; simpl; [done|].
  apply IH. by apply Hf.
Qed.

Lemma broadcastToRoom_keeps_gone roomId message ex s u :
  userStreams s !! u = None →
  userStreams (broadcastToRoom roomId message ex s) !! u = None.
Proof.
  unfold broadcastToRoom. generalize (members roomId s). intros l. revert s.
  induction l as [|v l IH]; intros s Hs; simpl; [done|].
  apply IH. rewrite broadcast_one_streams_lookup.
  by destruct (_ && _ && _).
Qed.

(** X30.  When a bound stream ends, fails or is cancelled, its user is
    taken out of the stream directory and shown OFFLINE, whichever of the
    user's streams the directory held, the one that closed or a newer one.
    Rooms, memberships and histories stay as they are.  The closing of a
    stream that was never bound changes nothing at all. *)
Theorem closing_a_stream h c uuid now s :
  calls s !! h = Some c →
  let s' := on_close h uuid now s in
  (∀ u, userId c = Some u →
     userStreams s' !! u = None ∧
     userPresence s' !! u = Some "OFFLINE"%string ∧
     (∀ v, v ≠ u → userPresence s' !! v = userPresence s !! v) ∧
     rooms s' = rooms s ∧ userRooms s' = userRooms s ∧
     messageHistory s' = messageHistory s ∧ calls s' = calls s) ∧
  (userId c = None → s' = s).
Proof.
  intros Hc s'. subst s'. unfold on_close. rewrite Hc. split.
  - intros u Hu. rewrite Hu. unfold handleUserDisconnect.
    set (s0 := set_userPresence _ _).
    match goal with |- context [forEach_indexed ?f s0 ?l] =>
      set (s1 := forEach_indexed f s0 l);
      assert (same_store s0 s1) as (Hr & Hur & Hh & Hp & Hcs) end.
    { apply forEach_indexed_store. intros. apply broadcastToRoom_store. }
    assert (userStreams s1 !! u = None) as Hgone.
    { subst s1. apply (forEach_indexed_inv (λ s, userStreams s !! u = None)).
      - intros. by apply broadcastToRoom_keeps_gone.
      - subst s0. simpl. apply lookup_delete_eq. }
    split; [done|]. rewrite Hp, Hr, Hur, Hh, Hcs. subst s0. simpl.
    split; [apply lookup_insert_eq|]. split; [|done].
    intros v Hv. by rewrite lookup_insert_ne.
  - intros Hu. by rewrite Hu.
Qed.

(** X27.  A TEXT, IMAGE or FILE message that arrives on a bound stream for
    a room that is not in the stream's room set is neither stored nor
    delivered.  The listener does one thing: it destroys the call, so that
    no broadcast writes to it any more.  [call.destroy(error)] makes the
    stream emit 'error', and the listener that [chatStream] registered for
    it runs the disconnect handler: the user is taken out of the stream
    directory and shown OFFLINE, and a "User left the room" notification is
    written to the live streams of the members of each room of the stream.
    Rooms, memberships and histories are after both what they were. *)
Theorem content_message_outside_rooms h c u uuid now msg uuids nows s :
  calls s !! h = Some c → userId c = Some u →
  is_content (type msg) = true → room_id msg ∉ currentRooms c →
  let s1 := on_data h uuid now msg s in
  let s2 := on_close h uuids nows s1 in
  (s1 = set_destroyed h s ∧
   (∃ c', calls s1 !! h = Some c' ∧ destroyed c' = true ∧ same_binding c c') ∧
   messageHistory s1 = messageHistory s ∧ sent s1 = sent s ∧
   rooms s1 = rooms s ∧ userStreams s1 = userStreams s ∧
   (∀ v, userStreams s !! v = Some h → live_stream s1 v = None)) ∧
  (userStreams s2 !! u = None ∧
   userPresence s2 !! u = Some "OFFLINE"%string ∧
   rooms s2 = rooms s ∧ userRooms s2 = userRooms s ∧
   messageHistory s2 = messageHistory s ∧
   sent s2 = sent s ++
     concat (imap (λ i roomId,
                     recipients (leaveMessage (uuids i) (nows i) roomId u) None
                       (members roomId s)
                       (set_userStreams (delete u (userStreams s))
                          (set_destroyed h s)))
                  (currentRooms c))).
Proof.
  intros Hc Hu Hty Hout s1 s2.
  assert (s1 = set_destroyed h s) as Hs1.
  { subst s1. rewrite (on_data_content h c u) by done.
    unfold handleChatMessage, JsSet.has. by rewrite bool_decide_eq_false_2. }
  subst s2. rewrite Hs1. clear s1 Hs1.
  unfold set_destroyed. rewrite Hc.
  set (c1 := {| metadata_user_id := metadata_user_id c; destroyed := true;
                write_throws := write_throws c; userId := userId c;
                currentRooms := currentRooms c |}).
  set (s1 := set_calls (<[h := c1]> (calls s)) s).
  assert (calls s1 !! h = Some c1) as Hc1 by apply lookup_insert_eq.
  split.
  - split; [done|]. split.
    { exists c1. split; [done|]. by repeat split. }
    repeat split; try done.
    intros v Hv. unfold live_stream. cbn [userStreams s1 set_calls].
    by rewrite Hv, Hc1.
  - unfold on_close. rewrite Hc1. cbn [userId currentRooms c1]. rewrite Hu.
    rewrite handleUserDisconnect_sent.
    unfold handleUserDisconnect.
    set (s0 := set_userPresence _ _).
    match goal with |- context [forEach_indexed ?f s0 ?l] =>
      set (s2 := forEach_indexed f s0 l);
      assert (same_store s0 s2) as (Hr & Hur & Hh & Hp & Hcs) end.
    { apply forEach_indexed_store. intros. apply broadcastToRoom_store. }
    split.
    { subst s2. apply (forEach_indexed_inv (λ s, userStreams s !! u = None)).
      - intros. by apply broadcastToRoom_keeps_gone.
      - subst s0. simpl. apply lookup_delete_eq. }
    rewrite Hp, Hr, Hur, Hh. subst s0. simpl.
    split; [apply lookup_insert_eq|]. done.
Qed.

End ChatMore.

(** ** The further properties on sample inputs *)


Lemma withRetry_ends_with_first_final_outcome_witness :
  ∃ k : nat,
    Z.of_nat k ≤ 5 ∧
    ErrorHandling.withRetry busy_then_late (Some 5) (Some 1000) O
    = (match Resilience.outcome busy_then_late (k - 1) O with
       | inr v => ErrorHandling.Returned v
       | inl e => ErrorHandling.Thrown e
       end,
       Resilience.world_after busy_then_late k O,
       Resilience.backoff 1000 1 k) ∧
    (∀ i, (S i < k)%nat →
       ∃ e, Resilience.outcome busy_then_late i O = inl e ∧
            (ErrorHandling.code e = Some 14 ∨ ErrorHandling.code e = Some 4
             ∨ ErrorHandling.code e = Some 8)).
Proof.
  destruct (RetryMore.withRetry_ends_with_first_final_outcome
              busy_then_late 5 1000 O) as (k & _ & Hk & Hrun & Hpre & _); [lia|].
  exists k. split; [exact Hk|]. split; [exact Hrun | exact Hpre].
Defined.

Lemma withRetry_total_pause_witness :
  Resilience.total_pause
    (ErrorHandling.withRetry always_unavailable (Some 3) (Some 1000) O).2
  ≤ 1000 * (2 ^ (3 - 1) - 1).
Proof.
  apply (RetryMore.withRetry_total_pause always_unavailable 3 1000 O); lia.
Defined.

Lemma breaker_counter_agrees_with_state_witness :
  Resilience.consistent
    (ErrorHandling.breaker
       (ErrorHandling.run (V:=string) (ErrorHandling.start breaker_2_5000)
          [ErrorHandling.Call 10; ErrorHandling.Call 11;
           ErrorHandling.Settle (inl (ErrorHandling.Error "Service error")) 12;
           ErrorHandling.Settle (inr "Success!"%string) 13])) ∧
  1 ≤ ErrorHandling.failureThreshold
        (ErrorHandling.new_CircuitBreaker
           {| ErrorHandling.opt_failureThreshold := Some 0;
              ErrorHandling.opt_resetTimeout := None |} 0).
Proof.
  split.
  - destruct (BreakerMore.breaker_counter_agrees_with_state (V:=string)
                [ErrorHandling.Call 10; ErrorHandling.Call 11;
                 ErrorHandling.Settle (inl (ErrorHandling.Error "Service error")) 12;
                 ErrorHandling.Settle (inr "Success!"%string) 13])
      as (Hrun & _).
    destruct (Hrun (ErrorHandling.start breaker_2_5000)) as (Hcons & _).
    + simpl. lia.
    + vm_compute. reflexivity.
    + exact Hcons.
  - destruct (BreakerMore.breaker_counter_agrees_with_state (V:=string) [])
      as (_ & Hnew).
    destruct (Hnew {| ErrorHandling.opt_failureThreshold := Some 0;
                      ErrorHandling.opt_resetTimeout := None |} 0)
      as (Hthreshold & _).
    + simpl. lia.
    + exact Hthreshold.
Defined.

Lemma breaker_opens_at_threshold_witness :
  let r := ErrorHandling.run (V:=string) (ErrorHandling.start breaker_2_5000)
             [ErrorHandling.Call 10;
              ErrorHandling.Settle (inl (ErrorHandling.Error "Service error")) 11;
              ErrorHandling.Call 11;
              ErrorHandling.Settle (inl (ErrorHandling.Error "Service error")) 12] in
  ErrorHandling.state (ErrorHandling.breaker r) = ErrorHandling.OPEN ∧
  ErrorHandling.nextAttempt (ErrorHandling.breaker r) = 12 + 5000.
Proof.
  intros r.
  destruct (BreakerMore.breaker_opens_at_threshold (V:=string) breaker_2_5000
              [(10, ErrorHandling.Error "Service error", 11)]
              11 (ErrorHandling.Error "Service error") 12)
    as (_ & Hopens).
  - reflexivity.
  - reflexivity.
  - vm_compute. discriminate.
  - vm_compute. reflexivity.
  - destruct Hopens as (Hstate & Hnext & _); [reflexivity|].
    split; [exact Hstate | exact Hnext].
Defined.

Lemma breaker_rejects_during_cooldown_witness :
  let r := ErrorHandling.run (V:=string) (ErrorHandling.start tripped_at_12)
             [ErrorHandling.Call 100; ErrorHandling.Call 5011] in
  ErrorHandling.breaker r = tripped_at_12 ∧
  ErrorHandling.invocations r = O ∧ ErrorHandling.rejections r = 2%nat.
Proof.
  intros r.
  destruct (BreakerMore.breaker_rejects_during_cooldown (V:=string)
              (ErrorHandling.start tripped_at_12)
              [ErrorHandling.Call 100; ErrorHandling.Call 5011])
    as (Hcb & Hinv & _ & Hrej).
  - reflexivity.
  - repeat constructor.
  - split; [exact Hcb|]. split; [exact Hinv | exact Hrej].
Defined.

Lemma settlement_while_open_witness :
  (let r' := ErrorHandling.step tripped_with_one_in_flight
               (ErrorHandling.Settle (inr "Success!"%string) 20) in
   ErrorHandling.state (ErrorHandling.breaker r') = ErrorHandling.CLOSED ∧
   ErrorHandling.execute_enter 21 (ErrorHandling.breaker r')
   = ErrorHandling.Invoked (ErrorHandling.breaker r')) ∧
  (let r' := ErrorHandling.step (V:=string) tripped_with_one_in_flight
               (ErrorHandling.Settle (inl (ErrorHandling.Error "Service error")) 20) in
   ErrorHandling.nextAttempt (ErrorHandling.breaker r') = 20 + 5000).
Proof.
  destruct (BreakerMore.settlement_while_open (V:=string)
              tripped_with_one_in_flight O) as (Hok & Hfail).
  - reflexivity.
  - reflexivity.
  - vm_compute. discriminate.
  - split.
    + destruct (Hok "Success!"%string 20) as (Hstate & _ & Henter).
      split; [exact Hstate | exact (Henter 21)].
    + destruct (Hfail (ErrorHandling.Error "Service error") 20) as (_ & Hnext).
      exact Hnext.
Defined.

Lemma transformToGrpcError_normalises_witness :
  ∃ c, ErrorHandling.code
         (Resilience.fields (Resilience.transformToGrpcError missing_email))
       = Some c ∧
       c ∈ [3; 5; 16; 7; 6; 13].
Proof.
  destruct (TransformFacts.transformToGrpcError_normalises missing_email)
    as (_ & _ & _ & Hother & _).
  destruct Hother as (c & Hc & Hin & _); [reflexivity|].
  exists c. split; [exact Hc | exact Hin].
Defined.

Lemma error_answers_are_well_formed_witness :
  Resilience.res_code (Resilience.expressErrorHandler downstream_not_found)
  = Some 5 ∧
  Resilience.res_status (Resilience.expressErrorHandler payload_too_large)
  = ErrorHandling.num_or (Some 413) (ErrorHandling.num_or None 500).
Proof.
  destruct TransformFacts.error_answers_are_well_formed as (Hcode & Hplain & _).
  split.
  - destruct (Hcode downstream_not_found 5) as (_ & Hc & _);
      [reflexivity | discriminate | exact Hc].
  - destruct (Hplain payload_too_large) as (_ & Hs); [by left | exact Hs].
Defined.

Lemma getEndpoint_returns_healthy_witness :
  ∃ e, (LoadBalancing.getEndpoint always_zero round_robin_balancer).1
       = inr (Some e) ∧
       e ∈ LoadBalancing.healthyEndpoints round_robin_balancer.
Proof.
  apply (BalancerMore.getEndpoint_returns_healthy always_zero round_robin_balancer).
  - vm_compute. discriminate.
  - vm_compute. discriminate.
Defined.

Lemma round_robin_serves_each_once_witness :
  NoDup (LoadBalancing.getEndpoint_times always_zero
           (length (LoadBalancing.healthyEndpoints round_robin_balancer))
           round_robin_balancer).1.
Proof.
  apply (BalancerMore.round_robin_serves_each_once always_zero round_robin_balancer).
  - reflexivity.
  - vm_compute. discriminate.
  - apply (bool_decide_unpack _). vm_compute. exact I.
Defined.

Lemma healthy_set_stays_within_endpoints_witness :
  let lb :=
    foldl (Balancing.use always_zero)
      (LoadBalancing.new_LoadBalancer three_endpoints None)
      [Balancing.GetEndpoint;
       Balancing.CheckHealth "localhost:50052" (Some "timeout"%string) 30000;
       Balancing.MarkUnhealthy "localhost:50059";
       Balancing.CheckHealth "localhost:50052" None 60000] in
  NoDup (LoadBalancing.healthyEndpoints lb) ∧
  LoadBalancing.healthyEndpoints lb ⊆ three_endpoints.
Proof.
  intros lb.
  destruct (BalancerMore.healthy_set_stays_within_endpoints always_zero
              three_endpoints None
              [Balancing.GetEndpoint;
               Balancing.CheckHealth "localhost:50052" (Some "timeout"%string) 30000;
               Balancing.MarkUnhealthy "localhost:50059";
               Balancing.CheckHealth "localhost:50052" None 60000])
    as (Hnd & Hsub & _).
  - repeat constructor; apply (bool_decide_unpack _); vm_compute; exact I.
  - split; [exact Hnd | exact Hsub].
Defined.

Lemma recovered_endpoint_goes_last_witness :
  LoadBalancing.healthyEndpoints
    (LoadBalancing.checkHealth "localhost:50051" None 30000
       (LoadBalancing.markUnhealthy "localhost:50051" round_robin_balancer))
  = JsSet.delete "localhost:50051"%string
      (LoadBalancing.healthyEndpoints round_robin_balancer)
    ++ ["localhost:50051"%string].
Proof.
  apply (BalancerMore.recovered_endpoint_goes_last round_robin_balancer
           "localhost:50051" 30000).
  apply (bool_decide_unpack _). vm_compute. exact I.
Defined.

Lemma call_first_request_witness :
  (let '(r, _, w', tried) :=
     Balancing.call rpc_unavailable always_zero default_client O in
   r = Balancing.RejectedWith Balancing.endpoint_is_not_defined ∧ w' = 1%nat ∧
   tried = [Some "localhost:50051"%string]) ∧
  (let '(r, _, w', tried) :=
     Balancing.call rpc_unauthenticated always_zero default_client O in
   r = Balancing.RejectedWith
         (ErrorHandling.GrpcError 16 "Invalid or expired token") ∧
   w' = 1%nat ∧ tried = [Some "localhost:50051"%string]).
Proof.
  split.
  - pose proof (ClientFacts.call_first_request rpc_unavailable always_zero
                  default_client O (Some "localhost:50051"%string)) as H.
    destruct (Balancing.call rpc_unavailable always_zero default_client O)
      as [[[r c'] w'] tried].
    apply H; [vm_compute; discriminate | reflexivity | reflexivity].
  - pose proof (ClientFacts.call_first_request rpc_unauthenticated always_zero
                  default_client O (Some "localhost:50051"%string)) as H.
    destruct (Balancing.call rpc_unauthenticated always_zero default_client O)
      as [[[r c'] w'] tried].
    apply H; [vm_compute; discriminate | reflexivity |].
    right. left. reflexivity.
Defined.

Lemma call_without_request_witness :
  Balancing.call rpc_unavailable always_zero stranded_client O
  = (Balancing.RejectedWith LoadBalancing.no_healthy_endpoints,
     stranded_client, O, []).
Proof.
  apply (ClientFacts.call_without_request rpc_unavailable always_zero
           stranded_client O).
  - reflexivity.
  - vm_compute. discriminate.
Defined.


Lemma register_lists_endpoint_once_witness :
  let reg' := Balancing.register "user-service" "localhost:50051" None 2000
                two_user_services in
  "localhost:50051"%string ∈ Balancing.getEndpoints "user-service" reg' ∧
  NoDup (Balancing.getEndpoints "user-service" reg').
Proof.
  intros reg'.
  destruct (RegistryFacts.register_lists_endpoint_once "user-service"
              "localhost:50051" None 2000 two_user_services)
    as (_ & Hin & Hnd & _).
  - apply (bool_decide_unpack _). vm_compute. exact I.
  - split; [exact Hin | exact Hnd].
Defined.

Lemma unregister_removes_endpoint_witness :
  Balancing.getService "chat-service"
    (Balancing.unregister "user-service" "localhost:50051" two_user_services)
  = Balancing.getService "chat-service" two_user_services.
Proof.
  destruct (RegistryFacts.unregister_removes_endpoint "user-service"
              "localhost:50051" two_user_services) as (_ & _ & Hother & _).
  apply Hother. discriminate.
Defined.

Lemma cleanup_keeps_recently_seen_witness :
  "localhost:50051"%string
  ∈ Balancing.getEndpoints "user-service"
      (Balancing.cleanup None 400000
         (Balancing.register "user-service" "localhost:50051" None 200000
            two_user_services)).
Proof.
  destruct (RegistryFacts.cleanup_keeps_recently_seen "user-service"
              "localhost:50051" None 200000 None 400000 two_user_services)
    as (_ & Hiff).
  - apply (bool_decide_unpack _). vm_compute. exact I.
  - apply Hiff. simpl. lia.
Defined.

Lemma stream_binding_is_permanent_witness :
  let s := Chat.serve Chat.new_ChatService alice_before_first_message in
  (∃ c', Chat.calls (Chat.on_data 1 "id-2" 1700000000100 good_morning s) !! 1%nat
         = Some c' ∧
         Chat.userId c' = Some "alice"%string ∧
         Chat.currentRooms c'
         = foldl (λ cur roomId, JsSet.add roomId cur) []
             (default [] (Chat.userRooms s !! "alice"%string))) ∧
  (∃ c', Chat.calls
           (Chat.serve (Chat.serve Chat.new_ChatService alice_session)
              [Chat.LeaveRoom "id-4" 1700000000300 "general" "alice"])
         !! 1%nat = Some c' ∧
         ChatState.same_binding alice_call c').
Proof.
  intros s. split.
  - destruct (ChatMore.stream_binding_is_permanent 1 fresh_stream s)
      as (Hbind & _); [reflexivity|].
    apply (Hbind eq_refl "id-2"%string 1700000000100 good_morning
             "alice"%string); [reflexivity | discriminate].
  - destruct (ChatMore.stream_binding_is_permanent 1 alice_call
                (Chat.serve Chat.new_ChatService alice_session))
      as (_ & Hkeep); [reflexivity|].
    apply (Hkeep "alice"%string eq_refl).
Defined.


Lemma content_message_outside_rooms_witness :
  let s := Chat.serve Chat.new_ChatService alice_session in
  let s1 := Chat.on_data 1 "id-4" 1700000000300 wrong_room s in
  let s2 := Chat.on_close 1 (λ _, "id-5"%string) (λ _, 1700000000301) s1 in
  (s1 = Chat.set_destroyed 1 s ∧
   Chat.messageHistory s1 = Chat.messageHistory s ∧ Chat.sent s1 = Chat.sent s) ∧
  (Chat.userStreams s2 !! "alice"%string = None ∧
   Chat.userPresence s2 !! "alice"%string = Some "OFFLINE"%string ∧
   Chat.messageHistory s2 = Chat.messageHistory s).
Proof.
  intros s s1 s2.
  destruct (ChatMore.content_message_outside_rooms 1 alice_call "alice"
              "id-4" 1700000000300 wrong_room
              (λ _, "id-5"%string) (λ _, 1700000000301) s)
    as ((Heq & _ & Hhist & Hsent & _) & (Hgone & Hoff & _ & _ & Hhist2 & _)).
  - reflexivity.
  - reflexivity.
  - reflexivity.
  - intros Hin. apply (bool_decide_pack _) in Hin. vm_compute in Hin.
    exact Hin.
  - split.
    + split; [exact Heq|]. split; [exact Hhist | exact Hsent].
    + split; [exact Hgone|]. split; [exact Hoff | exact Hhist2].
Defined.

Lemma message_without_user_id_witness :
  let s := Chat.serve Chat.new_ChatService alice_before_first_message in
  Chat.on_data 1 "id-2" 1700000000100 anonymous s = Chat.set_destroyed 1 s.
Proof.
  intros s.
  destruct (ChatMore.message_without_user_id 1 fresh_stream
              "id-2" 1700000000100 anonymous s) as (Heq & _).
  - reflexivity.
  - reflexivity.
  - reflexivity.
  - left. reflexivity.
  - exact Heq.
Defined.

Lemma broadcast_evicts_failed_writes_witness :
  let s := Chat.serve Chat.new_ChatService alice_session in
  Chat.same_store s (Chat.broadcastToRoom "general" alice_typing None s) ∧
  (1%nat, alice_typing)
  ∈ Chat.sent (Chat.broadcastToRoom "general" alice_typing None s).
Proof.
  intros s.
  destruct (ChatMore.broadcast_evicts_failed_writes "general" alice_typing
              None s) as (_ & _ & Hsent & Hstore).
  - apply (bool_decide_unpack _). vm_compute. exact I.
  - split; [exact Hstore|].
    apply (Hsent "alice"%string 1%nat alice_call).
    + apply (bool_decide_unpack _). vm_compute. exact I.
    + discriminate.
    + reflexivity.
    + reflexivity.
Defined.

Lemma closing_a_stream_witness :
  let s := Chat.serve Chat.new_ChatService alice_session in
  let s' := Chat.on_close 1 (λ _, "id-4"%string) (λ _, 1700000000300) s in
  Chat.userStreams s' !! "alice"%string = None ∧
  Chat.userPresence s' !! "alice"%string = Some "OFFLINE"%string ∧
  Chat.rooms s' = Chat.rooms s.
Proof.
  intros s s'.
  destruct (ChatMore.closing_a_stream 1 alice_call
              (λ _, "id-4"%string) (λ _, 1700000000300) s) as (Hbound & _).
  - reflexivity.
  - destruct (Hbound "alice"%string eq_refl) as (Hgone & Hoff & _ & Hrooms & _).
    split; [exact Hgone|]. split; [exact Hoff | exact Hrooms].
Defined.
